(** * github-org-analyzer: the analysis pipeline and the batch scheduler

    A shallow embedding of [src/lib/types.ts], [src/lib/github.ts],
    [src/app/api/analyze/route.ts] and the handlers of the client page,
    and the properties of the specification proved (or refuted) on it.

    Conventions.
    - A JavaScript string is the [string] of the bytes of its UTF-8 text;
      [trim] removes the white space and line terminators of ECMAScript,
      in their UTF-8 form.
    - JavaScript numbers that count things (array lengths, counters) are
      [nat].
    - A promise that rejects, or a call that throws, is a [Res] carrying
      the thrown value.
    - The remote API is a record of oracles, one per call the code makes.
    - The URL parser of the platform ([new URL]) is a parameter. *)

From Stdlib Require Import Ascii String.
From stdpp Require Import base list strings pretty.
From Equations Require Import Equations.


(** ** Data model: [src/lib/types.ts] *)

Record CompanyInput := {
  company_name : string;
  github_org_url : string
}.

Record RepoCommitData := {
  repoName : string;
  repoUrl : string;
  commitCount : nat
}.

(** [r_company_name] and [r_github_org_url] are the fields [company_name]
    and [github_org_url] of the source; [error] is the optional field. *)
Record CompanyResult := {
  r_company_name : string;
  r_github_org_url : string;
  most_active_repo : string;
  most_active_repo_url : string;
  commit_count : nat;
  top_contributor : string;
  error : option string
}.

(** The event types ["progress"], ["result"], ["error"] and ["done"]. *)
Inductive ProgressEventType := T_progress | T_result | T_error | T_done.

Record ProgressEvent := {
  type : ProgressEventType;
  company : option string;
  message : string;
  result : option CompanyResult;
  completed : option nat;
  total : option nat
}.

Global Instance ProgressEventType_eq_dec : EqDecision ProgressEventType.
Proof. solve_decision. Defined.

(** ** The JavaScript string and array primitives the code uses *)

Module JS.

Definition is_slash (c : ascii) : bool := Ascii.eqb c "/".

Definition is_empty (s : string) : bool :=
  match s with EmptyString => true | String _ _ => false end.

(** Drops the longest prefix of characters satisfying [p]. *)
Fixpoint dropStart (p : ascii -> bool) (s : string) : string :=
  match s with
  | EmptyString => EmptyString
  | String c s' => if p c then dropStart p s' else s
  end.

(** Drops the longest suffix of characters satisfying [p]. *)
Fixpoint dropEnd (p : ascii -> bool) (s : string) : string :=
  match s with
  | EmptyString => EmptyString
  | String c s' =>
      let r := dropEnd p s' in
      if p c && is_empty r then EmptyString else String c r
  end.

(** The code points that [String.prototype.trim] removes: those of
    WhiteSpace (TAB, VT, FF, SP, NBSP, ZWNBSP and the category Zs) and of
    LineTerminator (LF, CR, LS, PS). *)
Definition whiteSpaceCodePoints : list N :=
  [9; 10; 11; 12; 13; 32; 160; 5760;
   8192; 8193; 8194; 8195; 8196; 8197; 8198; 8199; 8200; 8201; 8202;
   8232; 8233; 8239; 8287; 12288; 65279]%N.

(** The UTF-8 text of a code point below 65536. *)
Definition utf8 (cp : N) : string :=
  if (cp <? 128)%N then String (ascii_of_N cp) EmptyString
  else if (cp <? 2048)%N
  then String (ascii_of_N (192 + cp / 64))
         (String (ascii_of_N (128 + cp mod 64)) EmptyString)
  else String (ascii_of_N (224 + cp / 4096))
         (String (ascii_of_N (128 + (cp / 64) mod 64))
            (String (ascii_of_N (128 + cp mod 64)) EmptyString)).

Definition whiteSpace : list string := utf8 <$> whiteSpaceCodePoints.

(** [s] without its prefix [p], if it starts with [p]. *)
Fixpoint stripPrefix (p s : string) : option string :=
  match p, s with
  | EmptyString, _ => Some s
  | String a p', String b s' =>
      if Ascii.eqb a b then stripPrefix p' s' else None
  | String _ _, EmptyString => None
  end.

(** [s] without the first of [seqs] that it starts with, if any. *)
Fixpoint stripAny (seqs : list string) (s : string) : option string :=
  match seqs with
  | [] => None
  | w :: seqs' =>
      match stripPrefix w s with
      | Some rest => Some rest
      | None => stripAny seqs' s
      end
  end.

(** Strips sequences of [seqs] from the start of [s] as long as there is
    one, at most [fuel] times. *)
Fixpoint dropSeqs (fuel : nat) (seqs : list string) (s : string) : string :=
  match fuel with
  | 0 => s
  | S fuel' =>
      match stripAny seqs s with
      | Some rest => dropSeqs fuel' seqs rest
      | None => s
      end
  end.

Fixpoint reverse (s : string) : string :=
  match s with
  | EmptyString => EmptyString
  | String c s' => reverse s' +:+ String c EmptyString
  end.

(** [s.trimStart()] and [s.trimEnd()]: every strip removes at least one
    byte, so the length of [s] is fuel enough. *)
Definition trimStart (s : string) : string :=
  dropSeqs (String.length s) whiteSpace s.

Definition trimEnd (s : string) : string :=
  reverse (dropSeqs (String.length s) (reverse <$> whiteSpace) (reverse s)).

(** [s.trim()] *)
Definition trim (s : string) : string := trimEnd (trimStart s).

(** [s.replace(/\/+$/, "")] *)
Definition stripTrailingSlashes (s : string) : string := dropEnd is_slash s.

(** [s.startsWith(p)] *)
Definition startsWith (s p : string) : bool := String.prefix p s.

(** [s.includes(sub)] *)
Fixpoint includes (s sub : string) : bool :=
  String.prefix sub s
  || match s with
     | EmptyString => false
     | String _ s' => includes s' sub
     end.

(** [s.split(c)] for a one-character separator. *)
Fixpoint split (c : ascii) (s : string) : list string :=
  match s with
  | EmptyString => [EmptyString]
  | String a s' =>
      if Ascii.eqb a c then EmptyString :: split c s'
      else match split c s' with
           | h :: t => String a h :: t
           | [] => [String a EmptyString]
           end
  end.

(** [xs.filter(Boolean)] on an array of strings: the empty string is the
    only falsy string. *)
Definition filterBoolean (xs : list string) : list string :=
  filter (fun s => is_empty s = false) xs.

(** [xs.reduce(f)] without an initial value: a [TypeError] (here [None])
    on the empty array, otherwise a left fold seeded with the first
    element. *)
Definition reduce {A} (f : A -> A -> A) (xs : list A) : option A :=
  match xs with
  | [] => None
  | x :: rest => Some (fold_left f rest x)
  end.

(** [xs.slice(i, j)] for [0 <= i <= j]. *)
Definition slice {A} (i j : nat) (xs : list A) : list A :=
  take (j - i) (drop i xs).

End JS.

(** ** OrgResolver: [extractOrgName] *)

(** The two fields of a parsed URL that the code reads. *)
Record URL := {
  hostname : string;
  pathname : string
}.

(** The string handed to the URL constructor:
    [cleaned.startsWith("http") ? cleaned : `https://${cleaned}`]
    with [cleaned = url.trim().replace(/\/+$/, "")]. *)
Definition cleanUrl (url : string) : string :=
  JS.stripTrailingSlashes (JS.trim url).

Definition urlCandidate (url : string) : string :=
  let cleaned := cleanUrl url in
  if JS.startsWith cleaned "http" then cleaned else "https://" +:+ cleaned.

Section OrgResolver.

(** [new URL(s)]: [None] when the constructor throws. *)
Variable URL_parse : string -> option URL.

(** The [try]/[catch] turns a throwing constructor into [null]; every
    other step is total. [parts[0] || null] is [null] on an empty array
    (and on an empty first element, which [filter(Boolean)] excludes). *)
Definition extractOrgName (url : string) : option string :=
  match URL_parse (urlCandidate url) with
  | None => None
  | Some urlObj =>
      if negb (JS.includes (hostname urlObj) "github.com") then None
      else
        let parts := JS.filterBoolean (JS.split "/" (pathname urlObj)) in
        match parts with
        | p :: _ => if JS.is_empty p then None else Some p
        | [] => None
        end
  end.

End OrgResolver.

(** ** Thrown values and results of fallible calls *)

Inductive Thrown :=
| RequestError (status : option nat) (msg : string)
| TypeError (msg : string)
| NonError.

Inductive Res (A : Type) :=
| Ok (a : A)
| Throw (e : Thrown).
Arguments Ok {A} a.
Arguments Throw {A} e.

(** ** The remote API *)

Record RepoListItem := {
  name : string;
  html_url : string;
  fork : bool
}.

(** Of a commit the code reads [author?.login] and [commit?.author?.name];
    [None] is an absent (null or undefined) value. *)
Record Commit := {
  author_login : option string;
  commit_author_name : option string
}.

(** [listCommits] is called from two places, the commit counter and the
    contributor tally, at different times: the remote may answer them
    differently. *)
Inductive Phase := Counting | Tallying.

(** The answers of the remote during one company's analysis.
    [listForOrg org], [listForUser username] (both sorted by push date,
    30 per page) and [listCommits phase owner repo since page] (100 per
    page). *)
Record Remote := {
  listForOrg : string -> Res (list RepoListItem);
  listForUser : string -> Res (list RepoListItem);
  listCommits : Phase -> string -> string -> string -> nat -> Res (list Commit)
}.

(** [createOctokit]: the client holds the token; its throttling hooks only
    decide on retries inside the client and write log lines. *)
Record Octokit := { auth : string }.

Definition createOctokit (token : string) : Octokit := {| auth := token |}.

(** ** [src/lib/github.ts] *)

Definition MAX_COMMITS : nat := 500.
Definition MAX_PAGES : nat := 5.
Definition PER_PAGE : nat := 100.

(** The body of the [while (count < MAX_COMMITS)] loop of
    [getRepoCommitCount]: the pages requested so far are returned with
    the result. *)
Equations? countLoop (fetch : nat -> Res (list Commit)) (count page : nat)
  : list nat * Res nat by wf (MAX_COMMITS - count) lt :=
countLoop fetch count page with lt_dec count MAX_COMMITS := {
  | right _ => ([], Ok (Nat.min count MAX_COMMITS))
  | left Hlt with fetch page := {
    | Throw e => ([page], Throw e)
    | Ok data with Nat.eq_dec (length data) 0 := {
      | left _ => ([page], Ok (Nat.min count MAX_COMMITS))
      | right Hne with lt_dec (length data) PER_PAGE := {
        | left _ => ([page], Ok (Nat.min (count + length data) MAX_COMMITS))
        | right _ =>
            let r := countLoop fetch (count + length data) (S page) in
            (page :: fst r, snd r) } } } }.
Proof. unfold MAX_COMMITS in *. lia. Qed.

(** The map of author tallies: a JavaScript [Map] iterates in insertion
    order, and [set] on a present key keeps the key's position. *)
Definition AuthorCounts := list (string * nat).

Fixpoint Map_get (k : string) (m : AuthorCounts) : option nat :=
  match m with
  | [] => None
  | (k', v) :: m' => if String.eqb k k' then Some v else Map_get k m'
  end.

Fixpoint Map_set (k : string) (v : nat) (m : AuthorCounts) : AuthorCounts :=
  match m with
  | [] => [(k, v)]
  | (k', v') :: m' =>
      if String.eqb k k' then (k, v) :: m' else (k', v') :: Map_set k v m'
  end.

(** [a || b] on optional strings: absent and empty are falsy. *)
Definition truthy (o : option string) : bool :=
  match o with
  | Some s => negb (JS.is_empty s)
  | None => false
  end.

(** [commit.author?.login || commit.commit?.author?.name || "unknown"] *)
Definition authorKey (commit : Commit) : string :=
  if truthy (author_login commit) then default "" (author_login commit)
  else if truthy (commit_author_name commit)
       then default "" (commit_author_name commit)
       else "unknown".

(** [authorCounts.set(login, (authorCounts.get(login) || 0) + 1)] *)
Definition tallyCommit (authorCounts : AuthorCounts) (commit : Commit)
  : AuthorCounts :=
  let login := authorKey commit in
  Map_set login (default 0 (Map_get login authorCounts) + 1) authorCounts.

(** The [while (page <= MAX_PAGES)] loop of [getTopContributor]. *)
Equations? tallyLoop (fetch : nat -> Res (list Commit))
  (authorCounts : AuthorCounts) (page : nat)
  : Res AuthorCounts by wf (S MAX_PAGES - page) lt :=
tallyLoop fetch authorCounts page with le_dec page MAX_PAGES := {
  | right _ => Ok authorCounts
  | left Hle with fetch page := {
    | Throw e => Throw e
    | Ok data with Nat.eq_dec (length data) 0 := {
      | left _ => Ok authorCounts
      | right _ with lt_dec (length data) PER_PAGE := {
        | left _ => Ok (fold_left tallyCommit data authorCounts)
        | right _ =>
            tallyLoop fetch (fold_left tallyCommit data authorCounts)
              (S page) } } } }.
Proof. unfold MAX_PAGES in *. lia. Qed.

(** The selection loop: [topAuthor = "N/A"], [topCount = 0], and an entry
    replaces the current best only with a strictly greater count. *)
Definition pickTop (authorCounts : AuthorCounts) : string * nat :=
  fold_left
    (fun top entry => if snd top <? snd entry then entry else top)
    authorCounts ("N/A", 0).

Section Github.

Variable URL_parse : string -> option URL.

(** The remote as seen through a client during one analysis. *)
Variable api : Octokit -> Remote.

Definition listOrgRepos (octokit : Octokit) (orgName : string)
  : Res (list RepoListItem) :=
  match listForOrg (api octokit) orgName with
  | Ok data => Ok data
  | Throw err =>
      match err with
      | RequestError (Some 404) _ =>
          match listForUser (api octokit) orgName with
          | Ok data => Ok (filter (fun r => fork r = false) data)
          | Throw err' => Throw err'
          end
      | _ => Throw err
      end
  end.

Definition getRepoCommitCount_calls (octokit : Octokit)
  (owner repo since : string) : list nat * Res nat :=
  countLoop (listCommits (api octokit) Counting owner repo since) 0 1.

Definition getRepoCommitCount (octokit : Octokit)
  (owner repo since : string) : Res nat :=
  snd (getRepoCommitCount_calls octokit owner repo since).

Definition getTopContributor (octokit : Octokit)
  (owner repo since : string) : Res string :=
  match tallyLoop (listCommits (api octokit) Tallying owner repo since) [] 1 with
  | Throw e => Throw e
  | Ok authorCounts =>
      if length authorCounts =? 0 then Ok "N/A"
      else Ok (fst (pickTop authorCounts))
  end.

(** The result with every activity field at its sentinel. *)
Definition notApplicable (company : CompanyInput) (err : option string)
  : CompanyResult :=
  {| r_company_name := company_name company;
     r_github_org_url := github_org_url company;
     most_active_repo := "N/A";
     most_active_repo_url := "N/A";
     commit_count := 0;
     top_contributor := "N/A";
     error := err |}.

(** [Promise.all(repos.map(async (repo) => { try ... catch ... }))]: no
    inner promise rejects, and the array keeps the order of [repos]. *)
Definition countRepo (octokit : Octokit) (orgName since : string)
  (repo : RepoListItem) : RepoCommitData :=
  match getRepoCommitCount octokit orgName (name repo) since with
  | Ok commitCount =>
      {| repoName := name repo; repoUrl := html_url repo;
         commitCount := commitCount |}
  | Throw _ =>
      {| repoName := name repo; repoUrl := html_url repo; commitCount := 0 |}
  end.

(** The callback of the winner selection. *)
Definition moreActive (best current : RepoCommitData) : RepoCommitData :=
  if commitCount best <? commitCount current then current else best.

(** [analyzeCompany]: the messages passed to [onProgress], in order, and
    the value the promise settles with. *)
Definition analyzeCompany (octokit : Octokit) (company : CompanyInput)
  (since : string) : list string * Res CompanyResult :=
  match extractOrgName URL_parse (github_org_url company) with
  | None => ([], Ok (notApplicable company (Some "Invalid GitHub URL")))
  | Some orgName =>
    if JS.is_empty orgName
    then ([], Ok (notApplicable company (Some "Invalid GitHub URL")))
    else
    let log1 := ["Fetching repos for " +:+ orgName +:+ "..."] in
    match listOrgRepos octokit orgName with
    | Throw e => (log1, Throw e)
    | Ok repos =>
      if length repos =? 0
      then (log1, Ok (notApplicable company (Some "No repos found")))
      else
      let log2 :=
        log1 ++ ["Found " +:+ pretty (length repos) +:+ " repos for "
                 +:+ orgName +:+ ", counting commits..."] in
      let repoResults := map (countRepo octokit orgName since) repos in
      match JS.reduce moreActive repoResults with
      | None =>
          (log2, Throw (TypeError "Reduce of empty array with no initial value"))
      | Some mostActive =>
        if commitCount mostActive =? 0
        then (log2, Ok (notApplicable company None))
        else
        let log3 :=
          log2 ++ ["Most active: " +:+ repoName mostActive +:+ " ("
                   +:+ pretty (commitCount mostActive)
                   +:+ " commits). Finding top contributor..."] in
        match getTopContributor octokit orgName (repoName mostActive) since with
        | Throw e => (log3, Throw e)
        | Ok topContributor =>
            (log3,
             Ok {| r_company_name := company_name company;
                   r_github_org_url := github_org_url company;
                   most_active_repo := repoName mostActive;
                   most_active_repo_url := repoUrl mostActive;
                   commit_count := commitCount mostActive;
                   top_contributor := topContributor;
                   error := None |})
        end
      end
    end
  end.

End Github.

(** ** [src/app/api/analyze/route.ts] *)

Definition BATCH_SIZE : nat := 5.

(** What can be observed of a run: a call of [sendEvent], and the promise
    of the [k]-th entry of the current window settling. A write on a
    closed stream fails silently inside [sendEvent], so the stream a
    consumer receives is a prefix of the emitted one. *)
Inductive Action :=
| Emit (e : ProgressEvent)
| Settle (k : nat).

Definition emitted (trace : list Action) : list ProgressEvent :=
  omap (fun a => match a with Emit e => Some e | Settle _ => None end) trace.

Definition settled (trace : list Action) : list nat :=
  omap (fun a => match a with Settle k => Some k | Emit _ => None end) trace.

(** The tasks of a window run concurrently: [sched] names the task that
    takes the next step (names of finished tasks are skipped), and when it
    is exhausted the remaining tasks run to their end in input order,
    since [Promise.allSettled] waits for all of them. *)
Fixpoint interleave {A} (sched : list nat) (tasks : list (list A)) : list A :=
  match sched with
  | [] => concat tasks
  | k :: sched' =>
      match tasks !! k with
      | Some (step :: rest) => step :: interleave sched' (<[k := rest]> tasks)
      | _ => interleave sched' tasks
      end
  end.

(** The event of the first [sendEvent] of a task. *)
Definition analyzingEvent (company : CompanyInput) (completed total : nat)
  : ProgressEvent :=
  {| type := T_progress;
     company := Some (company_name company);
     message := "Analyzing " +:+ company_name company +:+ "...";
     result := None;
     completed := Some completed;
     total := Some total |}.

(** The event sent by the [onProgress] callback. *)
Definition callbackEvent (company : CompanyInput) (message : string)
  (completed total : nat) : ProgressEvent :=
  {| type := T_progress;
     company := Some (company_name company);
     message := "[" +:+ company_name company +:+ "] " +:+ message;
     result := None;
     completed := Some completed;
     total := Some total |}.

(** The event of a fulfilled entry. *)
Definition fulfilledEvent (value : CompanyResult) (completed total : nat)
  : ProgressEvent :=
  {| type := if truthy (error value) then T_error else T_result;
     company := Some (r_company_name value);
     message :=
       if truthy (error value)
       then r_company_name value +:+ ": " +:+ default "" (error value)
       else r_company_name value +:+ ": " +:+ most_active_repo value
            +:+ " (" +:+ pretty (commit_count value) +:+ " commits)";
     result := Some value;
     completed := Some completed;
     total := Some total |}.

(** [reason instanceof Error ? reason.message : "Unknown error"] *)
Definition errorMessageOf (reason : Thrown) : string :=
  match reason with
  | RequestError _ msg => msg
  | TypeError msg => msg
  | NonError => "Unknown error"
  end.

(** The event of a rejected entry; [k] is [results.indexOf(result)]. *)
Definition rejectedEvent (batch : list CompanyInput) (k : nat)
  (reason : Thrown) (completed total : nat) : ProgressEvent :=
  let errorMessage := errorMessageOf reason in
  let companyName := default "Unknown" (company_name <$> batch !! k) in
  {| type := T_error;
     company := Some companyName;
     message := companyName +:+ ": " +:+ errorMessage;
     result :=
       Some {| r_company_name := companyName;
               r_github_org_url := default "" (github_org_url <$> batch !! k);
               most_active_repo := "N/A";
               most_active_repo_url := "N/A";
               commit_count := 0;
               top_contributor := "N/A";
               error := Some errorMessage |};
     completed := Some completed;
     total := Some total |}.

(** [for (const result of results) { completed++; ... }]: the events sent
    and the final value of [completed]. The settled results are distinct
    objects, so [results.indexOf(result)] is the position [k] of the
    iteration. *)
Fixpoint reportLoop (batch : list CompanyInput)
  (results : list (Res CompanyResult)) (k completed total : nat)
  : list ProgressEvent * nat :=
  match results with
  | [] => ([], completed)
  | res :: rest =>
      let completed := S completed in
      let ev :=
        match res with
        | Ok value => fulfilledEvent value completed total
        | Throw reason => rejectedEvent batch k reason completed total
        end in
      let r := reportLoop batch rest (S k) completed total in
      (ev :: fst r, snd r)
  end.

Section Route.

Variable URL_parse : string -> option URL.

(** [net j] is the remote as the analysis of the [j]-th company of the
    input sees it. *)
Variable net : nat -> Octokit -> Remote.

(** [sched i] drives the interleaving of the window starting at [i]. *)
Variable sched : nat -> list nat.

(** The steps of the [k]-th task of a window after its first [sendEvent]:
    the events of its progress callbacks, then its settling. *)
Definition taskSteps (octokit : Octokit) (since : string)
  (i completed total k : nat) (company : CompanyInput) : list Action :=
  map (fun message => Emit (callbackEvent company message completed total))
      (fst (analyzeCompany URL_parse (net (i + k)) octokit company since))
  ++ [Settle k].

(** One window: [batch.map] starts every task, and each runs up to its
    first [await], which sends its first event; the tasks then interleave
    until all have settled; the results are reported in the order of
    [results], which is the order of [batch]. *)
Definition runWindow (octokit : Octokit) (since : string)
  (i completed total : nat) (batch : list CompanyInput)
  : list Action * nat :=
  let started :=
    map (fun company => Emit (analyzingEvent company completed total)) batch in
  let running :=
    interleave (sched i)
      (imap (taskSteps octokit since i completed total) batch) in
  let results :=
    imap (fun k company =>
            snd (analyzeCompany URL_parse (net (i + k)) octokit company since))
         batch in
  let reported := reportLoop batch results 0 completed total in
  (started ++ running ++ map Emit (fst reported), snd reported).

(** [for (let i = 0; i < companies.length; i += BATCH_SIZE)] *)
Equations? windowsLoop (octokit : Octokit) (since : string)
  (companies : list CompanyInput) (total i completed : nat)
  : list Action by wf (length companies - i) lt :=
windowsLoop octokit since companies total i completed
  with lt_dec i (length companies) := {
  | right _ => []
  | left _ =>
      let batch := JS.slice i (i + BATCH_SIZE) companies in
      let w := runWindow octokit since i completed total batch in
      fst w ++ windowsLoop octokit since companies total (i + BATCH_SIZE) (snd w) }.
Proof. unfold BATCH_SIZE. lia. Qed.

Definition doneEvent (total : nat) : ProgressEvent :=
  {| type := T_done;
     company := None;
     message := "Finished analyzing " +:+ pretty total +:+ " companies";
     result := None;
     completed := Some total;
     total := Some total |}.

(** [processCompanies]; [since] is the ISO instant thirty days before the
    request. *)
Definition processCompanies_trace (token since : string)
  (companies : list CompanyInput) : list Action :=
  let octokit := createOctokit token in
  let total := length companies in
  windowsLoop octokit since companies total 0 0
  ++ [Emit (doneEvent total)].

(** The emitted event stream. *)
Definition processCompanies (token since : string)
  (companies : list CompanyInput) : list ProgressEvent :=
  emitted (processCompanies_trace token since companies).

End Route.

(** ** The event stream on the wire and the request handler *)

Definition LF : ascii := ascii_of_nat 10.

(** '\n\n' *)
Definition blankLine : string := String LF (String LF EmptyString).

Section Wire.

(** [JSON.stringify] on events. *)
Variable JSON_stringify : ProgressEvent -> string.

(** The chunk that [sendEvent] hands to the writer:
    [`data: ${JSON.stringify(event)}\n\n`]. *)
Definition frame (event : ProgressEvent) : string :=
  "data: " +:+ JSON_stringify event +:+ blankLine.

End Wire.

(** A JSON value that the handler reads from the body, as far as the
    handler tells values apart: a value of the expected type, or anything
    else (undefined, null, a value of another type). The elements of a
    [companies] array are taken to be [CompanyInput] records: the
    handler does not look at them. *)
Inductive Field (A : Type) :=
| Given (a : A)
| Otherwise.
Arguments Given {A} a.
Arguments Otherwise {A}.

(** What [request.json()] yields: a rejection, the value [null], or a
    value on which the properties [companies] and [token] can be read
    (on a value that is not an object both are undefined). *)
Inductive RequestBody :=
| InvalidJson
| JsonNull
| JsonBody (companies : Field (list CompanyInput)) (token : Field string).

Inductive Response :=
| BadRequest (error : string)
| EventStream (events : list ProgressEvent).

Section Handler.

Variable URL_parse : string -> option URL.
Variable net : nat -> Octokit -> Remote.
Variable sched : nat -> list nat.

(** [POST]; [since] is the instant thirty days before the request. The
    destructuring of a [null] body throws outside of any [try]. *)
Definition POST (body : RequestBody) (since : string) : Res Response :=
  match body with
  | InvalidJson => Ok (BadRequest "Invalid JSON")
  | JsonNull =>
      Throw (TypeError
               "Cannot destructure property 'companies' of 'body' as it is null.")
  | JsonBody companies token =>
      match token with
      | Otherwise => Ok (BadRequest "GitHub token is required")
      | Given token =>
          if JS.is_empty token
          then Ok (BadRequest "GitHub token is required")
          else
            match companies with
            | Otherwise => Ok (BadRequest "Companies array is required")
            | Given companies =>
                if length companies =? 0
                then Ok (BadRequest "Companies array is required")
                else Ok (EventStream
                           (processCompanies URL_parse net sched token since
                              companies))
            end
      end
  end.

End Handler.

(** ** The client: [startAnalysis] *)

(** [s.split(sep)] for a separator of two characters [c1 c2]: the
    matches are found from the left and do not overlap. *)
Definition consHead (a : ascii) (parts : list string) : list string :=
  match parts with
  | h :: t => String a h :: t
  | [] => [String a EmptyString]
  end.

Fixpoint split2 (c1 c2 : ascii) (s : string) : list string :=
  match s with
  | EmptyString => [EmptyString]
  | String a s1 =>
      match s1 with
      | EmptyString => [s]
      | String b s2 =>
          if Ascii.eqb a c1 && Ascii.eqb b c2
          then EmptyString :: split2 c1 c2 s2
          else consHead a (split2 c1 c2 s1)
      end
  end.

(** [s.slice(n)] for [n >= 0]. *)
Fixpoint sliceFrom (n : nat) (s : string) : string :=
  match n, s with
  | 0, _ => s
  | S n', String _ s' => sliceFrom n' s'
  | S _, EmptyString => EmptyString
  end.

(** The part of the page's state that the analysis writes. *)
Record Page := {
  logs : list string;
  progress : nat * nat;
  results : list CompanyResult;
  isAnalyzing : bool
}.

Section Client.

(** [JSON.parse] on the text of an event: [None] when it throws. *)
Variable JSON_parse : string -> option ProgressEvent.

(** [new Date().toLocaleTimeString()] at the time the log has [k]
    lines. *)
Variable timeString : nat -> string.

(** [addLog] *)
Definition addLog (page : Page) (message : string) : Page :=
  {| logs :=
       logs page
       ++ ["[" +:+ timeString (length (logs page)) +:+ "] " +:+ message];
     progress := progress page;
     results := results page;
     isAnalyzing := isAnalyzing page |}.

(** The body of the [try] for one parsed event. *)
Definition handleEvent (page : Page) (event : ProgressEvent) : Page :=
  let page :=
    if JS.is_empty (message event) then page
    else addLog page (message event) in
  let page :=
    match completed event, total event with
    | Some completed, Some total =>
        {| logs := logs page;
           progress := (completed, total);
           results := results page;
           isAnalyzing := isAnalyzing page |}
    | _, _ => page
    end in
  let page :=
    match type event, result event with
    | T_result, Some r | T_error, Some r =>
        {| logs := logs page;
           progress := progress page;
           results := results page ++ [r];
           isAnalyzing := isAnalyzing page |}
    | _, _ => page
    end in
  match type event with
  | T_done => addLog page "Analysis complete!"
  | _ => page
  end.

(** The body of [for (const line of lines)]: a line that does not start
    with ["data: "] is skipped, and so is one whose text does not
    parse. *)
Definition handleLine (page : Page) (line : string) : Page :=
  let dataLine := JS.trim line in
  if negb (JS.startsWith dataLine "data: ") then page
  else
    match JSON_parse (sliceFrom 6 dataLine) with
    | None => page
    | Some event => handleEvent page event
    end.

(** One turn of the [while (true)] loop on a chunk that the reader
    yields, already decoded: the state is the buffer and the page. *)
Definition readChunk (state : string * Page) (chunk : string)
  : string * Page :=
  let buffer := state.1 +:+ chunk in
  let lines := split2 LF LF buffer in
  (List.last lines EmptyString,
   fold_left handleLine (List.removelast lines) state.2).

(** The loop, until the reader is done. *)
Definition readLoop (chunks : list string) (page : Page) : string * Page :=
  fold_left readChunk chunks (EmptyString, page).

(** The server as the client reaches it, and the chunks in which the
    frames written for a stream of events arrive. *)
Variable respond : RequestBody -> Res Response.
Variable receive : list ProgressEvent -> list string.

(** The message of the error thrown when the response is not ok and its
    body is not the handler's: the platform's. *)
Variable platformError : string.

(** [startAnalysis], without cancellation: the page afterwards and the
    alert shown, if any. The request body is the JSON text of
    [{ companies, token: token.trim() }], which the server reads back as
    such. *)
Definition startAnalysis (token : string) (companies : list CompanyInput)
  (page : Page) : Page * option string :=
  if JS.is_empty (JS.trim token)
  then (page, Some "Please enter your GitHub token.")
  else if length companies =? 0
  then (page, Some "Please upload a CSV file first.")
  else
    let page :=
      {| logs := [];
         progress := (0, length companies);
         results := [];
         isAnalyzing := true |} in
    let page :=
      addLog page
        ("Starting analysis of " +:+ pretty (length companies)
         +:+ " companies...") in
    let finally (page : Page) :=
      {| logs := logs page;
         progress := progress page;
         results := results page;
         isAnalyzing := false |} in
    let failed (msg : string) :=
      (finally (addLog page ("Error: " +:+ msg)),
       Some ("Analysis failed: " +:+ msg)) in
    match respond (JsonBody (Given companies) (Given (JS.trim token))) with
    | Throw _ => failed platformError
    | Ok (BadRequest err) =>
        failed (if JS.is_empty err then "HTTP 400" else err)
    | Ok (EventStream events) =>
        (finally (readLoop (receive events) page).2, None)
    end.

End Client.

(** ** The upload form (client, [handleFileUpload]) *)

Definition DQ : string := String (ascii_of_nat 34) EmptyString.

(** [xs.join(sep)] *)
Fixpoint Array_join (sep : string) (xs : list string) : string :=
  match xs with
  | [] => EmptyString
  | x :: rest =>
      match rest with
      | [] => x
      | _ :: _ => x +:+ sep +:+ Array_join sep rest
      end
  end.

(** A row that [Papa.parse] yields with [header: true]: the entries of
    the row object, in the order of [Object.entries]. *)
Definition Row : Type := list (string * string).

(** What [Papa.parse] hands to its callbacks: an error for [error], or
    [result.meta.fields] and [result.data] for [complete]. *)
Inductive Parsed :=
| ParseError (message : string)
| Complete (fields : option (list string)) (data : list Row).

(** The state that the upload touches: [companies] and [fileName]. *)
Record Form := {
  f_companies : list CompanyInput;
  f_fileName : string
}.

Section Upload.

(** [String.prototype.toLowerCase] *)
Variable toLowerCase : string -> string.

(** [key.toLowerCase().trim()] *)
Definition normalizedKey (key : string) : string :=
  JS.trim (toLowerCase key).

(** [normalized[name]] after the loop over [Object.entries(row)]: the
    value of the last entry whose normalized key is [name]. *)
Definition normalized (row : Row) (name : string) : option string :=
  fold_left
    (fun found entry =>
       if String.eqb (normalizedKey entry.1) name then Some entry.2
       else found)
    row None.

(** [v?.trim() || ""] *)
Definition trimmedOrEmpty (v : option string) : string :=
  match v with
  | Some s => JS.trim s
  | None => EmptyString
  end.

(** The callback of [result.data.map]. *)
Definition toCompany (row : Row) : CompanyInput :=
  {| company_name := trimmedOrEmpty (normalized row "company_name");
     github_org_url := trimmedOrEmpty (normalized row "github_org_url") |}.

(** [result.data.map(...).filter((c) => c.company_name && c.github_org_url)] *)
Definition parsedCompanies (data : list Row) : list CompanyInput :=
  List.filter
    (fun c => negb (JS.is_empty (company_name c))
              && negb (JS.is_empty (github_org_url c)))
    (toCompany <$> data).

(** [headers.some((h) => h.toLowerCase().trim() === column)] *)
Definition hasColumn (headers : list string) (column : string) : bool :=
  existsb (fun h => String.eqb (normalizedKey h) column) headers.

(** [handleFileUpload] on the chosen file, if any, given by its name and
    what the parser reports for it: the form afterwards, the alert shown
    and the message logged, if any. *)
Definition handleFileUpload (file : option (string * Parsed)) (form : Form)
  : Form * option string * option string :=
  match file with
  | None => (form, None, None)
  | Some (name, ParseError message) =>
      ({| f_companies := f_companies form; f_fileName := name |},
       Some ("Error parsing CSV: " +:+ message), None)
  | Some (name, Complete fields data) =>
      let headers := default [] fields in
      let cleared := {| f_companies := []; f_fileName := EmptyString |} in
      if negb (hasColumn headers "company_name")
         || negb (hasColumn headers "github_org_url")
      then
        (cleared,
         Some ("CSV must have " +:+ DQ +:+ "company_name" +:+ DQ +:+ " and "
               +:+ DQ +:+ "github_org_url" +:+ DQ +:+ " columns."
               +:+ String LF "Found columns: " +:+ Array_join ", " headers),
         None)
      else
        let parsed := parsedCompanies data in
        if length parsed =? 0
        then (cleared, Some "No valid rows found in CSV.", None)
        else
          ({| f_companies := parsed; f_fileName := name |}, None,
           Some ("Loaded " +:+ pretty (length parsed) +:+ " companies from "
                 +:+ name))
  end.

End Upload.

(** ** Vocabulary of the statements *)

Fixpoint all_chars (p : ascii -> bool) (s : string) : bool :=
  match s with
  | EmptyString => true
  | String c s' => p c && all_chars p s'
  end.

Fixpoint last_char (s : string) : option ascii :=
  match s with
  | EmptyString => None
  | String c EmptyString => Some c
  | String _ s' => last_char s'
  end.

Definition first_char (s : string) : option ascii :=
  match s with
  | EmptyString => None
  | String c _ => Some c
  end.

Fixpoint slashes (k : nat) : string :=
  match k with
  | 0 => EmptyString
  | S k' => String "/" (slashes k')
  end.

(** A text made of sequences of [seqs] only. *)
Inductive madeOf (seqs : list string) : string -> Prop :=
| madeOf_nil : madeOf seqs EmptyString
| madeOf_cons (w l : string) :
    w ∈ seqs -> madeOf seqs l -> madeOf seqs (w +:+ l).

(** [s] starts, or ends, with a white space character. *)
Definition startsWhite (s : string) : Prop :=
  exists w rest, w ∈ JS.whiteSpace /\ s = w +:+ rest.

Definition endsWhite (s : string) : Prop :=
  exists w front, w ∈ JS.whiteSpace /\ s = front +:+ w.

(** The visible ASCII characters: none of them is a byte of white
    space. *)
Definition printable (c : ascii) : bool :=
  (32 <? nat_of_ascii c) && (nat_of_ascii c <? 127).

(** [sub] occurs in [s]. *)
Definition occurs_in (sub s : string) : Prop :=
  exists l r, s = l +:+ sub +:+ r.

(** A path segment: non-empty and free of slashes. *)
Definition is_segment (seg : string) : Prop :=
  seg <> EmptyString /\ all_chars (fun c => negb (JS.is_slash c)) seg = true.

(** [seg] is the first non-empty segment of [path]: only slashes come
    before it, and it extends to the next slash or to the end. *)
Definition first_segment (path seg : string) : Prop :=
  exists k rest,
    path = slashes k +:+ seg +:+ rest /\ is_segment seg /\
    (rest = EmptyString \/ first_char rest = Some "/"%char).

(** Follows the spec's words: a string has a scheme when it starts with a
    letter, continues with letters, digits, [+], [-] or [.], and reaches
    a colon (RFC 3986, section 3.1). *)
Definition is_alpha (c : ascii) : bool :=
  let n := nat_of_ascii c in
  ((65 <=? n) && (n <=? 90)) || ((97 <=? n) && (n <=? 122)).

Definition is_scheme_char (c : ascii) : bool :=
  let n := nat_of_ascii c in
  is_alpha c || ((48 <=? n) && (n <=? 57))
  || (n =? 43) || (n =? 45) || (n =? 46).

Fixpoint scheme_tail (s : string) : bool :=
  match s with
  | EmptyString => false
  | String c s' =>
      if Ascii.eqb c ":" then true
      else if is_scheme_char c then scheme_tail s' else false
  end.

Definition has_scheme (s : string) : bool :=
  match s with
  | EmptyString => false
  | String c s' => is_alpha c && scheme_tail s'
  end.

(** ** A small world for examples

    [sample_URL_parse] is an instance of the parser parameter that accepts
    [scheme://host] and [scheme://host/path] and rejects a string without
    [://], as the platform's parser rejects a string without a scheme. *)

Fixpoint after_separator (s : string) : option string :=
  match s with
  | EmptyString => None
  | String c s' =>
      if String.prefix "://" s
      then Some (String.substring 3 (String.length s - 3) s)
      else after_separator s'
  end.

Fixpoint until_slash (s : string) : string :=
  match s with
  | EmptyString => EmptyString
  | String c s' => if JS.is_slash c then EmptyString else String c (until_slash s')
  end.

Definition sample_URL_parse (s : string) : option URL :=
  match s with
  | EmptyString => None
  | String c _ =>
      if is_alpha c then
        match after_separator s with
        | None => None
        | Some rest =>
            let host := until_slash rest in
            let path := JS.dropStart (fun c => negb (JS.is_slash c)) rest in
            if JS.is_empty host then None
            else Some {| hostname := host;
                         pathname := if JS.is_empty path then "/" else path |}
        end
      else None
  end.

(** The number of commits on the [n] pages starting at page [page]. *)
Definition pagesTotal (pages : nat -> list Commit) (page n : nat) : nat :=
  sum_list_with (fun p => length (pages p)) (seq page n).

(** A remote that serves a fixed list of commits in pages of [PER_PAGE],
    numbered from 1. *)
Definition paginate (commits : list Commit) (page : nat) : list Commit :=
  take PER_PAGE (drop (PER_PAGE * (page - 1)) commits).

(** The commits on the [n] pages starting at page [page], in order. *)
Definition pagesConcat (pages : nat -> list Commit) (page n : nat)
  : list Commit :=
  concat (pages <$> seq page n).

(** The number of commits of [author] among the author keys [keys]. *)
Definition tallyOf (author : string) (keys : list string) : nat :=
  length (filter (fun k => k = author) keys).

(** [a] is seen in the stream before any occurrence of [b]. *)
Definition seenBefore (a b : string) (keys : list string) : Prop :=
  exists l r, keys = l ++ a :: r /\ b ∉ l.

(** A terminal event: a ["result"] or an ["error"] event. *)
Definition terminal (ev : ProgressEvent) : Prop :=
  type ev = T_result \/ type ev = T_error.

Global Instance terminal_dec ev : Decision (terminal ev).
Proof. unfold terminal. apply _. Defined.

(** [ev] is the terminal event of the input [c]: it names the company and
    carries a result for it. *)
Definition terminalFor (c : CompanyInput) (ev : ProgressEvent) : Prop :=
  terminal ev /\ company ev = Some (company_name c) /\
  exists r, result ev = Some r /\
    r_company_name r = company_name c /\
    r_github_org_url r = github_org_url c.

(** The values of [completed] along a stream do not decrease. *)
Definition monotone (evs : list ProgressEvent) : Prop :=
  forall i j ei ej x y, i <= j ->
    evs !! i = Some ei -> evs !! j = Some ej ->
    completed ei = Some x -> completed ej = Some y ->
    x <= y.

(** A progress event sent while the counter is at [c]. *)
Definition progressAt (c tot : nat) (ev : ProgressEvent) : Prop :=
  type ev = T_progress /\ completed ev = Some c /\ total ev = Some tot.

(** Two remotes give the same answers. *)
Definition Remote_agree (R1 R2 : Remote) : Prop :=
  (forall org, listForOrg R1 org = listForOrg R2 org) /\
  (forall username, listForUser R1 username = listForUser R2 username) /\
  (forall phase owner repo since page,
     listCommits R1 phase owner repo since page
     = listCommits R2 phase owner repo since page).

(** An event of a run that has [n] inputs left with the counter at [c]:
    not a ["done"] event; it carries the batch size and a counter between
    [c] and [c + n], below the upper end on a progress event. *)
Definition eventInRange (tot c n : nat) (ev : ProgressEvent) : Prop :=
  type ev <> T_done /\ total ev = Some tot /\
  exists x, completed ev = Some x /\ c <= x <= c + n /\
    (type ev = T_progress -> x < c + n).

(** What the scheduler emits for the inputs [cs] when it starts with the
    counter at [c]: events in range, counters that do not decrease, and
    as terminal events those of [cs], in order, the [j]-th with the
    counter at [c + j + 1]. *)
Definition streamInv (cs : list CompanyInput) (tot c : nat)
  (evs : list ProgressEvent) : Prop :=
  Forall (eventInRange tot c (length cs)) evs /\
  monotone evs /\
  length (filter terminal evs) = length cs /\
  forall j ev, filter terminal evs !! j = Some ev ->
    exists c', cs !! j = Some c' /\ terminalFor c' ev /\
      completed ev = Some (c + j + 1).

(** The text made of the chunks [chunks], in order. *)
Definition joined (chunks : list string) : string :=
  fold_right String.append EmptyString chunks.

(** What the client relies on in the JSON text of an event: it parses
    back to the event, it holds no line feed ([JSON.stringify] escapes
    them in strings and adds no white space), and it ends with the
    closing brace of the object. *)
Definition wellEncoded (JSON_stringify : ProgressEvent -> string)
  (JSON_parse : string -> option ProgressEvent) (e : ProgressEvent) : Prop :=
  JSON_parse (JSON_stringify e) = Some e /\
  all_chars (fun c => negb (Ascii.eqb c LF)) (JSON_stringify e) = true /\
  last_char (JSON_stringify e) = Some "}"%char.

(** The results that the client collects from a stream of events. *)
Definition collected (events : list ProgressEvent) : list CompanyResult :=
  omap (fun ev =>
          match type ev, result ev with
          | T_result, Some r | T_error, Some r => Some r
          | _, _ => None
          end) events.

(** A sample remote: the organisation [acme] has the repositories [x]
    (3 commits in the window), [y] (10 commits) and [z] (its commit
    listing fails); [idle] has two repositories without commits; [empty]
    has none; the user [solo] has one repository and a fork; any other
    name is unknown. *)
Definition commitBy (login : string) : Commit :=
  {| author_login := Some login; commit_author_name := None |}.

Definition sample_repo (org repo : string) (is_fork : bool) : RepoListItem :=
  {| name := repo;
     html_url := "https://github.com/" +:+ org +:+ "/" +:+ repo;
     fork := is_fork |}.

Definition notFound {A} : Res A := Throw (RequestError (Some 404) "Not Found").

Definition y_commits : list Commit :=
  map commitBy
    ["bob"; "alice"; "alice"; "bob"; "carol"; "alice"; "bob"; "alice"; "bob";
     "carol"].

Definition sample_remote : Remote :=
  {| listForOrg org :=
       if String.eqb org "acme"
       then Ok [sample_repo "acme" "x" false; sample_repo "acme" "y" false;
                sample_repo "acme" "z" false]
       else if String.eqb org "idle"
       then Ok [sample_repo "idle" "a" false; sample_repo "idle" "b" false]
       else if String.eqb org "empty" then Ok []
       else notFound;
     listForUser username :=
       if String.eqb username "solo"
       then Ok [sample_repo "solo" "fork" true; sample_repo "solo" "own" false]
       else notFound;
     listCommits phase owner repo since page :=
       if String.eqb repo "x"
       then Ok (if page =? 1 then replicate 3 (commitBy "dave") else [])
       else if String.eqb repo "y"
       then Ok (if page =? 1 then y_commits else [])
       else if String.eqb repo "z"
       then Throw (RequestError (Some 502) "Bad Gateway")
       else if String.eqb repo "own"
       then Ok (if page <=? 6 then replicate 100 (commitBy "solo") else [])
       else Ok [] |}.

Definition sample_api (octokit : Octokit) : Remote := sample_remote.

Definition sample_company (company_name org : string) : CompanyInput :=
  {| company_name := company_name;
     github_org_url := "https://github.com/" +:+ org |}.

(** A remote with one repository per organisation, whose commit listing
    serves the list [commits] page by page. *)
Definition paged_remote (commits : list Commit) : Remote :=
  {| listForOrg org := Ok [sample_repo org "main" false];
     listForUser username := notFound;
     listCommits phase owner repo since page := Ok (paginate commits page) |}.

Definition paged_api (commits : list Commit) (octokit : Octokit) : Remote :=
  paged_remote commits.

(** 560 commits: ten by [bob], [alice] and [carol], then 550 by [erin]. *)
Definition many_commits : list Commit :=
  y_commits ++ replicate 550 (commitBy "erin").

(** The sample remote, except that the contributor listing of [x], which
    is not the most active repository of [acme], fails. *)
Definition sample_remote_alt : Remote :=
  {| listForOrg := listForOrg sample_remote;
     listForUser := listForUser sample_remote;
     listCommits phase owner repo since page :=
       match phase with
       | Counting => listCommits sample_remote Counting owner repo since page
       | Tallying =>
           if String.eqb repo "x"
           then Throw (RequestError (Some 500) "Internal Server Error")
           else listCommits sample_remote Tallying owner repo since page
       end |}.

Definition sample_api_alt (octokit : Octokit) : Remote := sample_remote_alt.

(** A run of the sample world and a JSON codec for its events: the text
    of the [i]-th event of the run is [{i}]. *)
Global Instance CompanyResult_eq_dec : EqDecision CompanyResult.
Proof. solve_decision. Defined.

Global Instance ProgressEvent_eq_dec : EqDecision ProgressEvent.
Proof. solve_decision. Defined.

Definition sample_inputs : list CompanyInput :=
  [sample_company "Acme" "acme";
   {| company_name := "B"; github_org_url := "nonsense" |}].

Definition sample_events : list ProgressEvent :=
  processCompanies sample_URL_parse (fun _ => sample_api) (fun _ => [0; 1])
    "ghp_token" "2024-01-01T00:00:00.000Z" sample_inputs.

Definition sample_stringify (e : ProgressEvent) : string :=
  "{"
  +:+ pretty (default (length sample_events)
                (fst <$> list_find (fun x => x = e) sample_events))
  +:+ "}".

Definition sample_parse (s : string) : option ProgressEvent :=
  snd <$> list_find (fun e => sample_stringify e = s) sample_events.

(** The frames of the sample run, cut in the middle of a frame and in
    the middle of a blank line. *)
Definition sample_chunks (events : list ProgressEvent) : list string :=
  let text := joined (frame sample_stringify <$> events) in
  [String.substring 0 10 text;
   String.substring 10 (String.length text - 10) text].

(** ** Loop specifications

    What the counting loop has done when it stops, from any state: it requested
    [n] consecutive pages; it requested each of them with the running
    total below the cap and, but for the last, found it full; and it
    stopped on a short page or on reaching the cap. *)
Definition countLoop_post (pages : nat -> list Commit) (count page : nat)
  (r : list nat * Res nat) : Prop :=
  exists n,
    r.1 = seq page n /\
    r.2 = Ok (Nat.min (count + pagesTotal pages page n) MAX_COMMITS) /\
    (forall j, j < n -> count + pagesTotal pages page j < MAX_COMMITS) /\
    (forall j, S j < n -> PER_PAGE <= length (pages (page + j))) /\
    (n = 0 -> MAX_COMMITS <= count) /\
    (0 < n ->
     length (pages (page + (n - 1))) < PER_PAGE \/
     MAX_COMMITS <= count + pagesTotal pages page n).

(** [tallyCommit] on the author key of the commit. *)
Definition tallyKey (m : AuthorCounts) (k : string) : AuthorCounts :=
  Map_set k (default 0 (Map_get k m) + 1) m.

(** The state of the map after a stream [ks]: its keys are distinct, each
    entry holds the number of occurrences of its key, every key of the
    stream has an entry, and an entry placed before another was first
    seen before it. *)
Definition tally_inv (ks : list string) (m : AuthorCounts) : Prop :=
  NoDup m.*1 /\
  (forall k v, (k, v) ∈ m -> v = tallyOf k ks /\ 0 < v) /\
  (forall k, k ∈ ks -> k ∈ m.*1) /\
  (forall m1 a v m2 b,
     m = m1 ++ (a, v) :: m2 -> b ∈ m2.*1 -> seenBefore a b ks).

(** What the tallying loop has done when it stops, from any state: it
    tallied the commits of [n] consecutive pages, all but the last of
    them full, and stopped on a short page or past page [MAX_PAGES]. *)
Definition tallyLoop_post (pages : nat -> list Commit)
  (authorCounts : AuthorCounts) (page : nat) (r : Res AuthorCounts) : Prop :=
  exists n,
    r = Ok (fold_left tallyCommit (pagesConcat pages page n) authorCounts) /\
    (forall j, S j < n -> PER_PAGE <= length (pages (page + j))) /\
    (n = 0 -> MAX_PAGES < page) /\
    (0 < n -> page + n <= S MAX_PAGES /\
       (page + n = S MAX_PAGES \/ length (pages (page + (n - 1))) < PER_PAGE)).

(** Relates the answer found by the loop to the page oracle. *)
Ltac fetched Hfetch :=
  match goal with
  | H : ?f ?p = Throw _ |- _ => rewrite Hfetch in H; discriminate H
  | H : ?f ?p = Ok ?d |- _ =>
      rewrite Hfetch in H; injection H as H; subst d
  end.

(** Replays on the goal the case analysis recorded by [funelim]. *)
Ltac replay Hfg :=
  repeat match goal with
         | E : lt_dec _ _ = _ |- _ => rewrite E; clear E; simpl
         | E : le_dec _ _ = _ |- _ => rewrite E; clear E; simpl
         | E : Nat.eq_dec _ _ = _ |- _ => rewrite E; clear E; simpl
         | E : _ _ = Ok _ |- _ => rewrite <- Hfg, E; clear E; simpl
         | E : _ _ = Throw _ |- _ => rewrite <- Hfg, E; clear E; simpl
         end.

(** * Properties *)

Local Arguments String.append !_ _ : simpl nomatch.

(** ** Strings *)

Lemma append_empty_r (s : string) : s +:+ EmptyString = s.
Proof. induction s as [|c s IH]; simpl; [done | by rewrite IH]. Qed.

Lemma append_assoc (a b c : string) : (a +:+ b) +:+ c = a +:+ b +:+ c.
Proof. induction a as [|x a IH]; simpl; [done | by rewrite IH]. Qed.

Lemma is_empty_true (s : string) : JS.is_empty s = true <-> s = EmptyString.
Proof. destruct s; simpl; split; congruence. Qed.

Lemma prefix_occurs (p s : string) :
  String.prefix p s = true <-> exists r, s = p +:+ r.
Proof.
  revert s. induction p as [|c p IH]; intros s.
  - destruct s; simpl; split; eauto.
  - destruct s as [|d s]; simpl.
    + split; [done | intros [r Hr]; done].
    + destruct (ascii_dec c d) as [->|Hne].
      * rewrite IH. split; intros [r Hr]; exists r; congruence.
      * split; [done | intros [r Hr]; congruence].
Qed.

Lemma includes_occurs (s sub : string) :
  JS.includes s sub = true <-> occurs_in sub s.
Proof.
  unfold occurs_in. induction s as [|c s IH].
  - cbn [JS.includes]. rewrite orb_false_r, prefix_occurs. split.
    + intros [r Hr]. by exists EmptyString, r.
    + intros ([|x l] & r & Hr); simpl in Hr; [eauto | done].
  - cbn [JS.includes]. rewrite orb_true_iff, IH, prefix_occurs. split.
    + intros [[r Hr] | (l & r & Hr)].
      * by exists EmptyString, r.
      * exists (String c l), r. simpl. by rewrite Hr.
    + intros ([|x l] & r & Hr); simpl in Hr.
      * left. eauto.
      * right. exists l, r. congruence.
Qed.

Lemma dropStart_spec (p : ascii -> bool) (s : string) :
  exists l, s = l +:+ JS.dropStart p s /\ all_chars p l = true /\
            forall c, first_char (JS.dropStart p s) = Some c -> p c = false.
Proof.
  induction s as [|c s (l & Hl & Hall & Hfirst)]; simpl.
  - exists EmptyString. split_and!; (done || (intros; discriminate)).
  - destruct (p c) eqn:Hc.
    + exists (String c l). simpl. rewrite Hc, Hall, <- Hl. split_and!; (done || (intros; discriminate)).
    + exists EmptyString. simpl. split_and!; [done | done |].
      intros ? [= <-]. done.
Qed.

Lemma dropEnd_spec (p : ascii -> bool) (s : string) :
  exists r, s = JS.dropEnd p s +:+ r /\ all_chars p r = true /\
            forall c, last_char (JS.dropEnd p s) = Some c -> p c = false.
Proof.
  induction s as [|c s (r & Hr & Hall & Hlast)]; simpl.
  - exists EmptyString. split_and!; (done || (intros; discriminate)).
  - destruct (JS.dropEnd p s) as [|d s'] eqn:Hd; simpl in *.
    + rewrite andb_true_r. destruct (p c) eqn:Hc.
      * exists (String c r). simpl. subst r. rewrite Hc, Hall. split_and!; (done || (intros; discriminate)).
      * exists r. simpl. subst r. split_and!; [done | done |].
        intros ? [= <-]. done.
    + rewrite andb_false_r. exists r. simpl. rewrite <- Hr.
      split_and!; (done || (intros; discriminate)).
Qed.

Lemma dropEnd_first (p : ascii -> bool) (s : string) c :
  first_char (JS.dropEnd p s) = Some c -> first_char s = Some c.
Proof.
  destruct s as [|d s]; simpl; [done|].
  destruct (p d && JS.is_empty (JS.dropEnd p s)); simpl; done.
Qed.

Lemma all_chars_slashes (s : string) :
  all_chars JS.is_slash s = true <-> exists k, s = slashes k.
Proof.
  induction s as [|c s IH]; simpl.
  - split; [by exists 0 | done].
  - rewrite andb_true_iff, IH. unfold JS.is_slash. split.
    + intros [Hc [k ->]]. apply Ascii.eqb_eq in Hc as ->. by exists (S k).
    + intros [[|k] Hk]; simpl in Hk; [done|]. injection Hk as -> ->.
      split; [done | eauto].
Qed.

(** ** [split] and the first segment *)

Lemma split_cons (c : ascii) (s : string) : exists h t, JS.split c s = h :: t.
Proof.
  induction s as [|a s (h & t & IH)]; simpl; [eauto|].
  destruct (Ascii.eqb a c); [eauto|]. rewrite IH. eauto.
Qed.

Lemma split_head (s h : string) (t : list string) :
  JS.split "/" s = h :: t ->
  exists rest, s = h +:+ rest /\
    all_chars (fun c => negb (JS.is_slash c)) h = true /\
    (rest = EmptyString \/ first_char rest = Some "/"%char).
Proof.
  revert h t. induction s as [|a s IH]; intros h t; simpl.
  - intros [= <- <-]. exists EmptyString. eauto.
  - destruct (Ascii.eqb a "/") eqn:Ha.
    + intros [= <- <-]. apply Ascii.eqb_eq in Ha as ->.
      exists (String "/" s). simpl. eauto.
    + destruct (split_cons "/" s) as (h' & t' & Hs). rewrite Hs.
      intros [= <- <-]. destruct (IH _ _ Hs) as (rest & -> & Hall & Hrest).
      exists rest. simpl. unfold JS.is_slash at 1. rewrite Ha. simpl. eauto.
Qed.

Lemma first_part_spec (path : string) :
  match JS.filterBoolean (JS.split "/" path) with
  | seg :: _ => first_segment path seg
  | [] => exists k, path = slashes k
  end.
Proof.
  induction path as [|a s IH].
  - simpl. by exists 0.
  - cbn [JS.split]. destruct (Ascii.eqb a "/") eqn:Ha.
    + apply Ascii.eqb_eq in Ha as ->. unfold JS.filterBoolean in *.
      rewrite filter_cons_False by (simpl; congruence).
      destruct (filter _ (JS.split "/" s)) as [|seg segs].
      * destruct IH as [k ->]. by exists (S k).
      * destruct IH as (k & rest & -> & Hseg & Hrest).
        exists (S k), rest. split_and!; [done | exact Hseg | exact Hrest].
    + destruct (split_cons "/" s) as (h & t & Hs). rewrite Hs.
      destruct (split_head _ _ _ Hs) as (rest & -> & Hall & Hrest).
      unfold JS.filterBoolean. rewrite filter_cons_True by done.
      exists 0, rest. split_and!; [done | | exact Hrest].
      split; [done|]. simpl. unfold JS.is_slash at 1. by rewrite Ha.
Qed.

Lemma dropStart_slashes (k : nat) (s : string) :
  JS.dropStart JS.is_slash (slashes k +:+ s) = JS.dropStart JS.is_slash s.
Proof. induction k as [|k IH]; simpl; done. Qed.

Lemma until_slash_segment (seg rest : string) :
  all_chars (fun c => negb (JS.is_slash c)) seg = true ->
  rest = EmptyString \/ first_char rest = Some "/"%char ->
  until_slash (seg +:+ rest) = seg.
Proof.
  intros Hseg Hrest. induction seg as [|c seg IH]; simpl in *.
  - destruct Hrest as [-> | Hrest]; [done|].
    destruct rest as [|d rest]; simpl in *; [done|]. by injection Hrest as ->.
  - apply andb_true_iff in Hseg as [Hc Hseg].
    apply negb_true_iff in Hc. rewrite Hc, IH; done.
Qed.

(** The first segment, as a function of the path. *)
Lemma first_segment_eq (path seg : string) :
  first_segment path seg ->
  seg = until_slash (JS.dropStart JS.is_slash path).
Proof.
  intros (k & rest & -> & [Hne Hall] & Hrest).
  rewrite dropStart_slashes.
  destruct seg as [|c seg]; [done|]. simpl in Hall |- *.
  apply andb_true_iff in Hall as [Hc Hall]. apply negb_true_iff in Hc.
  rewrite Hc. simpl. rewrite Hc. by rewrite until_slash_segment.
Qed.

Lemma first_segment_unique (path s1 s2 : string) :
  first_segment path s1 -> first_segment path s2 -> s1 = s2.
Proof.
  intros H1 H2. apply first_segment_eq in H1, H2. congruence.
Qed.

Lemma first_segment_slashes (k : nat) (seg : string) :
  ~ first_segment (slashes k) seg.
Proof.
  intros H. pose proof (first_segment_eq _ _ H) as Heq.
  destruct H as (_ & _ & _ & [Hne _] & _).
  replace (slashes k) with (slashes k +:+ EmptyString) in Heq
    by apply append_empty_r.
  rewrite dropStart_slashes in Heq. done.
Qed.

(** ** White space and [trim] *)

Lemma length_append (a b : string) :
  String.length (a +:+ b) = String.length a + String.length b.
Proof. induction a as [|c a IH]; simpl; [done | by rewrite IH]. Qed.

Lemma stripPrefix_spec (p s r : string) :
  JS.stripPrefix p s = Some r <-> s = p +:+ r.
Proof.
  revert s. induction p as [|a p IH]; intros [|b s]; simpl.
  - split; congruence.
  - split; congruence.
  - split; intros H; discriminate H.
  - destruct (Ascii.eqb a b) eqn:Hab.
    + apply Ascii.eqb_eq in Hab as ->. rewrite IH. split; congruence.
    + apply Ascii.eqb_neq in Hab. split; [done | congruence].
Qed.

Lemma stripAny_Some (seqs : list string) (s r : string) :
  JS.stripAny seqs s = Some r -> exists w, w ∈ seqs /\ s = w +:+ r.
Proof.
  induction seqs as [|w seqs IH]; simpl; [done|].
  destruct (JS.stripPrefix w s) as [r'|] eqn:Hw.
  - intros [= ->]. apply stripPrefix_spec in Hw. exists w.
    split; [apply elem_of_cons; by left | done].
  - intros H. destruct (IH H) as (w' & Hin & Hs). exists w'.
    split; [apply elem_of_cons; by right | done].
Qed.

Lemma stripAny_None (seqs : list string) (s : string) :
  JS.stripAny seqs s = None <-> forall w r, w ∈ seqs -> s <> w +:+ r.
Proof.
  induction seqs as [|w seqs IH]; simpl.
  - split; [by intros _ w r ?%elem_of_nil | done].
  - destruct (JS.stripPrefix w s) as [r'|] eqn:Hw.
    + apply stripPrefix_spec in Hw. split; [done|]. intros H.
      exfalso. apply (H w r'); [apply elem_of_cons; by left | done].
    + rewrite IH. split.
      * intros H w' r [-> | Hin]%elem_of_cons; [|by apply H].
        intros Hs. apply stripPrefix_spec in Hs. congruence.
      * intros H w' r Hin. apply H, elem_of_cons. by right.
Qed.

Lemma dropSeqs_id (seqs : list string) (fuel : nat) (s : string) :
  JS.stripAny seqs s = None -> JS.dropSeqs fuel seqs s = s.
Proof. intros H. destruct fuel; simpl; [done | by rewrite H]. Qed.

Lemma madeOf_app (seqs : list string) (l1 l2 : string) :
  madeOf seqs l1 -> madeOf seqs l2 -> madeOf seqs (l1 +:+ l2).
Proof.
  induction 1 as [|w l Hw _ IH]; intros H2; [done|].
  rewrite append_assoc. constructor; [done | by apply IH].
Qed.

(** The strips stop only when no sequence is left at the start: the fuel
    of [trimStart] and [trimEnd] is enough. *)
Lemma dropSeqs_spec (seqs : list string) (fuel : nat) (s : string) :
  Forall (fun w => w <> EmptyString) seqs ->
  String.length s <= fuel ->
  exists l,
    s = l +:+ JS.dropSeqs fuel seqs s /\ madeOf seqs l /\
    JS.stripAny seqs (JS.dropSeqs fuel seqs s) = None.
Proof.
  intros Hne. revert s. induction fuel as [|fuel IH]; intros s Hlen.
  - destruct s; [|simpl in Hlen; lia]. exists EmptyString.
    split_and!; [done | constructor |]. simpl.
    apply stripAny_None. intros w r Hw Hs.
    rewrite Forall_forall in Hne. apply (Hne w Hw). by destruct w.
  - simpl. destruct (JS.stripAny seqs s) as [rest|] eqn:Hs.
    + destruct (stripAny_Some _ _ _ Hs) as (w & Hw & ->).
      rewrite Forall_forall in Hne. pose proof (Hne w Hw) as Hwne.
      rewrite length_append in Hlen.
      destruct (IH rest) as (l & Hl & Hmade & Hstop).
      { destruct w; [done | simpl in Hlen; lia]. }
      exists (w +:+ l). split_and!; [| by constructor | done].
      by rewrite append_assoc, <- Hl.
    + exists EmptyString. split_and!; [done | constructor | done].
Qed.

Lemma reverse_app (a b : string) :
  JS.reverse (a +:+ b) = JS.reverse b +:+ JS.reverse a.
Proof.
  induction a as [|c a IH]; simpl.
  - by rewrite append_empty_r.
  - by rewrite IH, append_assoc.
Qed.

Lemma reverse_involutive (s : string) : JS.reverse (JS.reverse s) = s.
Proof.
  induction s as [|c s IH]; simpl; [done|]. by rewrite reverse_app, IH.
Qed.

Lemma reverse_length (s : string) :
  String.length (JS.reverse s) = String.length s.
Proof.
  induction s as [|c s IH]; simpl; [done|].
  rewrite length_append, IH. simpl. lia.
Qed.

Lemma madeOf_reverse (seqs : list string) (l : string) :
  madeOf (JS.reverse <$> seqs) l -> madeOf seqs (JS.reverse l).
Proof.
  induction 1 as [|w' l Hw _ IH]; [constructor|].
  apply list_elem_of_fmap in Hw as (w & -> & Hw).
  rewrite reverse_app, reverse_involutive. apply madeOf_app; [done|].
  rewrite <- (append_empty_r w). constructor; [done | constructor].
Qed.

Lemma whiteSpace_nonempty :
  Forall (fun w => w <> EmptyString) JS.whiteSpace /\
  Forall (fun w => w <> EmptyString) (JS.reverse <$> JS.whiteSpace).
Proof. split; vm_compute; repeat constructor; discriminate. Qed.

Lemma trimStart_spec (s : string) :
  exists l,
    s = l +:+ JS.trimStart s /\ madeOf JS.whiteSpace l /\
    ~ startsWhite (JS.trimStart s).
Proof.
  destruct (dropSeqs_spec JS.whiteSpace (String.length s) s)
    as (l & Hl & Hmade & Hstop); [apply whiteSpace_nonempty | done |].
  exists l. split_and!; [done | done |].
  intros (w & rest & Hw & Hs).
  by apply (proj1 (stripAny_None _ _) Hstop w rest).
Qed.

Lemma trimEnd_spec (s : string) :
  exists r,
    s = JS.trimEnd s +:+ r /\ madeOf JS.whiteSpace r /\
    ~ endsWhite (JS.trimEnd s).
Proof.
  unfold JS.trimEnd.
  destruct (dropSeqs_spec (JS.reverse <$> JS.whiteSpace) (String.length s)
              (JS.reverse s))
    as (l & Hl & Hmade & Hstop);
    [apply whiteSpace_nonempty | by rewrite reverse_length |].
  exists (JS.reverse l). split_and!.
  - by rewrite <- reverse_app, <- Hl, reverse_involutive.
  - by apply madeOf_reverse.
  - intros (w & front & Hw & Hs).
    apply (f_equal JS.reverse) in Hs.
    rewrite reverse_involutive, reverse_app in Hs.
    apply (proj1 (stripAny_None _ _) Hstop (JS.reverse w) (JS.reverse front));
      [|done].
    apply list_elem_of_fmap. eauto.
Qed.

(** [trim] removes white space only, and all of it, at both ends. *)
Lemma trim_spec (s : string) :
  exists l r,
    s = l +:+ JS.trim s +:+ r /\
    madeOf JS.whiteSpace l /\ madeOf JS.whiteSpace r /\
    ~ startsWhite (JS.trim s) /\ ~ endsWhite (JS.trim s).
Proof.
  unfold JS.trim.
  destruct (trimStart_spec s) as (l & Hl & Hml & Hstart).
  destruct (trimEnd_spec (JS.trimStart s)) as (r & Hr & Hmr & Hend).
  exists l, r. split_and!; [by rewrite <- Hr | done | done | | done].
  intros (w & rest & Hw & Hs). apply Hstart.
  exists w, (rest +:+ r). split; [done|].
  by rewrite Hr at 1; rewrite Hs, append_assoc.
Qed.

Lemma trim_id (s : string) :
  ~ startsWhite s -> ~ endsWhite s -> JS.trim s = s.
Proof.
  intros Hstart Hend. unfold JS.trim.
  assert (Hs : JS.trimStart s = s).
  { apply dropSeqs_id, stripAny_None. intros w r Hw ->. apply Hstart.
    by exists w, r. }
  rewrite Hs. unfold JS.trimEnd. rewrite dropSeqs_id.
  - apply reverse_involutive.
  - apply stripAny_None. intros w' r Hw' Hr.
    apply list_elem_of_fmap in Hw' as (w & -> & Hw). apply Hend.
    exists w, (JS.reverse r). split; [done|].
    by rewrite <- (reverse_involutive s), Hr, reverse_app, reverse_involutive.
Qed.

Lemma trim_trim (s : string) : JS.trim (JS.trim s) = JS.trim s.
Proof.
  destruct (trim_spec s) as (_ & _ & _ & _ & _ & Hstart & Hend).
  by apply trim_id.
Qed.

(** ** C6: [extractOrgName] *)

Section OrgResolverProperties.

Variable URL_parse : string -> option URL.

Lemma cleanUrl_spec (url : string) :
  exists l k r,
    url = l +:+ (cleanUrl url +:+ slashes k) +:+ r /\
    madeOf JS.whiteSpace l /\ madeOf JS.whiteSpace r /\
    ~ startsWhite (cleanUrl url +:+ slashes k) /\
    ~ endsWhite (cleanUrl url +:+ slashes k) /\
    last_char (cleanUrl url) <> Some "/"%char.
Proof.
  unfold cleanUrl, JS.stripTrailingSlashes.
  destruct (trim_spec url) as (l & r & Hurl & Hl & Hr & Hstart & Hend).
  destruct (dropEnd_spec JS.is_slash (JS.trim url)) as (t & Ht & Hst & Hlast).
  apply all_chars_slashes in Hst as [k ->].
  exists l, k, r. rewrite <- Ht. split_and!; try done.
  intros Hc. by apply Hlast in Hc.
Qed.

Lemma extractOrgName_parts (url : string) (u : URL) :
  URL_parse (urlCandidate url) = Some u ->
  JS.includes (hostname u) "github.com" = true ->
  extractOrgName URL_parse url
  = head (JS.filterBoolean (JS.split "/" (pathname u))).
Proof.
  intros Hu Hhost. unfold extractOrgName. rewrite Hu, Hhost. simpl.
  pose proof (first_part_spec (pathname u)) as Hseg.
  destruct (JS.filterBoolean (JS.split "/" (pathname u))) as [|p ps]; [done|].
  destruct Hseg as (_ & _ & _ & [Hne _] & _). by destruct p.
Qed.

(** C6 (as amended): [extractOrgName] trims white space and then trailing
    slashes: the input is white space, the cleaned string, slashes and
    white space, where the cleaned string with the slashes neither starts
    nor ends with white space and the cleaned string does not end with a
    slash. It prepends [https://] exactly when the cleaned string does
    not start with [http], returns null when the parser rejects the
    candidate or when the host does not contain [github.com], and
    otherwise returns the first non-empty segment of the path, null when
    the path has none. It is a total function: nothing is raised. *)
Theorem extractOrgName_spec (url : string) :
  let cleaned := cleanUrl url in
  (exists l k r,
     url = l +:+ (cleaned +:+ slashes k) +:+ r /\
     madeOf JS.whiteSpace l /\ madeOf JS.whiteSpace r /\
     ~ startsWhite (cleaned +:+ slashes k) /\
     ~ endsWhite (cleaned +:+ slashes k) /\
     last_char cleaned <> Some "/"%char) /\
  ((exists rest, cleaned = "http" +:+ rest) -> urlCandidate url = cleaned) /\
  ((~ exists rest, cleaned = "http" +:+ rest) ->
   urlCandidate url = "https://" +:+ cleaned) /\
  (URL_parse (urlCandidate url) = None ->
   extractOrgName URL_parse url = None) /\
  (forall u, URL_parse (urlCandidate url) = Some u ->
     (~ occurs_in "github.com" (hostname u) ->
      extractOrgName URL_parse url = None) /\
     (occurs_in "github.com" (hostname u) ->
      (forall seg, extractOrgName URL_parse url = Some seg
                   <-> first_segment (pathname u) seg) /\
      (extractOrgName URL_parse url = None
       <-> exists k, pathname u = slashes k))).
Proof.
  intros cleaned. split_and!.
  - apply cleanUrl_spec.
  - intros Hp. apply prefix_occurs in Hp. unfold urlCandidate, JS.startsWith.
    fold cleaned. by rewrite Hp.
  - intros Hp. rewrite <- prefix_occurs in Hp. apply not_true_is_false in Hp.
    unfold urlCandidate, JS.startsWith. fold cleaned. by rewrite Hp.
  - intros Hp. unfold extractOrgName. by rewrite Hp.
  - intros u Hu. split.
    + intros Hhost. rewrite <- includes_occurs in Hhost.
      apply not_true_is_false in Hhost.
      unfold extractOrgName. by rewrite Hu, Hhost.
    + intros Hhost. apply includes_occurs in Hhost.
      rewrite (extractOrgName_parts _ _ Hu Hhost).
      pose proof (first_part_spec (pathname u)) as Hseg.
      destruct (JS.filterBoolean (JS.split "/" (pathname u))) as [|p ps];
        simpl.
      * destruct Hseg as [k Hk]. split.
        -- intros seg. split; [done|]. rewrite Hk.
           intros H. by apply first_segment_slashes in H.
        -- split; [eauto | done].
      * split.
        -- intros seg. split.
           ++ by intros [= <-].
           ++ intros H. f_equal. by eapply first_segment_unique.
        -- split; [done|]. intros [k Hk]. rewrite Hk in Hseg.
           by apply first_segment_slashes in Hseg.
Qed.

End OrgResolverProperties.

Lemma extractOrgName_spec_witness :
  extractOrgName sample_URL_parse
    (JS.utf8 160 +:+ " https://github.com/vercel// " +:+ JS.utf8 65279)
  = Some "vercel".
Proof.
  pose proof (extractOrgName_spec sample_URL_parse
                (JS.utf8 160 +:+ " https://github.com/vercel// "
                 +:+ JS.utf8 65279)) as (_ & _ & _ & _ & H).
  destruct (H {| hostname := "github.com"; pathname := "/vercel" |} eq_refl)
    as [_ Hseg].
  apply Hseg.
  - by exists EmptyString, EmptyString.
  - exists 1, EmptyString. split_and!; [done | | by left].
    split; done.
Defined.

(** [trim] on white space that is not ASCII: a no-break space, a line
    separator and a byte order mark. *)
Example cleanUrl_unicode_white_space :
  cleanUrl (JS.utf8 160 +:+ JS.utf8 8232 +:+ "github.com/acme/"
            +:+ JS.utf8 65279 +:+ " ")
  = "github.com/acme".
Proof. vm_compute. reflexivity. Qed.

(** C6 (as stated) fails: a string without a scheme that starts with
    [http] is handed to the parser as it is. *)
Lemma extractOrgName_scheme_counterexample :
  ~ (has_scheme (cleanUrl "httpbin.github.com/acme") = false ->
     urlCandidate "httpbin.github.com/acme"
     = "https://" +:+ cleanUrl "httpbin.github.com/acme").
Proof. intros H. specialize (H eq_refl). vm_compute in H. discriminate H. Qed.

Example extractOrgName_http_prefix :
  extractOrgName sample_URL_parse "httpbin.github.com/acme" = None /\
  extractOrgName sample_URL_parse "https://httpbin.github.com/acme"
  = Some "acme".
Proof. split; reflexivity. Qed.

(** ** C3: [getRepoCommitCount] *)

Lemma pagesTotal_0 pages page : pagesTotal pages page 0 = 0.
Proof. done. Qed.

Lemma pagesTotal_S pages page n :
  pagesTotal pages page (S n)
  = length (pages page) + pagesTotal pages (S page) n.
Proof. done. Qed.

Lemma countLoop_spec (pages : nat -> list Commit)
  (fetch : nat -> Res (list Commit)) (count page : nat) :
  (forall p, fetch p = Ok (pages p)) ->
  countLoop_post pages count page (countLoop fetch count page).
Proof.
  intros Hfetch. unfold countLoop_post.
  funelim (countLoop fetch count page); try fetched Hfetch.
  - exists 0. simpl. rewrite pagesTotal_0, Nat.add_0_r.
    split_and!; [done | done | lia | lia | lia | lia].
  - exists 1. rewrite pagesTotal_S, pagesTotal_0. simpl.
    replace (page + 0) with page by lia.
    split_and!; try done.
    + do 2 f_equal. lia.
    + intros j Hj. replace j with 0 by lia. rewrite pagesTotal_0. lia.
    + lia.
    + unfold PER_PAGE. lia.
  - exists 1. rewrite pagesTotal_S, pagesTotal_0. simpl.
    replace (page + 0) with page by lia.
    split_and!; try done.
    + do 2 f_equal. lia.
    + intros j Hj. replace j with 0 by lia. rewrite pagesTotal_0. lia.
    + lia.
    + lia.
  - destruct (H pages Hfetch) as (n' & Hcalls & Hres & Ha & Hb & Hc & Hd).
    exists (S n'). simpl. rewrite Hcalls, Hres, pagesTotal_S.
    split_and!.
    + done.
    + do 2 f_equal. lia.
    + intros [|j] Hj; [rewrite pagesTotal_0; lia|].
      rewrite pagesTotal_S. specialize (Ha j). lia.
    + intros [|j] Hj.
      * replace (page + 0) with page by lia. lia.
      * replace (page + S j) with (S page + j) by lia. apply Hb. lia.
    + done.
    + intros _. rewrite Nat.sub_0_r. destruct n' as [|n'].
      * right. rewrite pagesTotal_0 in *. lia.
      * replace (page + S n') with (S page + (S n' - 1)) by lia.
        destruct Hd as [Hd|Hd]; [lia | by left | right; lia].
Qed.

Lemma pagesTotal_full (pages : nat -> list Commit) (page k : nat) :
  (forall j, j < k -> PER_PAGE <= length (pages (page + j))) ->
  PER_PAGE * k <= pagesTotal pages page k.
Proof.
  revert page. induction k as [|k IH]; intros page Hfull.
  - rewrite pagesTotal_0. lia.
  - rewrite pagesTotal_S.
    pose proof (Hfull 0 ltac:(lia)) as H0.
    replace (page + 0) with page in H0 by lia.
    assert (PER_PAGE * k <= pagesTotal pages (S page) k).
    { apply IH. intros j Hj. replace (S page + j) with (page + S j) by lia.
      apply Hfull. lia. }
    lia.
Qed.

Section CommitCounter.

Variable api : Octokit -> Remote.

(** C3: when the remote answers every page request, [getRepoCommitCount]
    requests the pages 1 to [n] for some [n] between 1 and 5, and returns
    the running total of these pages capped at [MAX_COMMITS]: a number
    between 0 and 500. Every page before the last was full and left the
    running total below the cap; the last page is short or brings the
    total to the cap. *)
Theorem getRepoCommitCount_capped (octokit : Octokit)
  (owner repo since : string) (pages : nat -> list Commit) :
  (forall p, listCommits (api octokit) Counting owner repo since p
             = Ok (pages p)) ->
  exists n count,
    getRepoCommitCount api octokit owner repo since = Ok count /\
    count = Nat.min (pagesTotal pages 1 n) MAX_COMMITS /\
    0 <= count <= 500 /\
    (getRepoCommitCount_calls api octokit owner repo since).1 = seq 1 n /\
    1 <= n <= 5 /\
    (forall p, 1 <= p < n ->
       PER_PAGE <= length (pages p) /\ pagesTotal pages 1 p < MAX_COMMITS) /\
    (length (pages n) < PER_PAGE \/ MAX_COMMITS <= pagesTotal pages 1 n).
Proof.
  intros Hfetch.
  destruct (countLoop_spec pages _ 0 1 Hfetch)
    as (n & Hcalls & Hres & Ha & Hb & Hc & Hd).
  assert (Hpos : 1 <= n).
  { destruct n; [|lia]. specialize (Hc eq_refl). unfold MAX_COMMITS in Hc. lia. }
  assert (Hfull : forall p, 1 <= p < n -> PER_PAGE <= length (pages p)).
  { intros p Hp. specialize (Hb (p - 1)).
    replace (1 + (p - 1)) with p in Hb by lia. apply Hb. lia. }
  exists n, (Nat.min (pagesTotal pages 1 n) MAX_COMMITS).
  unfold getRepoCommitCount, getRepoCommitCount_calls.
  split_and!; try done.
  - lia.
  - unfold MAX_COMMITS. lia.
  - destruct (decide (n <= 5)) as [|Hn]; [done|].
    pose proof (Ha 5 ltac:(lia)) as H5.
    assert (Hge : PER_PAGE * 5 <= pagesTotal pages 1 5).
    { apply pagesTotal_full. intros j Hj. apply Hfull. lia. }
    unfold MAX_COMMITS, PER_PAGE in *. lia.
  - intros p Hp. split; [by apply Hfull|]. apply (Ha p). lia.
  - specialize (Hd ltac:(lia)).
    replace (1 + (n - 1)) with n in Hd by lia. exact Hd.
Qed.

End CommitCounter.

Lemma getRepoCommitCount_capped_witness :
  exists n count,
    getRepoCommitCount sample_api (createOctokit "t") "solo" "own" "s"
    = Ok count /\ count = 500 /\ n = 5.
Proof.
  destruct (getRepoCommitCount_capped sample_api (createOctokit "t")
              "solo" "own" "s"
              (fun p => if p <=? 6 then replicate 100 (commitBy "solo") else [])
              ltac:(intros p; reflexivity))
    as (n & count & Hres & Hcount & _ & Hcalls & _).
  exists n, count. split; [exact Hres|].
  vm_compute in Hcalls.
  destruct n as [|[|[|[|[|[|n]]]]]]; try discriminate Hcalls.
  split; [|done]. rewrite Hcount. reflexivity.
Defined.

(** Against a remote that serves a fixed list of commits page by page,
    the count is the length of the list, capped. *)
Lemma pagesTotal_paginate (commits : list Commit) (n : nat) :
  pagesTotal (paginate commits) 1 n
  = Nat.min (PER_PAGE * n) (length commits).
Proof.
  unfold pagesTotal. induction n as [|n IH].
  - rewrite Nat.mul_0_r. simpl. lia.
  - rewrite seq_S, sum_list_with_app, IH. cbn [sum_list_with].
    unfold paginate. rewrite length_take, length_drop.
    unfold PER_PAGE. lia.
Qed.

Lemma getRepoCommitCount_paginated (api : Octokit -> Remote)
  (octokit : Octokit) (owner repo since : string) (commits : list Commit) :
  (forall p, listCommits (api octokit) Counting owner repo since p
             = Ok (paginate commits p)) ->
  getRepoCommitCount api octokit owner repo since
  = Ok (Nat.min (length commits) MAX_COMMITS).
Proof.
  intros Hfetch. unfold getRepoCommitCount, getRepoCommitCount_calls.
  destruct (countLoop_spec _ _ 0 1 Hfetch) as (n & _ & -> & _ & _ & Hc & Hd).
  f_equal. rewrite pagesTotal_paginate in *.
  destruct n as [|n]; [specialize (Hc eq_refl); unfold MAX_COMMITS in Hc; lia|].
  specialize (Hd ltac:(lia)). unfold paginate in Hd.
  rewrite length_take, length_drop in Hd.
  unfold MAX_COMMITS, PER_PAGE in *. lia.
Qed.

(** ** C4: [getTopContributor] *)

(** *** The insertion-ordered map *)

Lemma Map_set_present (k : string) (v : nat) (m : AuthorCounts) :
  k ∈ m.*1 ->
  exists m1 w m2,
    m = m1 ++ (k, w) :: m2 /\ (k ∉ m1.*1) /\
    Map_get k m = Some w /\ Map_set k v m = m1 ++ (k, v) :: m2.
Proof.
  induction m as [|[k' w'] m IH]; simpl; [by intros ?%elem_of_nil|].
  intros Hin. destruct (String.eqb k k') eqn:Hk.
  - apply String.eqb_eq in Hk as <-. exists [], w', m. simpl.
    split_and!; try done. apply not_elem_of_nil.
  - apply String.eqb_neq in Hk.
    apply elem_of_cons in Hin as [? | Hin]; [done|].
    destruct (IH Hin) as (m1 & w & m2 & -> & Hnot & Hget & Hset).
    exists ((k', w') :: m1), w, m2. rewrite Hset. simpl.
    split_and!; try done. by apply not_elem_of_cons.
Qed.

Lemma Map_set_absent (k : string) (v : nat) (m : AuthorCounts) :
  k ∉ m.*1 -> Map_get k m = None /\ Map_set k v m = m ++ [(k, v)].
Proof.
  induction m as [|[k' w'] m IH]; simpl; [done|].
  intros [Hne Hnot]%not_elem_of_cons.
  apply String.eqb_neq in Hne. rewrite Hne.
  destruct (IH Hnot) as [-> ->]. done.
Qed.

(** *** The tally of a stream of author keys *)

Lemma tallyCommit_keys (commits : list Commit) (m : AuthorCounts) :
  fold_left tallyCommit commits m
  = fold_left tallyKey (authorKey <$> commits) m.
Proof.
  revert m. induction commits as [|c commits IH]; intros m; simpl; [done|].
  by rewrite IH.
Qed.

Lemma tallyOf_app a ks1 ks2 :
  tallyOf a (ks1 ++ ks2) = tallyOf a ks1 + tallyOf a ks2.
Proof. unfold tallyOf. by rewrite filter_app, length_app. Qed.

Lemma tallyOf_zero a ks : tallyOf a ks = 0 <-> a ∉ ks.
Proof.
  unfold tallyOf. induction ks as [|k ks IH]; simpl.
  - split; [intros _; apply not_elem_of_nil | done].
  - rewrite not_elem_of_cons. destruct (decide (k = a)) as [->|Hne].
    + rewrite filter_cons_True by done. simpl. split; [lia | intros [? _]; done].
    + rewrite filter_cons_False by done. rewrite IH. split; [by intros ? | by intros [_ ?]].
Qed.

Lemma tallyOf_singleton_eq k : tallyOf k [k] = 1.
Proof. unfold tallyOf. by rewrite filter_cons_True. Qed.

Lemma tallyOf_singleton_ne k' k : k' <> k -> tallyOf k' [k] = 0.
Proof. intros Hne. unfold tallyOf. rewrite filter_cons_False; [done | congruence]. Qed.

Lemma seenBefore_snoc a b ks k : seenBefore a b ks -> seenBefore a b (ks ++ [k]).
Proof.
  intros (l & r & -> & Hl). exists l, (r ++ [k]).
  by rewrite <- app_assoc.
Qed.

Lemma tally_inv_nil : tally_inv [] [].
Proof.
  split_and!.
  - constructor.
  - by intros k v ?%elem_of_nil.
  - by intros k ?%elem_of_nil.
  - intros m1 a v m2 b Heq. by destruct m1.
Qed.

Lemma NoDup_entry (m : AuthorCounts) k v w :
  NoDup m.*1 -> (k, v) ∈ m -> (k, w) ∈ m -> v = w.
Proof.
  intros Hnd Hv Hw. induction m as [|[k' v'] m IH]; [by apply elem_of_nil in Hv|].
  simpl in Hnd. apply NoDup_cons in Hnd as [Hk' Hnd].
  apply elem_of_cons in Hv as [Hv|Hv]; apply elem_of_cons in Hw as [Hw|Hw].
  - congruence.
  - injection Hv as -> ->. exfalso. apply Hk'.
    apply list_elem_of_fmap. by exists (k', w).
  - injection Hw as -> ->. exfalso. apply Hk'.
    apply list_elem_of_fmap. by exists (k', v).
  - by apply IH.
Qed.

Lemma split_same_keys (m m' n1 n2 : AuthorCounts) a v :
  m.*1 = m'.*1 -> m' = n1 ++ (a, v) :: n2 ->
  exists n1' v' n2', m = n1' ++ (a, v') :: n2' /\ n2'.*1 = n2.*1.
Proof.
  intros Hkeys ->. revert m Hkeys.
  induction n1 as [|e n1 IH]; intros [|[k w] m] Hkeys; simpl in *; try done.
  - injection Hkeys as -> Hkeys. by exists [], w, m.
  - injection Hkeys as Hk Hkeys.
    destruct (IH _ Hkeys) as (n1' & v' & n2' & -> & Hn2).
    by exists ((k, w) :: n1'), v', n2'.
Qed.

Lemma tally_inv_step (ks : list string) (m : AuthorCounts) (k : string) :
  tally_inv ks m -> tally_inv (ks ++ [k]) (tallyKey m k).
Proof.
  intros (Hnd & Hval & Hkeys & Hord). unfold tallyKey.
  destruct (decide (k ∈ m.*1)) as [Hin|Hnot].
  - destruct (Map_set_present k (default 0 (Map_get k m) + 1) m Hin)
      as (m1 & w & m2 & Hm & Hk1 & Hget & ->).
    rewrite Hget. simpl. subst m.
    assert (Hkeq : (m1 ++ (k, w + 1) :: m2).*1 = (m1 ++ (k, w) :: m2).*1).
    { by rewrite !fmap_app. }
    split_and!.
    + by rewrite Hkeq.
    + intros k' v Hin'. rewrite tallyOf_app.
      apply elem_of_app in Hin' as [Hin'|Hin'].
      * destruct (Hval k' v) as [Hv Hpos]; [apply elem_of_app; by left|].
        assert (k' <> k).
        { intros ->. apply Hk1. apply list_elem_of_fmap. by exists (k, v). }
        rewrite tallyOf_singleton_ne by done. lia.
      * apply elem_of_cons in Hin' as [[= -> ->]|Hin'].
        -- destruct (Hval k w) as [Hv Hpos].
           { apply elem_of_app. right. apply elem_of_cons. by left. }
           rewrite tallyOf_singleton_eq. lia.
        -- destruct (Hval k' v) as [Hv Hpos].
           { apply elem_of_app. right. apply elem_of_cons. by right. }
           assert (k' <> k).
           { intros ->. rewrite fmap_app in Hnd. simpl in Hnd.
             apply NoDup_app in Hnd as (_ & _ & Hnd).
             apply NoDup_cons in Hnd as [Hnd _]. apply Hnd.
             apply list_elem_of_fmap. by exists (k, v). }
           rewrite tallyOf_singleton_ne by done. lia.
    + intros k' [Hk'|Hk']%elem_of_app; rewrite Hkeq.
      * by apply Hkeys.
      * apply list_elem_of_singleton in Hk' as ->. done.
    + intros n1 a v n2 b Heq Hb. apply seenBefore_snoc.
      destruct (split_same_keys _ _ _ _ _ _ (eq_sym Hkeq) Heq)
        as (n1' & v' & n2' & Hsplit & Hn2).
      apply (Hord _ _ _ _ _ Hsplit). by rewrite Hn2.
  - destruct (Map_set_absent k (default 0 (Map_get k m) + 1) m Hnot)
      as [-> ->]. simpl.
    assert (Hk0 : k ∉ ks) by (intros ?; by apply Hnot, Hkeys).
    split_and!.
    + rewrite fmap_app. simpl. apply NoDup_app. split_and!; [done | | ].
      * intros x Hx ->%list_elem_of_singleton. done.
      * apply NoDup_singleton.
    + intros k' v [Hin'|Hin']%elem_of_app; rewrite tallyOf_app.
      * destruct (Hval k' v Hin') as [Hv Hpos].
        assert (k' <> k).
        { intros ->. apply Hnot. apply list_elem_of_fmap. by exists (k, v). }
        rewrite tallyOf_singleton_ne by done. lia.
      * apply list_elem_of_singleton in Hin' as [= -> ->].
        apply tallyOf_zero in Hk0. rewrite Hk0, tallyOf_singleton_eq. lia.
    + intros k' [Hk'|Hk']%elem_of_app; rewrite fmap_app; apply elem_of_app.
      * left. by apply Hkeys.
      * right. done.
    + intros n1 a v n2 b Heq Hb.
      destruct (decide (b ∈ m.*1)) as [Hbm|Hbm].
      * destruct n2 as [|e n2 _] using rev_ind.
        { by apply elem_of_nil in Hb. }
        rewrite app_comm_cons, app_assoc in Heq.
        apply app_inj_tail in Heq as [Hm He]. subst m e.
        apply seenBefore_snoc. eapply Hord; [done|].
        rewrite fmap_app in Hb. apply elem_of_app in Hb as [Hb|Hb]; [done|].
        simpl in Hb. apply list_elem_of_singleton in Hb as ->. done.
      * assert (Ha : a ∈ m.*1).
        { destruct n2 as [|e n2 _] using rev_ind.
          - by apply elem_of_nil in Hb.
          - rewrite app_comm_cons, app_assoc in Heq.
            apply app_inj_tail in Heq as [Hm _]. subst m.
            rewrite fmap_app. apply elem_of_app. right. simpl.
            apply elem_of_cons. by left. }
        assert (Hbk : b = k).
        { assert (b ∈ (m ++ [(k, 1)]).*1) as Hb'.
          { rewrite Heq, fmap_app. apply elem_of_app. right. simpl.
            apply elem_of_cons. by right. }
          rewrite fmap_app in Hb'. apply elem_of_app in Hb' as [?|Hb']; [done|].
          by apply list_elem_of_singleton in Hb'. }
        subst b.
        assert (Haks : a ∈ ks).
        { apply list_elem_of_fmap in Ha as ([a' va] & -> & Ha). simpl.
          destruct (Hval _ _ Ha) as [-> Hpos].
          destruct (decide (a' ∈ ks)) as [|Hn]; [done|].
          apply tallyOf_zero in Hn. lia. }
        apply list_elem_of_split in Haks as (l & r & ->).
        exists l, (r ++ [k]). split; [by rewrite <- app_assoc|].
        intros Hl. apply Hk0. apply elem_of_app. by left.
Qed.

Lemma tally_inv_fold (ks : list string) :
  tally_inv ks (fold_left tallyKey ks []).
Proof.
  induction ks as [|k ks IH] using rev_ind.
  - apply tally_inv_nil.
  - rewrite fold_left_app. simpl. by apply tally_inv_step.
Qed.

(** *** The selection loop *)

(** A left fold that replaces the current best only by a strictly greater
    element ends on the first greatest element. *)
Lemma keep_first_greatest {A} (f : A -> nat) (xs : list A) (x0 r : A) :
  fold_left (fun best current => if f best <? f current then current else best)
    xs x0 = r ->
  (r = x0 /\ forall x, x ∈ xs -> f x <= f x0) \/
  (f x0 < f r /\
   exists l1 l2, xs = l1 ++ r :: l2 /\
     (forall x, x ∈ l1 -> f x < f r) /\ (forall x, x ∈ l2 -> f x <= f r)).
Proof.
  revert x0. induction xs as [|e xs IH]; intros x0; simpl.
  - intros <-. left. split; [done|]. by intros e ?%elem_of_nil.
  - intros Hr. apply IH in Hr.
    destruct (f x0 <? f e) eqn:Hlt.
    + apply Nat.ltb_lt in Hlt. right.
      destruct Hr as [[-> Hall] | (Hgt & l1 & l2 & -> & H1 & H2)].
      * split; [done|]. exists [], xs.
        split_and!; [done | by intros ? ?%elem_of_nil | done].
      * split; [lia|]. exists (e :: l1), l2.
        split_and!; [done | | done].
        intros e' [->|He']%elem_of_cons; [done | by apply H1].
    + apply Nat.ltb_ge in Hlt.
      destruct Hr as [[-> Hall] | (Hgt & l1 & l2 & -> & H1 & H2)].
      * left. split; [done|].
        intros e' [->|He']%elem_of_cons; [done | by apply Hall].
      * right. split; [done|]. exists (e :: l1), l2.
        split_and!; [done | | done].
        intros e' [->|He']%elem_of_cons; [lia | by apply H1].
Qed.

(** On a map with positive counts the loop returns the first entry with
    the greatest count. *)
Lemma pickTop_spec (m : AuthorCounts) :
  m <> [] -> (forall e, e ∈ m -> 0 < e.2) ->
  exists m1 m2, m = m1 ++ pickTop m :: m2 /\
    (forall e, e ∈ m1 -> e.2 < (pickTop m).2) /\
    (forall e, e ∈ m2 -> e.2 <= (pickTop m).2).
Proof.
  intros Hne Hpos. unfold pickTop.
  destruct (keep_first_greatest snd m ("N/A", 0) _ eq_refl)
    as [[_ Hall] | (_ & m1 & m2 & H)].
  - destruct m as [|e m]; [done|]. exfalso.
    pose proof (Hpos e ltac:(apply elem_of_cons; by left)).
    pose proof (Hall e ltac:(apply elem_of_cons; by left)). simpl in *. lia.
  - by exists m1, m2.
Qed.

(** *** The paging loop *)

Lemma pagesConcat_S pages page n :
  pagesConcat pages page (S n) = pages page ++ pagesConcat pages (S page) n.
Proof. done. Qed.

Lemma tallyLoop_spec (pages : nat -> list Commit)
  (fetch : nat -> Res (list Commit)) (authorCounts : AuthorCounts)
  (page : nat) :
  (forall p, fetch p = Ok (pages p)) ->
  tallyLoop_post pages authorCounts page (tallyLoop fetch authorCounts page).
Proof.
  intros Hfetch. unfold tallyLoop_post.
  funelim (tallyLoop fetch authorCounts page); try fetched Hfetch.
  - exists 0. split_and!; [done | lia | lia | lia].
  - exists 1. rewrite pagesConcat_S. replace (page + (1 - 1)) with page by lia.
    destruct (pages page); [|done]. simpl.
    split_and!; [done | lia | lia | ]. intros _. unfold PER_PAGE. simpl. lia.
  - exists 1. rewrite pagesConcat_S. replace (page + (1 - 1)) with page by lia.
    unfold pagesConcat. simpl. rewrite app_nil_r.
    split_and!; [done | lia | lia | ]. intros _. lia.
  - destruct (H pages Hfetch) as (n' & Hres & Hfull & Hz & Hpos).
    exists (S n'). rewrite Hres, pagesConcat_S, fold_left_app.
    split_and!.
    + done.
    + intros [|j] Hj.
      * replace (page + 0) with page by lia. lia.
      * replace (page + S j) with (S page + j) by lia. apply Hfull. lia.
    + done.
    + intros _. replace (page + (S n' - 1)) with (page + n') by lia.
      destruct n' as [|n'].
      * specialize (Hz eq_refl). lia.
      * destruct Hpos as [Hend Hstop]; [lia|].
        replace (S page + (S n' - 1)) with (page + S n') in Hstop by lia. lia.
Qed.

Section ContributorResolver.

Variable api : Octokit -> Remote.

(** C4: when the remote answers every page request, [getTopContributor]
    samples the pages 1 to [n], [n] at most 5, stopping early at a short
    page. It returns ["N/A"] when the sample holds no commit; otherwise
    it returns an author of the sample whose tally no other author
    exceeds, and which was seen in the commit stream before every other
    author with the same tally. *)
Theorem getTopContributor_first_seen (octokit : Octokit)
  (owner repo since : string) (pages : nat -> list Commit) :
  (forall p, listCommits (api octokit) Tallying owner repo since p
             = Ok (pages p)) ->
  exists n top,
    getTopContributor api octokit owner repo since = Ok top /\
    1 <= n <= MAX_PAGES /\
    (forall p, 1 <= p < n -> PER_PAGE <= length (pages p)) /\
    (n = MAX_PAGES \/ length (pages n) < PER_PAGE) /\
    let keys := authorKey <$> pagesConcat pages 1 n in
    (keys = [] -> top = "N/A") /\
    (keys <> [] ->
     top ∈ keys /\
     (forall b, tallyOf b keys <= tallyOf top keys) /\
     (forall b, b <> top -> tallyOf b keys = tallyOf top keys ->
                seenBefore top b keys)).
Proof.
  intros Hfetch. unfold getTopContributor.
  destruct (tallyLoop_spec pages _ [] 1 Hfetch) as (n & -> & Hfull & Hz & Hpos).
  assert (Hn : 1 <= n).
  { destruct n; [|lia]. specialize (Hz eq_refl). unfold MAX_PAGES in Hz. lia. }
  destruct (Hpos ltac:(lia)) as [Hle Hstop].
  replace (1 + (n - 1)) with n in Hstop by lia.
  rewrite tallyCommit_keys. cbv zeta.
  remember (authorKey <$> pagesConcat pages 1 n) as keys eqn:Hkeysdef.
  pose proof (tally_inv_fold keys) as Hinv.
  remember (fold_left tallyKey keys []) as m eqn:Hmdef.
  destruct Hinv as (Hnd & Hval & Hkeys & Hord).
  exists n, (if length m =? 0 then "N/A" else (pickTop m).1).
  cbv zeta. rewrite <- Hkeysdef.
  split_and!.
  - by destruct (length m =? 0).
  - lia.
  - lia.
  - intros p Hp. specialize (Hfull (p - 1)).
    replace (1 + (p - 1)) with p in Hfull by lia. apply Hfull. lia.
  - destruct Hstop as [Hstop|Hstop]; [left; lia | by right].
  - intros Hk. rewrite Hmdef, Hk. done.
  - intros Hk.
    assert (Hm : m <> []).
    { destruct keys as [|k ks]; [done|].
      pose proof (Hkeys k ltac:(apply elem_of_cons; by left)) as Hin.
      intros Hm. rewrite Hm in Hin. by apply elem_of_nil in Hin. }
    destruct (length m =? 0) eqn:Hlen.
    { apply Nat.eqb_eq in Hlen. by destruct m. }
    destruct (pickTop_spec m Hm) as (m1 & m2 & Hsplit & Hbefore & Hafter).
    { intros [k v] Hin. by apply Hval in Hin as [_ ?]. }
    destruct (pickTop m) as [a v] eqn:Htop. simpl in *.
    assert (Hav : v = tallyOf a keys /\ 0 < v).
    { apply Hval. rewrite Hsplit. apply elem_of_app. right.
      apply elem_of_cons. by left. }
    destruct Hav as [Hv Hvpos].
    assert (Hentry : forall b, b ∈ keys -> b <> a ->
              ((b, tallyOf b keys) ∈ m1) \/ ((b, tallyOf b keys) ∈ m2)).
    { intros b Hb Hne. apply Hkeys in Hb.
      apply list_elem_of_fmap in Hb as ([b' w] & -> & Hin). simpl in *.
      destruct (Hval _ _ Hin) as [<- _].
      rewrite Hsplit in Hin.
      apply elem_of_app in Hin as [Hin|Hin]; [by left|].
      apply elem_of_cons in Hin as [[= -> ->]|Hin]; [done | by right]. }
    split_and!.
    + destruct (decide (a ∈ keys)) as [|Hn']; [done|].
      apply tallyOf_zero in Hn'. lia.
    + intros b. destruct (decide (b = a)) as [->|Hne]; [done|].
      destruct (decide (b ∈ keys)) as [Hb|Hb].
      * destruct (Hentry b Hb Hne) as [Hin|Hin].
        -- apply Hbefore in Hin. simpl in Hin. lia.
        -- apply Hafter in Hin. simpl in Hin. lia.
      * apply tallyOf_zero in Hb. lia.
    + intros b Hne Htie.
      assert (Hb : b ∈ keys).
      { destruct (decide (b ∈ keys)) as [|Hb]; [done|].
        apply tallyOf_zero in Hb. lia. }
      destruct (Hentry b Hb Hne) as [Hin|Hin].
      * apply Hbefore in Hin. simpl in Hin. lia.
      * apply (Hord _ _ _ _ _ Hsplit).
        apply list_elem_of_fmap. by exists (b, tallyOf b keys).
Qed.

End ContributorResolver.

Lemma getTopContributor_first_seen_witness :
  exists n top,
    getTopContributor sample_api (createOctokit "t") "acme" "y" "s" = Ok top /\
    1 <= n <= MAX_PAGES /\
    (forall p, 1 <= p < n -> PER_PAGE <= length (if p =? 1 then y_commits else [])) /\
    (n = MAX_PAGES \/ length (if n =? 1 then y_commits else []) < PER_PAGE) /\
    let keys :=
      authorKey <$> pagesConcat (fun p => if p =? 1 then y_commits else []) 1 n in
    (keys = [] -> top = "N/A") /\
    (keys <> [] ->
     top ∈ keys /\
     (forall b, tallyOf b keys <= tallyOf top keys) /\
     (forall b, b <> top -> tallyOf b keys = tallyOf top keys ->
                seenBefore top b keys)).
Proof.
  apply (getTopContributor_first_seen sample_api (createOctokit "t")
           "acme" "y" "s" (fun p => if p =? 1 then y_commits else [])).
  intros p. reflexivity.
Defined.

(** The scenario of the specification: [bob] and [alice] both have four
    commits on [y], and [bob] was seen first. *)
Example getTopContributor_tie :
  getTopContributor sample_api (createOctokit "t") "acme" "y" "s" = Ok "bob".
Proof. reflexivity. Qed.

(** ** C2, C5, C10: [analyzeCompany] *)

(** The winner of the reduction over a non-empty array. *)
Lemma reduce_moreActive (repoResults : list RepoCommitData) :
  repoResults <> [] ->
  exists mostActive l r,
    JS.reduce moreActive repoResults = Some mostActive /\
    repoResults = l ++ mostActive :: r /\
    (forall x, x ∈ l -> commitCount x < commitCount mostActive) /\
    (forall x, x ∈ r -> commitCount x <= commitCount mostActive).
Proof.
  destruct repoResults as [|x0 xs]; [done|]. intros _. simpl.
  destruct (keep_first_greatest commitCount xs x0 _ eq_refl)
    as [[Hr Hall] | (Hgt & l1 & l2 & Hxs & H1 & H2)].
  - exists x0, [], xs. unfold moreActive. rewrite Hr.
    split_and!; [done | done | by intros ? ?%elem_of_nil | done].
  - eexists _, (x0 :: l1), l2. unfold moreActive.
    split_and!; [done | by rewrite Hxs at 1 | | done].
    intros x [->|Hx]%elem_of_cons; [done | by apply H1].
Qed.

Section Pipeline.

Variable URL_parse : string -> option URL.
Variable api : Octokit -> Remote.

Lemma extractOrgName_nonempty (url orgName : string) :
  extractOrgName URL_parse url = Some orgName -> JS.is_empty orgName = false.
Proof.
  unfold extractOrgName.
  destruct (URL_parse (urlCandidate url)) as [u|]; [|done].
  destruct (negb _); [done|].
  destruct (JS.filterBoolean _) as [|p ps]; [done|].
  destruct (JS.is_empty p) eqn:Hp; [done|]. by intros [= <-].
Qed.

Lemma countRepo_spec (octokit : Octokit) (orgName since : string)
  (repo : RepoListItem) :
  let rc := countRepo api octokit orgName since repo in
  repoName rc = name repo /\ repoUrl rc = html_url repo /\
  match getRepoCommitCount api octokit orgName (name repo) since with
  | Ok n => commitCount rc = n
  | Throw _ => commitCount rc = 0
  end.
Proof.
  unfold countRepo.
  by destruct (getRepoCommitCount api octokit orgName (name repo) since).
Qed.

(** The steps of [analyzeCompany] once discovery has found repositories. *)
Lemma analyzeCompany_selected (octokit : Octokit) (company : CompanyInput)
  (since orgName : string) (repos : list RepoListItem)
  (mostActive : RepoCommitData) :
  extractOrgName URL_parse (github_org_url company) = Some orgName ->
  listOrgRepos api octokit orgName = Ok repos ->
  JS.reduce moreActive (countRepo api octokit orgName since <$> repos)
  = Some mostActive ->
  (analyzeCompany URL_parse api octokit company since).2
  = if commitCount mostActive =? 0 then Ok (notApplicable company None)
    else match getTopContributor api octokit orgName (repoName mostActive)
                 since with
         | Throw e => Throw e
         | Ok topContributor =>
             Ok {| r_company_name := company_name company;
                   r_github_org_url := github_org_url company;
                   most_active_repo := repoName mostActive;
                   most_active_repo_url := repoUrl mostActive;
                   commit_count := commitCount mostActive;
                   top_contributor := topContributor;
                   error := None |}
         end.
Proof.
  intros Horg Hrepos Hred. unfold analyzeCompany.
  rewrite Horg, (extractOrgName_nonempty _ _ Horg), Hrepos.
  destruct repos as [|repo repos]; [done|].
  change (map ?f ?l) with (f <$> l). simpl length. simpl (_ =? _).
  cbv iota. rewrite Hred.
  destruct (commitCount mostActive =? 0); [done|].
  by destruct (getTopContributor _ _ _ _ _).
Qed.

(** C2: the winner of [analyzeCompany] is the first repository of the
    listing with the greatest count: every entry before it has a strictly
    smaller count and no entry after it a greater one. The outcome of the
    analysis is fixed by this winner. When its count is 0 the analysis
    returns the result with every activity field at ["N/A"], a count of
    0 and no error; otherwise it returns the name, the URL and the count
    of the winner with the contributor resolved for it, or fails as the
    contributor resolution for it fails. *)
Theorem analyzeCompany_winner (octokit : Octokit) (company : CompanyInput)
  (since orgName : string) (repos : list RepoListItem) :
  extractOrgName URL_parse (github_org_url company) = Some orgName ->
  listOrgRepos api octokit orgName = Ok repos ->
  repos <> [] ->
  let repoResults := countRepo api octokit orgName since <$> repos in
  let outcome := (analyzeCompany URL_parse api octokit company since).2 in
  exists mostActive l r,
    JS.reduce moreActive repoResults = Some mostActive /\
    repoResults = l ++ mostActive :: r /\
    (forall x, x ∈ l -> commitCount x < commitCount mostActive) /\
    (forall x, x ∈ r -> commitCount x <= commitCount mostActive) /\
    (exists repo,
       repos !! length l = Some repo /\
       mostActive = countRepo api octokit orgName since repo) /\
    (commitCount mostActive = 0 ->
     outcome
     = Ok {| r_company_name := company_name company;
             r_github_org_url := github_org_url company;
             most_active_repo := "N/A";
             most_active_repo_url := "N/A";
             commit_count := 0;
             top_contributor := "N/A";
             error := None |}) /\
    (commitCount mostActive <> 0 ->
     match getTopContributor api octokit orgName (repoName mostActive)
             since with
     | Ok topContributor =>
         outcome
         = Ok {| r_company_name := company_name company;
                 r_github_org_url := github_org_url company;
                 most_active_repo := repoName mostActive;
                 most_active_repo_url := repoUrl mostActive;
                 commit_count := commitCount mostActive;
                 top_contributor := topContributor;
                 error := None |}
     | Throw e => outcome = Throw e
     end).
Proof.
  intros Horg Hrepos Hne repoResults outcome.
  destruct (reduce_moreActive repoResults) as (mostActive & l & r & Hred & H).
  { subst repoResults. by destruct repos. }
  exists mostActive, l, r. destruct H as (Hsplit & Hl & Hr).
  subst outcome.
  rewrite (analyzeCompany_selected _ _ _ _ _ _ Horg Hrepos Hred).
  split_and!; try done.
  - assert (Hat : repoResults !! length l = Some mostActive).
    { rewrite Hsplit. by apply list_lookup_middle. }
    subst repoResults. rewrite list_lookup_fmap in Hat.
    destruct (repos !! length l) as [repo|]; [|done].
    exists repo. split; [done|]. by injection Hat as <-.
  - intros Hzero. by rewrite Hzero.
  - intros Hnz. apply Nat.eqb_neq in Hnz. rewrite Hnz.
    by destruct (getTopContributor _ _ _ _ _).
Qed.

(** C5: every repository of the company gets an entry, in order, that
    holds its count when the count call succeeds and 0 when it fails.
    Whatever count calls fail, the analysis goes on with the counts of
    the other repositories: it fails only if the contributor resolution
    of a winner with a non-zero count fails, and otherwise settles with
    a result that carries no error, whose count is at least the count of
    every repository whose count call succeeded, and is 0 or the count
    returned for the repository it names. *)
Theorem analyzeCompany_count_failure_isolated (octokit : Octokit)
  (company : CompanyInput) (since orgName : string)
  (repos : list RepoListItem) :
  extractOrgName URL_parse (github_org_url company) = Some orgName ->
  listOrgRepos api octokit orgName = Ok repos ->
  repos <> [] ->
  let repoResults := countRepo api octokit orgName since <$> repos in
  length repoResults = length repos /\
  (forall i repo, repos !! i = Some repo ->
     exists rc, repoResults !! i = Some rc /\
       repoName rc = name repo /\ repoUrl rc = html_url repo /\
       match getRepoCommitCount api octokit orgName (name repo) since with
       | Ok n => commitCount rc = n
       | Throw _ => commitCount rc = 0
       end) /\
  match (analyzeCompany URL_parse api octokit company since).2 with
  | Ok r =>
      error r = None /\
      (forall repo n,
         repo ∈ repos ->
         getRepoCommitCount api octokit orgName (name repo) since = Ok n ->
         n <= commit_count r) /\
      (commit_count r = 0 \/
       exists repo,
         repo ∈ repos /\ most_active_repo r = name repo /\
         getRepoCommitCount api octokit orgName (name repo) since
         = Ok (commit_count r))
  | Throw e =>
      exists winner,
        winner ∈ repoResults /\ commitCount winner <> 0 /\
        getTopContributor api octokit orgName (repoName winner) since
        = Throw e
  end.
Proof.
  intros Horg Hrepos Hne repoResults. split_and!.
  - subst repoResults. by rewrite length_fmap.
  - intros i repo Hi. exists (countRepo api octokit orgName since repo).
    split; [subst repoResults; by rewrite list_lookup_fmap, Hi|].
    apply countRepo_spec.
  - destruct (reduce_moreActive repoResults) as (mostActive & l & r & Hred & H).
    { subst repoResults. by destruct repos. }
    destruct H as (Hsplit & Hl & Hr).
    assert (Hin : mostActive ∈ repoResults).
    { rewrite Hsplit. apply elem_of_app. right. apply elem_of_cons. by left. }
    assert (Hmax : forall repo n,
               repo ∈ repos ->
               getRepoCommitCount api octokit orgName (name repo) since = Ok n ->
               n <= commitCount mostActive).
    { intros repo n Hrepo Hn.
      assert (Hrc : countRepo api octokit orgName since repo ∈ repoResults)
        by (subst repoResults; by apply list_elem_of_fmap_2).
      assert (Hc : commitCount (countRepo api octokit orgName since repo) = n)
        by (unfold countRepo; by rewrite Hn).
      rewrite Hsplit in Hrc.
      apply elem_of_app in Hrc as [Hrc | [Hrc | Hrc]%elem_of_cons].
      - specialize (Hl _ Hrc). lia.
      - rewrite <- Hrc. lia.
      - specialize (Hr _ Hrc). lia. }
    assert (Hwin : commitCount mostActive <> 0 ->
               exists repo,
                 repo ∈ repos /\ repoName mostActive = name repo /\
                 getRepoCommitCount api octokit orgName (name repo) since
                 = Ok (commitCount mostActive)).
    { intros Hnz. subst repoResults.
      apply list_elem_of_fmap in Hin as (repo & -> & Hrepo).
      exists repo. split; [done|]. revert Hnz. unfold countRepo.
      by destruct (getRepoCommitCount api octokit orgName (name repo) since). }
    rewrite (analyzeCompany_selected _ _ _ _ _ _ Horg Hrepos Hred).
    destruct (commitCount mostActive =? 0) eqn:Hz.
    { apply Nat.eqb_eq in Hz. simpl. split_and!; [done | | by left].
      intros repo n Hrepo Hn. rewrite <- Hz. by eapply Hmax. }
    apply Nat.eqb_neq in Hz.
    destruct (getTopContributor _ _ _ _ _) as [top|e] eqn:Htop.
    + simpl. split_and!; [done | exact Hmax |]. right.
      destruct (Hwin Hz) as (repo & ? & ? & ?). by exists repo.
    + by exists mostActive.
Qed.

(** C10: the reduction without an initial value is defined whenever it is
    reached. The analysis returns before it when the organisation cannot
    be extracted, when discovery fails and when discovery finds nothing;
    otherwise the array handed to the reduction is non-empty and the
    reduction yields a winner. So a failure of the analysis is always a
    failure of discovery or of contributor resolution. *)
Theorem analyzeCompany_reduce_total (octokit : Octokit)
  (company : CompanyInput) (since : string) :
  let outcome := (analyzeCompany URL_parse api octokit company since).2 in
  (extractOrgName URL_parse (github_org_url company) = None ->
   outcome = Ok (notApplicable company (Some "Invalid GitHub URL"))) /\
  (forall orgName,
     extractOrgName URL_parse (github_org_url company) = Some orgName ->
     (forall e, listOrgRepos api octokit orgName = Throw e ->
                outcome = Throw e) /\
     (listOrgRepos api octokit orgName = Ok [] ->
      outcome = Ok (notApplicable company (Some "No repos found"))) /\
     (forall repos,
        listOrgRepos api octokit orgName = Ok repos -> repos <> [] ->
        let repoResults := countRepo api octokit orgName since <$> repos in
        repoResults <> [] /\
        exists mostActive,
          JS.reduce moreActive repoResults = Some mostActive /\
          forall e, outcome = Throw e ->
            getTopContributor api octokit orgName (repoName mostActive) since
            = Throw e)).
Proof.
  intros outcome. subst outcome. split.
  - intros Horg. unfold analyzeCompany. by rewrite Horg.
  - intros orgName Horg. split_and!.
    + intros e Hrepos. unfold analyzeCompany.
      rewrite Horg, (extractOrgName_nonempty _ _ Horg), Hrepos. done.
    + intros Hrepos. unfold analyzeCompany.
      by rewrite Horg, (extractOrgName_nonempty _ _ Horg), Hrepos.
    + intros repos Hrepos Hne repoResults.
      assert (Hres : repoResults <> []) by (subst repoResults; by destruct repos).
      split; [done|].
      destruct (reduce_moreActive repoResults Hres)
        as (mostActive & l & r & Hred & _).
      exists mostActive. split; [done|]. intros e.
      rewrite (analyzeCompany_selected _ _ _ _ _ _ Horg Hrepos Hred).
      destruct (commitCount mostActive =? 0); [done|].
      destruct (getTopContributor api octokit orgName (repoName mostActive) since);
        [intros H; discriminate H | by intros [= ->]].
Qed.

End Pipeline.

Lemma analyzeCompany_winner_witness :
  (analyzeCompany sample_URL_parse sample_api (createOctokit "t")
     (sample_company "Acme" "acme") "s").2
  = Ok {| r_company_name := "Acme";
          r_github_org_url := "https://github.com/acme";
          most_active_repo := "y";
          most_active_repo_url := "https://github.com/acme/y";
          commit_count := 10;
          top_contributor := "bob";
          error := None |}.
Proof.
  destruct (analyzeCompany_winner sample_URL_parse sample_api
              (createOctokit "t") (sample_company "Acme" "acme") "s" "acme"
              [sample_repo "acme" "x" false; sample_repo "acme" "y" false;
               sample_repo "acme" "z" false])
    as (mostActive & l & r & Hred & _ & _ & _ & _ & _ & Hpos);
    [reflexivity | reflexivity | done |].
  vm_compute in Hred. injection Hred as <-.
  exact (Hpos ltac:(discriminate)).
Defined.

(** The scenario of the specification: [x] has 3 commits and [y] has 10;
    the count of [z] fails and is taken as 0. *)
Example analyzeCompany_acme :
  (analyzeCompany sample_URL_parse sample_api (createOctokit "t")
     (sample_company "Acme" "acme") "s").2
  = Ok {| r_company_name := "Acme";
          r_github_org_url := "https://github.com/acme";
          most_active_repo := "y";
          most_active_repo_url := "https://github.com/acme/y";
          commit_count := 10;
          top_contributor := "bob";
          error := None |}.
Proof. reflexivity. Qed.

Lemma analyzeCompany_count_failure_isolated_witness :
  getRepoCommitCount sample_api (createOctokit "t") "acme" "z" "s"
  = Throw (RequestError (Some 502) "Bad Gateway") /\
  (exists rc,
     (countRepo sample_api (createOctokit "t") "acme" "s"
      <$> [sample_repo "acme" "x" false; sample_repo "acme" "y" false;
           sample_repo "acme" "z" false]) !! 2 = Some rc /\
     repoName rc = "z" /\ commitCount rc = 0) /\
  match (analyzeCompany sample_URL_parse sample_api (createOctokit "t")
           (sample_company "Acme" "acme") "s").2 with
  | Ok r => error r = None /\ 3 <= commit_count r /\ 10 <= commit_count r
  | Throw _ => False
  end.
Proof.
  destruct (analyzeCompany_count_failure_isolated sample_URL_parse sample_api
              (createOctokit "t") (sample_company "Acme" "acme") "s" "acme"
              [sample_repo "acme" "x" false; sample_repo "acme" "y" false;
               sample_repo "acme" "z" false])
    as (_ & Hentries & Hres); [reflexivity | reflexivity | done |].
  split; [reflexivity|]. split.
  - destruct (Hentries 2 (sample_repo "acme" "z" false) eq_refl)
      as (rc & Hrc & Hname & _ & Hcount).
    exists rc. split_and!; [exact Hrc | exact Hname | exact Hcount].
  - destruct (analyzeCompany _ _ _ _ _).2 as [r|e] eqn:Hout;
      [|vm_compute in Hout; discriminate Hout].
    destruct Hres as (Herr & Hmax & _). split_and!; [exact Herr | |].
    + apply (Hmax (sample_repo "acme" "x" false)); [|reflexivity].
      apply elem_of_cons. by left.
    + apply (Hmax (sample_repo "acme" "y" false)); [|reflexivity].
      apply elem_of_cons. right. apply elem_of_cons. by left.
Defined.

Lemma analyzeCompany_reduce_total_witness :
  exists mostActive,
    JS.reduce moreActive
      (countRepo sample_api (createOctokit "t") "acme" "s"
       <$> [sample_repo "acme" "x" false; sample_repo "acme" "y" false;
            sample_repo "acme" "z" false])
    = Some mostActive.
Proof.
  destruct (analyzeCompany_reduce_total sample_URL_parse sample_api
              (createOctokit "t") (sample_company "Acme" "acme") "s")
    as [_ H].
  destruct (H "acme" eq_refl) as (_ & _ & Hreached).
  destruct (Hreached _ eq_refl ltac:(done)) as (_ & mostActive & Hred & _).
  by exists mostActive.
Defined.

(** ** The batch scheduler *)

(** *** Interleaving *)

Lemma concat_insert_step {A} (tasks : list (list A)) (k : nat) (step : A)
  (rest : list A) :
  tasks !! k = Some (step :: rest) ->
  concat tasks ≡ₚ step :: concat (<[k := rest]> tasks).
Proof.
  revert k. induction tasks as [|t tasks IH]; intros [|k] Hk; simpl in *;
    try done.
  - by injection Hk as ->.
  - rewrite (IH _ Hk). by rewrite Permutation_middle.
Qed.

(** An interleaving reorders the steps of the tasks and loses none. *)
Lemma interleave_perm {A} (sched : list nat) (tasks : list (list A)) :
  interleave sched tasks ≡ₚ concat tasks.
Proof.
  revert tasks. induction sched as [|k sched IH]; intros tasks; simpl; [done|].
  destruct (tasks !! k) as [[|step rest]|] eqn:Hk; try apply IH.
  rewrite IH. symmetry. by apply concat_insert_step.
Qed.

Lemma elem_of_concat {A} (x : A) (ls : list (list A)) :
  x ∈ concat ls -> exists l, x ∈ l /\ l ∈ ls.
Proof.
  induction ls as [|l ls IH]; simpl; [by intros ?%elem_of_nil|].
  intros [Hx|Hx]%elem_of_app.
  - exists l. split; [done|]. apply elem_of_cons. by left.
  - destruct (IH Hx) as (l' & ? & ?). exists l'. split; [done|].
    apply elem_of_cons. by right.
Qed.

Lemma emitted_app t1 t2 : emitted (t1 ++ t2) = emitted t1 ++ emitted t2.
Proof. apply omap_app. Qed.

Lemma settled_app t1 t2 : settled (t1 ++ t2) = settled t1 ++ settled t2.
Proof. apply omap_app. Qed.

Lemma emitted_Emit evs : emitted (Emit <$> evs) = evs.
Proof. induction evs as [|e evs IH]; simpl; [done | by f_equal]. Qed.

Lemma settled_Emit evs : settled (Emit <$> evs) = [].
Proof. induction evs as [|e evs IH]; simpl; done. Qed.

(** *** The shape of the emitted stream *)

Lemma monotone_app (evs1 evs2 : list ProgressEvent) (mid : nat) :
  monotone evs1 -> monotone evs2 ->
  (forall ev x, ev ∈ evs1 -> completed ev = Some x -> x <= mid) ->
  (forall ev x, ev ∈ evs2 -> completed ev = Some x -> mid <= x) ->
  monotone (evs1 ++ evs2).
Proof.
  intros H1 H2 Hle Hge i j ei ej x y Hij Hi Hj Hx Hy.
  rewrite lookup_app in Hi, Hj.
  destruct (evs1 !! i) as [x'|] eqn:Hi1; destruct (evs1 !! j) as [y'|] eqn:Hj1;
    simplify_eq/=.
  - by eapply (H1 i j).
  - pose proof (Hle _ _ (list_elem_of_lookup_2 _ _ _ Hi1) Hx).
    pose proof (Hge _ _ (list_elem_of_lookup_2 _ _ _ Hj) Hy). lia.
  - apply lookup_lt_Some in Hj1. apply lookup_ge_None in Hi1. lia.
  - eapply (H2 (i - length evs1) (j - length evs1)); [|done..].
    apply lookup_ge_None in Hi1, Hj1. lia.
Qed.

Lemma eventInRange_bounds (tot c n : nat) (evs : list ProgressEvent) ev x :
  Forall (eventInRange tot c n) evs -> ev ∈ evs -> completed ev = Some x ->
  c <= x <= c + n.
Proof.
  rewrite Forall_forall. intros Hall Hin Hx.
  destruct (Hall _ Hin) as (_ & _ & x' & Hx' & Hr & _). congruence.
Qed.

Lemma streamInv_nil (tot c : nat) : streamInv [] tot c [].
Proof.
  split_and!; [done | | done | ].
  - intros i j ei ej x y _ Hi. done.
  - intros j ev Hj. done.
Qed.

Lemma streamInv_app (cs1 cs2 : list CompanyInput) (tot c : nat)
  (evs1 evs2 : list ProgressEvent) :
  streamInv cs1 tot c evs1 ->
  streamInv cs2 tot (c + length cs1) evs2 ->
  streamInv (cs1 ++ cs2) tot c (evs1 ++ evs2).
Proof.
  intros (Hr1 & Hm1 & Hl1 & Ht1) (Hr2 & Hm2 & Hl2 & Ht2).
  split_and!.
  - apply Forall_app. split.
    + eapply Forall_impl; [exact Hr1|].
      intros ev (Hd & Ht & x & Hx & Hrange & Hp). rewrite length_app.
      split_and!; [done | done |]. exists x. split_and!; [done | lia | lia |].
      intros Hprog. specialize (Hp Hprog). lia.
    + eapply Forall_impl; [exact Hr2|].
      intros ev (Hd & Ht & x & Hx & Hrange & Hp). rewrite length_app.
      split_and!; [done | done |]. exists x. split_and!; [done | lia | lia |].
      intros Hprog. specialize (Hp Hprog). lia.
  - apply (monotone_app _ _ (c + length cs1)); [done | done | |].
    + intros ev x Hin Hx.
      pose proof (eventInRange_bounds _ _ _ _ _ _ Hr1 Hin Hx). lia.
    + intros ev x Hin Hx.
      pose proof (eventInRange_bounds _ _ _ _ _ _ Hr2 Hin Hx). lia.
  - by rewrite filter_app, !length_app, Hl1, Hl2.
  - intros j ev. rewrite filter_app, lookup_app.
    destruct (filter terminal evs1 !! j) as [ev'|] eqn:Hj1.
    + intros [= <-]. destruct (Ht1 _ _ Hj1) as (c' & Hc' & Hterm & Hcompl).
      exists c'. split_and!; [|done|done]. by apply lookup_app_l_Some.
    + intros Hj2. destruct (Ht2 _ _ Hj2) as (c' & Hc' & Hterm & Hcompl).
      apply lookup_ge_None in Hj1. rewrite Hl1 in Hj1.
      exists c'. split_and!; [|done|].
      * rewrite lookup_app_r by done. by rewrite Hl1 in Hc'.
      * rewrite Hcompl. f_equal. rewrite Hl1. lia.
Qed.

Lemma filter_terminal_progress (c tot : nat) (prog : list ProgressEvent) :
  Forall (progressAt c tot) prog -> filter terminal prog = [].
Proof.
  induction 1 as [|ev prog (Ht & _) _ IH]; [done|].
  rewrite filter_cons_False; [done|]. unfold terminal. rewrite Ht.
  by intros [|].
Qed.

Lemma filter_terminal_all (term : list ProgressEvent) :
  Forall terminal term -> filter terminal term = term.
Proof.
  induction 1 as [|ev term Ht _ IH]; [done|].
  by rewrite filter_cons_True, IH.
Qed.

(** The events of one window: progress events at the counter [c], then
    one terminal event per entry of the batch, in the order of the
    batch. *)
Lemma streamInv_window (batch : list CompanyInput) (tot c : nat)
  (prog term : list ProgressEvent) :
  batch <> [] ->
  Forall (progressAt c tot) prog ->
  length term = length batch ->
  (forall j ev, term !! j = Some ev ->
     exists c', batch !! j = Some c' /\ terminalFor c' ev /\
       completed ev = Some (c + j + 1) /\ total ev = Some tot) ->
  streamInv batch tot c (prog ++ term).
Proof.
  intros Hne Hprog Hlen Hterm.
  assert (Hpos : 0 < length batch) by (destruct batch; simpl; [done | lia]).
  assert (Hall : Forall terminal term).
  { apply Forall_lookup. intros j ev Hj.
    by destruct (Hterm _ _ Hj) as (_ & _ & [? _] & _). }
  split_and!.
  - apply Forall_app. split.
    + eapply Forall_impl; [exact Hprog|]. intros ev (Ht & Hc & Htot).
      split_and!; [by rewrite Ht | done |]. exists c.
      split_and!; [done | lia | lia | lia].
    + apply Forall_lookup. intros j ev Hj.
      destruct (Hterm _ _ Hj) as (c' & Hc' & [Ht _] & Hcompl & Htot).
      apply lookup_lt_Some in Hc'.
      split_and!; [destruct Ht as [-> | ->]; done | done |].
      exists (c + j + 1). split_and!; [done | lia | lia |].
      destruct Ht as [-> | ->]; done.
  - apply (monotone_app _ _ c).
    + intros i j ei ej x y _ Hi Hj Hx Hy. rewrite Forall_lookup in Hprog.
      destruct (Hprog _ _ Hi) as (_ & Hci & _).
      destruct (Hprog _ _ Hj) as (_ & Hcj & _). simplify_eq/=. lia.
    + intros i j ei ej x y Hij Hi Hj Hx Hy.
      destruct (Hterm _ _ Hi) as (_ & _ & _ & Hci & _).
      destruct (Hterm _ _ Hj) as (_ & _ & _ & Hcj & _). simplify_eq/=. lia.
    + intros ev x Hin Hx. rewrite Forall_forall in Hprog.
      destruct (Hprog _ Hin) as (_ & Hc & _). simplify_eq/=. lia.
    + intros ev x [j Hj]%list_elem_of_lookup_1 Hx.
      destruct (Hterm _ _ Hj) as (_ & _ & _ & Hc & _). simplify_eq/=. lia.
  - rewrite filter_app, (filter_terminal_progress _ _ _ Hprog).
    by rewrite filter_terminal_all.
  - rewrite filter_app, (filter_terminal_progress _ _ _ Hprog).
    rewrite filter_terminal_all by done. simpl. intros j ev Hj.
    destruct (Hterm _ _ Hj) as (c' & ? & ? & ? & ?). by exists c'.
Qed.

(** *** The reporting loop *)

Lemma terminalFor_fulfilled (c : CompanyInput) (value : CompanyResult)
  (completed tot : nat) :
  r_company_name value = company_name c ->
  r_github_org_url value = github_org_url c ->
  terminalFor c (fulfilledEvent value completed tot).
Proof.
  intros Hn Hu. split_and!.
  - unfold terminal. simpl. destruct (truthy (error value)); auto.
  - simpl. by rewrite Hn.
  - by exists value.
Qed.

Lemma terminalFor_rejected (batch : list CompanyInput) (k : nat)
  (c : CompanyInput) (reason : Thrown) (completed tot : nat) :
  batch !! k = Some c ->
  terminalFor c (rejectedEvent batch k reason completed tot).
Proof.
  intros Hk. unfold rejectedEvent. rewrite Hk. simpl. split_and!.
  - by right.
  - done.
  - by eexists.
Qed.

Lemma reportLoop_spec (batch : list CompanyInput)
  (results : list (Res CompanyResult)) (k c tot : nat) :
  (forall j res, results !! j = Some res ->
     exists c', batch !! (k + j) = Some c' /\
       forall value, res = Ok value ->
         r_company_name value = company_name c' /\
         r_github_org_url value = github_org_url c') ->
  (reportLoop batch results k c tot).2 = c + length results /\
  length (reportLoop batch results k c tot).1 = length results /\
  forall j ev, (reportLoop batch results k c tot).1 !! j = Some ev ->
    exists c', batch !! (k + j) = Some c' /\ terminalFor c' ev /\
      completed ev = Some (c + j + 1) /\ total ev = Some tot.
Proof.
  revert k c. induction results as [|res results IH]; intros k c Hres; simpl.
  - split_and!; [lia | done | done].
  - destruct (IH (S k) (S c)) as (Hc & Hlen & Hevs).
    { intros j res' Hj. destruct (Hres (S j) res' Hj) as (c' & Hc' & Hv).
      exists c'. split; [|done]. by replace (S k + j) with (k + S j) by lia. }
    split_and!; [lia | by rewrite Hlen |].
    intros [|j] ev Hj; simpl in Hj.
    + injection Hj as <-. destruct (Hres 0 res eq_refl) as (c' & Hc' & Hv).
      exists c'. split; [done|]. rewrite Nat.add_0_r in *.
      destruct res as [value | reason].
      * destruct (Hv value eq_refl) as [Hn Hu].
        split_and!; [by apply terminalFor_fulfilled | simpl | done].
        f_equal. lia.
      * split_and!; [by apply terminalFor_rejected | simpl | done].
        f_equal. lia.
    + destruct (Hevs _ _ Hj) as (c' & Hc' & Hterm & Hcompl & Htot).
      exists c'. replace (k + S j) with (S k + j) by lia.
      split_and!; [done | done | | done]. rewrite Hcompl. f_equal. lia.
Qed.

(** *** Windows *)

Lemma settled_tasks (f : nat -> nat) (g : nat -> CompanyInput -> list Action)
  (batch : list CompanyInput) :
  (forall k company, settled (g k company) = []) ->
  settled (concat (imap (fun k company => g k company ++ [Settle (f k)]) batch))
  = f <$> seq 0 (length batch).
Proof.
  revert f g. induction batch as [|company batch IH]; intros f g Hg; [done|].
  rewrite imap_cons. simpl. rewrite settled_app, settled_app, Hg. simpl.
  f_equal. rewrite <- fmap_S_seq, <- list_fmap_compose.
  apply (IH (f ∘ S) (fun k => g (S k))). intros k c. apply Hg.
Qed.

Section Scheduler.

Variable URL_parse : string -> option URL.
Variable net : nat -> Octokit -> Remote.
Variable sched : nat -> list nat.

Lemma analyzeCompany_names (api : Octokit -> Remote) (octokit : Octokit)
  (company : CompanyInput) (since : string) (value : CompanyResult) :
  (analyzeCompany URL_parse api octokit company since).2 = Ok value ->
  r_company_name value = company_name company /\
  r_github_org_url value = github_org_url company.
Proof.
  unfold analyzeCompany. repeat case_match; simpl; intros [= <-]; done.
Qed.

Lemma runWindow_emitted (octokit : Octokit) (since : string)
  (i c tot : nat) (batch : list CompanyInput) :
  emitted (runWindow URL_parse net sched octokit since i c tot batch).1
  = ((fun company => analyzingEvent company c tot) <$> batch)
    ++ emitted (interleave (sched i)
                  (imap (taskSteps URL_parse net octokit since i c tot) batch))
    ++ (reportLoop batch
          (imap (fun k company =>
                   (analyzeCompany URL_parse (net (i + k)) octokit company
                      since).2) batch) 0 c tot).1.
Proof.
  unfold runWindow. cbn [fst]. rewrite !emitted_app.
  change (map ?f ?l) with (f <$> l).
  rewrite (list_fmap_compose (fun company => analyzingEvent company c tot) Emit).
  by rewrite !emitted_Emit.
Qed.

Lemma running_progress (octokit : Octokit) (since : string)
  (i c tot : nat) (batch : list CompanyInput) :
  Forall (progressAt c tot)
    (emitted (interleave (sched i)
                (imap (taskSteps URL_parse net octokit since i c tot) batch))).
Proof.
  unfold emitted. rewrite interleave_perm. apply Forall_forall. intros ev.
  rewrite list_elem_of_omap. intros (a & Ha & Hev).
  apply elem_of_concat in Ha as (task & Ha & Htask).
  apply elem_of_lookup_imap_1 in Htask as (k & company & -> & _).
  unfold taskSteps in Ha. apply elem_of_app in Ha as [Ha|Ha].
  - change (map ?f ?l) with (f <$> l) in Ha.
    apply list_elem_of_fmap in Ha as (msg & -> & _).
    injection Hev as <-. done.
  - apply list_elem_of_singleton in Ha as ->. done.
Qed.

(** Every entry of a window settles exactly once before the window is
    reported, in an order the schedule decides. *)
Lemma running_settled (octokit : Octokit) (since : string)
  (i c tot : nat) (batch : list CompanyInput) :
  settled (interleave (sched i)
             (imap (taskSteps URL_parse net octokit since i c tot) batch))
  ≡ₚ seq 0 (length batch).
Proof.
  unfold settled at 1. rewrite interleave_perm.
  unfold taskSteps.
  rewrite (settled_tasks id
             (fun k company =>
                map (fun message => Emit (callbackEvent company message c tot))
                  (analyzeCompany URL_parse (net (i + k)) octokit company
                     since).1)).
  - by rewrite list_fmap_id.
  - intros k company.
    change (map ?f ?l) with (f <$> l).
    rewrite (list_fmap_compose (fun m => callbackEvent company m c tot) Emit).
    apply settled_Emit.
Qed.

Lemma runWindow_spec (octokit : Octokit) (since : string)
  (i c tot : nat) (batch : list CompanyInput) :
  batch <> [] ->
  (runWindow URL_parse net sched octokit since i c tot batch).2
  = c + length batch /\
  streamInv batch tot c
    (emitted (runWindow URL_parse net sched octokit since i c tot batch).1).
Proof.
  intros Hne.
  destruct (reportLoop_spec batch
              (imap (fun k company =>
                       (analyzeCompany URL_parse (net (i + k)) octokit company
                          since).2) batch) 0 c tot)
    as (Hc & Hlen & Hevs).
  { intros j res. rewrite list_lookup_imap.
    destruct (batch !! j) as [company|] eqn:Hj; [|done]. simpl.
    intros [= <-]. exists company. split; [done|].
    intros value Hv. by eapply analyzeCompany_names. }
  rewrite length_imap in Hc, Hlen. split; [exact Hc|].
  rewrite runWindow_emitted, app_assoc. apply streamInv_window.
  - done.
  - apply Forall_app. split; [|apply running_progress].
    apply Forall_fmap, Forall_forall. intros company _. done.
  - done.
  - intros j ev Hj. destruct (Hevs _ _ Hj) as (c' & ? & ? & ? & ?).
    by exists c'.
Qed.

Lemma windowsLoop_spec (octokit : Octokit) (since : string)
  (companies : list CompanyInput) (tot i c : nat) :
  streamInv (drop i companies) tot c
    (emitted (windowsLoop URL_parse net sched octokit since companies tot i c)).
Proof.
  funelim (windowsLoop URL_parse net sched octokit since companies tot i c).
  - rewrite emitted_app.
    set (batch := JS.slice i (i + BATCH_SIZE) companies) in *.
    assert (Hbatch : batch = take BATCH_SIZE (drop i companies)).
    { unfold batch, JS.slice. f_equal. lia. }
    assert (Hne : batch <> []).
    { rewrite Hbatch. intros Hnil%(f_equal length).
      rewrite length_take, length_drop in Hnil. unfold BATCH_SIZE in Hnil.
      cbn [length] in Hnil. lia. }
    match goal with
    | |- streamInv _ ?tot' ?c' _ =>
        destruct (runWindow_spec octokit since i c' tot' batch Hne)
          as [Hc Hinv]
    end.
    rewrite <- (take_drop BATCH_SIZE (drop i companies)), <- Hbatch.
    apply streamInv_app; [exact Hinv|].
    rewrite drop_drop, <- Hc. apply H.
  - rewrite drop_ge by lia. apply streamInv_nil.
Qed.

End Scheduler.

Section StreamProperties.

Variable URL_parse : string -> option URL.
Variable net : nat -> Octokit -> Remote.
Variable sched : nat -> list nat.

Lemma processCompanies_shape (token since : string)
  (companies : list CompanyInput) :
  exists before,
    processCompanies URL_parse net sched token since companies
    = before ++ [doneEvent (length companies)] /\
    streamInv companies (length companies) 0 before.
Proof.
  eexists. split.
  - unfold processCompanies, processCompanies_trace.
    rewrite emitted_app. reflexivity.
  - rewrite <- (drop_0 companies) at 1. apply windowsLoop_spec.
Qed.

Lemma filter_terminal_done (before : list ProgressEvent) (n : nat) :
  filter terminal (before ++ [doneEvent n]) = filter terminal before.
Proof.
  rewrite filter_app, filter_cons_False, filter_nil, app_nil_r; [done|].
  by intros [|].
Qed.

(** C1: for a batch of [N] companies the emitted stream holds exactly [N]
    terminal events, one for each input and in the order of the inputs,
    and exactly one ["done"] event, which is the last event of the stream
    and carries [completed = total = N]. *)
Theorem processCompanies_one_terminal_each_then_done (token since : string)
  (companies : list CompanyInput) :
  let events := processCompanies URL_parse net sched token since companies in
  let N := length companies in
  Forall2 terminalFor companies (filter terminal events) /\
  length (filter terminal events) = N /\
  length (filter (fun ev => type ev = T_done) events) = 1 /\
  exists before,
    events = before ++ [doneEvent N] /\
    Forall (fun ev => type ev <> T_done) before /\
    type (doneEvent N) = T_done /\
    completed (doneEvent N) = Some N /\ total (doneEvent N) = Some N.
Proof.
  intros events N. subst events N.
  destruct (processCompanies_shape token since companies)
    as (before & -> & Hrange & _ & Hlen & Hterm).
  assert (Hnodone : Forall (fun ev => type ev <> T_done) before).
  { eapply Forall_impl; [exact Hrange|]. by intros ev (? & _). }
  rewrite filter_terminal_done. split_and!.
  - apply Forall2_same_length_lookup_2; [by rewrite Hlen|].
    intros j c ev Hc Hev. destruct (Hterm _ _ Hev) as (c' & Hc' & Ht & _).
    by simplify_eq/=.
  - done.
  - rewrite filter_app, length_app.
    replace (filter _ before) with (@nil ProgressEvent); [done|].
    symmetry. clear -Hnodone. induction Hnodone as [|ev evs Hev _ IH]; [done|].
    by rewrite filter_cons_False.
  - exists before. split_and!; done.
Qed.

(** C7 (as amended): along the emitted stream [completed] never
    decreases; a progress event carries a value below [total]; the
    [j]-th terminal event carries [j]; so an event carries
    [completed = total] only when it is the last terminal event or the
    ["done"] event. *)
Theorem processCompanies_completed_monotone (token since : string)
  (companies : list CompanyInput) :
  let events := processCompanies URL_parse net sched token since companies in
  let N := length companies in
  monotone events /\
  (forall ev, ev ∈ events ->
     total ev = Some N /\ exists x, completed ev = Some x /\ x <= N) /\
  (forall ev x, ev ∈ events -> type ev = T_progress ->
     completed ev = Some x -> x < N) /\
  (forall j ev, filter terminal events !! j = Some ev ->
     completed ev = Some (j + 1)) /\
  (forall ev, ev ∈ events -> completed ev = total ev ->
     type ev = T_done \/
     (0 < N /\ filter terminal events !! (N - 1) = Some ev)).
Proof.
  intros events N. subst events N.
  destruct (processCompanies_shape token since companies)
    as (before & -> & Hrange & Hmono & Hlen & Hterm).
  rewrite filter_terminal_done.
  assert (Hin : forall ev, ev ∈ before ++ [doneEvent (length companies)] ->
            (ev ∈ before /\ eventInRange (length companies) 0
                              (length companies) ev) \/
            ev = doneEvent (length companies)).
  { intros ev [Hev|Hev]%elem_of_app.
    - left. split; [done|]. rewrite Forall_forall in Hrange. by apply Hrange.
    - right. by apply list_elem_of_singleton in Hev. }
  split_and!.
  - apply (monotone_app _ _ (length companies)); [done | | |].
    + intros [|i] [|j] ei ej x y Hij Hi Hj Hx Hy; simplify_eq/=. lia.
    + intros ev x Hev Hx.
      pose proof (eventInRange_bounds _ _ _ _ _ _ Hrange Hev Hx). lia.
    + intros ev x ->%list_elem_of_singleton [= <-]. done.
  - intros ev [[_ (_ & Htot & x & Hx & Hr & _)] | ->]%Hin.
    + split; [done|]. exists x. split; [done | lia].
    + split; [done|]. by exists (length companies).
  - intros ev x [[_ (_ & _ & x' & Hx' & _ & Hp)] | ->]%Hin Htype Hx.
    + specialize (Hp Htype). simplify_eq/=. lia.
    + done.
  - intros j ev Hj. by destruct (Hterm _ _ Hj) as (_ & _ & _ & ->).
  - intros ev [[Hev (Hnd & Htot & x & Hx & _ & Hp)] | ->]%Hin Heq.
    + right. rewrite Hx, Htot in Heq. injection Heq as ->.
      assert (Hterminal : terminal ev).
      { unfold terminal. destruct (type ev) eqn:Ht; auto.
        - specialize (Hp eq_refl). lia.
        - done. }
      assert (Hfil : ev ∈ filter terminal before)
        by (by apply list_elem_of_filter).
      apply list_elem_of_lookup_1 in Hfil as [j Hj].
      destruct (Hterm _ _ Hj) as (c' & Hc' & _ & Hcj).
      apply lookup_lt_Some in Hc'. rewrite Hx in Hcj.
      injection Hcj as Hcj. split; [lia|].
      by replace (length companies - 1) with j by lia.
    + by left.
Qed.

(** C8 (as amended): in a window the counter is incremented once for
    each entry; every entry settles exactly once before anything is
    reported; and the terminal events follow, one for each entry, in the
    order of the entries in the batch, whatever the order in which the
    entries settled. *)
Theorem runWindow_reports_in_input_order (octokit : Octokit)
  (since : string) (i c tot : nat) (batch : list CompanyInput) :
  let w := runWindow URL_parse net sched octokit since i c tot batch in
  w.2 = c + length batch /\
  exists before reported,
    w.1 = before ++ (Emit <$> reported) /\
    settled before ≡ₚ seq 0 (length batch) /\
    Forall (progressAt c tot) (emitted before) /\
    length reported = length batch /\
    forall k ev, reported !! k = Some ev ->
      exists company,
        batch !! k = Some company /\ terminalFor company ev /\
        completed ev = Some (c + k + 1).
Proof.
  intros w. subst w.
  destruct (reportLoop_spec batch
              (imap (fun k company =>
                       (analyzeCompany URL_parse (net (i + k)) octokit company
                          since).2) batch) 0 c tot)
    as (Hc & Hlen & Hevs).
  { intros j res. rewrite list_lookup_imap.
    destruct (batch !! j) as [company|] eqn:Hj; [|done]. simpl.
    intros [= <-]. exists company. split; [done|].
    intros value Hv. by eapply analyzeCompany_names. }
  rewrite length_imap in Hc, Hlen. split; [exact Hc|].
  eexists _, _. split_and!.
  - unfold runWindow. cbn [fst]. rewrite app_assoc. reflexivity.
  - rewrite settled_app. change (map ?f ?l) with (f <$> l).
    rewrite (list_fmap_compose (fun company => analyzingEvent company c tot)
               Emit), settled_Emit.
    apply running_settled.
  - rewrite emitted_app. apply Forall_app. split; [|apply running_progress].
    change (map ?f ?l) with (f <$> l).
    rewrite (list_fmap_compose (fun company => analyzingEvent company c tot)
               Emit), emitted_Emit.
    apply Forall_fmap, Forall_forall. intros company _. done.
  - exact Hlen.
  - intros k ev Hk. destruct (Hevs _ _ Hk) as (c' & ? & ? & ? & ?).
    by exists c'.
Qed.

End StreamProperties.

(** C7 (as stated) fails: the last terminal event already carries
    [completed = total]. *)
Lemma processCompanies_completed_total_counterexample :
  ~ (forall i ev,
       processCompanies sample_URL_parse (fun _ => sample_api) (fun _ => [])
         "token" "2024-01-01T00:00:00.000Z"
         [{| company_name := "B"; github_org_url := "nonsense" |}] !! i
       = Some ev ->
       completed ev = total ev -> type ev = T_done).
Proof.
  intros H. specialize (H 1 _ eq_refl eq_refl). discriminate H.
Qed.


(** C8 (as stated) fails: [B] settles first, since its URL is rejected
    without a remote call, and is still reported after [Acme]. *)
Lemma runWindow_settlement_order_counterexample :
  let batch :=
    [sample_company "Acme" "acme";
     {| company_name := "B"; github_org_url := "nonsense" |}] in
  let w :=
    runWindow sample_URL_parse (fun _ => sample_api) (fun _ => [0; 1])
      (createOctokit "token") "2024-01-01T00:00:00.000Z" 0 0 2 batch in
  settled w.1 = [1; 0] /\
  company <$> filter terminal (emitted w.1) = [Some "Acme"; Some "B"] /\
  company <$> filter terminal (emitted w.1)
  <> (fun k => company_name <$> batch !! k) <$> settled w.1.
Proof.
  split_and!; [by vm_compute | by vm_compute |].
  vm_compute. intros H. discriminate H.
Qed.

(** *** Dependence on the remote answers only *)

Lemma countLoop_ext (f g : nat -> Res (list Commit)) (count page : nat) :
  (forall p, f p = g p) -> countLoop f count page = countLoop g count page.
Proof.
  intros Hfg. funelim (countLoop f count page);
    rewrite (countLoop_equation_1 g); clear Heqcall; replay Hfg; try done.
  by rewrite (H g Hfg).
Qed.

Lemma tallyLoop_ext (f g : nat -> Res (list Commit)) (m : AuthorCounts)
  (page : nat) :
  (forall p, f p = g p) -> tallyLoop f m page = tallyLoop g m page.
Proof.
  intros Hfg. funelim (tallyLoop f m page);
    rewrite (tallyLoop_equation_1 g); clear Heqcall; replay Hfg; try done.
  by rewrite (H g Hfg).
Qed.

Section Agreement.

Variable URL_parse : string -> option URL.

Lemma analyzeCompany_agree (api1 api2 : Octokit -> Remote)
  (o1 o2 : Octokit) (company : CompanyInput) (since : string) :
  Remote_agree (api1 o1) (api2 o2) ->
  analyzeCompany URL_parse api1 o1 company since
  = analyzeCompany URL_parse api2 o2 company since.
Proof.
  intros (Horg & Huser & Hcommits).
  assert (Hrepos : forall orgName,
            listOrgRepos api1 o1 orgName = listOrgRepos api2 o2 orgName).
  { intros orgName. unfold listOrgRepos. by rewrite Horg, Huser. }
  assert (Hcount : forall orgName repo,
            countRepo api1 o1 orgName since repo
            = countRepo api2 o2 orgName since repo).
  { intros orgName repo.
    unfold countRepo, getRepoCommitCount, getRepoCommitCount_calls.
    by rewrite (countLoop_ext _ _ 0 1 (Hcommits Counting orgName (name repo) since)). }
  assert (Htop : forall orgName repo,
            getTopContributor api1 o1 orgName repo since
            = getTopContributor api2 o2 orgName repo since).
  { intros orgName repo. unfold getTopContributor.
    by rewrite (tallyLoop_ext _ _ [] 1 (Hcommits Tallying orgName repo since)). }
  unfold analyzeCompany.
  destruct (extractOrgName URL_parse (github_org_url company)) as [orgName|];
    [|done].
  rewrite Hrepos.
  destruct (JS.is_empty orgName); [done|].
  destruct (listOrgRepos api2 o2 orgName) as [repos|e]; [|done].
  destruct (length repos =? 0); [done|]. simpl.
  rewrite (map_ext _ _ (Hcount orgName)).
  destruct (JS.reduce moreActive _) as [mostActive|]; [|done].
  by rewrite Htop.
Qed.

End Agreement.

Section TokenIndependence.

Variable URL_parse : string -> option URL.
Variable sched : nat -> list nat.

Lemma runWindow_agree (net1 net2 : nat -> Octokit -> Remote)
  (o1 o2 : Octokit) (since : string) (i c tot : nat)
  (batch : list CompanyInput) :
  (forall j, Remote_agree (net1 j o1) (net2 j o2)) ->
  runWindow URL_parse net1 sched o1 since i c tot batch
  = runWindow URL_parse net2 sched o2 since i c tot batch.
Proof.
  intros Hnet. unfold runWindow.
  assert (Hsteps :
    imap (taskSteps URL_parse net1 o1 since i c tot) batch
    = imap (taskSteps URL_parse net2 o2 since i c tot) batch).
  { apply imap_ext. intros k company _. unfold taskSteps.
    by rewrite (analyzeCompany_agree URL_parse (net1 (i + k)) (net2 (i + k))
                  o1 o2 company since (Hnet (i + k))). }
  assert (Hresults :
    imap (fun k company =>
            (analyzeCompany URL_parse (net1 (i + k)) o1 company since).2) batch
    = imap (fun k company =>
              (analyzeCompany URL_parse (net2 (i + k)) o2 company since).2)
        batch).
  { apply imap_ext. intros k company _. simpl.
    by rewrite (analyzeCompany_agree URL_parse (net1 (i + k)) (net2 (i + k))
                  o1 o2 company since (Hnet (i + k))). }
  by rewrite Hsteps, Hresults.
Qed.

Lemma windowsLoop_agree (net1 net2 : nat -> Octokit -> Remote)
  (o1 o2 : Octokit) (since : string) (companies : list CompanyInput)
  (tot i c : nat) :
  (forall j, Remote_agree (net1 j o1) (net2 j o2)) ->
  windowsLoop URL_parse net1 sched o1 since companies tot i c
  = windowsLoop URL_parse net2 sched o2 since companies tot i c.
Proof.
  intros Hnet.
  funelim (windowsLoop URL_parse net1 sched o1 since companies tot i c);
    rewrite (windowsLoop_equation_1 URL_parse net2); clear Heqcall;
    unfold windowsLoop_unfold_clause_1; rewrite Heq; cbv beta iota zeta;
    [|done].
  rewrite <- (runWindow_agree net1 net2 octokit o2) by done.
  f_equal. by apply H.
Qed.

(** C9: the token reaches the events only through the answers of the
    remote. Two runs on the same input, at the same time and under the
    same schedule, whose tokens differ but whose remote answers agree,
    emit the same events. *)
Theorem processCompanies_token_independent
  (net1 net2 : nat -> Octokit -> Remote) (token1 token2 since : string)
  (companies : list CompanyInput) :
  (forall j, Remote_agree (net1 j (createOctokit token1))
                          (net2 j (createOctokit token2))) ->
  processCompanies URL_parse net1 sched token1 since companies
  = processCompanies URL_parse net2 sched token2 since companies.
Proof.
  intros Hnet. unfold processCompanies, processCompanies_trace.
  by rewrite (windowsLoop_agree net1 net2 _ _ _ _ _ _ _ Hnet).
Qed.

End TokenIndependence.

Lemma processCompanies_token_independent_witness :
  processCompanies sample_URL_parse (fun _ => sample_api) (fun _ => [1; 0])
    "ghp_first" "2024-01-01T00:00:00.000Z"
    [sample_company "Acme" "acme"; sample_company "Idle" "idle"]
  = processCompanies sample_URL_parse (fun _ => sample_api) (fun _ => [1; 0])
      "ghp_second" "2024-01-01T00:00:00.000Z"
      [sample_company "Acme" "acme"; sample_company "Idle" "idle"].
Proof.
  apply processCompanies_token_independent.
  intros j. split_and!; reflexivity.
Defined.

(** * Further properties of [src/lib/github.ts] *)

(** ** RepoDiscovery: [listOrgRepos] *)

Lemma match_404 {A} (n : nat) (a b : A) :
  match n with 404 => a | _ => b end = if n =? 404 then a else b.
Proof.
  do 404 (destruct n as [|n]; [reflexivity|]). destruct n; reflexivity.
Qed.

Section RepoDiscovery.

Variable api : Octokit -> Remote.

(** The catch clause of [listOrgRepos] by cases. *)
Lemma listOrgRepos_catch (octokit : Octokit) (orgName : string) (err : Thrown) :
  listForOrg (api octokit) orgName = Throw err ->
  (forall msg, err <> RequestError (Some 404) msg) ->
  listOrgRepos api octokit orgName = Throw err.
Proof.
  intros Horg Hne. unfold listOrgRepos. rewrite Horg.
  destruct err as [[status|] msg | msg |]; try done.
  rewrite match_404. destruct (status =? 404) eqn:Hs; [|done].
  apply Nat.eqb_eq in Hs as ->. by destruct (Hne msg).
Qed.

(** X1: when the organisation listing answers 404 and the user listing
    answers, [listOrgRepos] returns the repositories of the user listing
    that are not forks: no fork, every other repository, and in the order
    of the listing. *)
Theorem listOrgRepos_fallback_drops_forks (octokit : Octokit)
  (orgName msg : string) (data : list RepoListItem) :
  listForOrg (api octokit) orgName = Throw (RequestError (Some 404) msg) ->
  listForUser (api octokit) orgName = Ok data ->
  exists repos,
    listOrgRepos api octokit orgName = Ok repos /\
    (forall r, r ∈ repos <-> r ∈ data /\ fork r = false) /\
    repos `sublist_of` data.
Proof.
  intros Horg Huser. unfold listOrgRepos. rewrite Horg, Huser.
  eexists. split; [done|]. split.
  - intros r. rewrite list_elem_of_filter. tauto.
  - apply sublist_filter.
Qed.

(** X2: [listOrgRepos] fails exactly when the organisation listing fails
    with something else than a 404, which it passes on, or when it fails
    with a 404 and the user listing fails too, whose error it then passes
    on. A successful organisation listing is returned as it is, forks
    included. *)
Theorem listOrgRepos_failure (octokit : Octokit) (orgName : string) :
  (forall e, listOrgRepos api octokit orgName = Throw e <->
     (listForOrg (api octokit) orgName = Throw e /\
      forall msg, e <> RequestError (Some 404) msg) \/
     (exists msg,
        listForOrg (api octokit) orgName
        = Throw (RequestError (Some 404) msg) /\
        listForUser (api octokit) orgName = Throw e)) /\
  (forall data, listForOrg (api octokit) orgName = Ok data ->
     listOrgRepos api octokit orgName = Ok data).
Proof.
  split; [|intros data Horg; unfold listOrgRepos; by rewrite Horg].
  intros e. split.
  - destruct (listForOrg (api octokit) orgName) as [data|err] eqn:Horg.
    { unfold listOrgRepos. by rewrite Horg. }
    assert (Hcases : (exists msg, err = RequestError (Some 404) msg) \/
                     (forall msg, err <> RequestError (Some 404) msg)).
    { destruct err as [[status|] msg | msg |]; try (by right).
      destruct (decide (status = 404)) as [->|Hs]; [left; eauto|].
      right. by intros ? [=]. }
    destruct Hcases as [[msg ->]|Hne].
    + unfold listOrgRepos. rewrite Horg.
      destruct (listForUser (api octokit) orgName) as [data|err'] eqn:Huser;
        [done|].
      intros [= ->]. right. by exists msg.
    + rewrite (listOrgRepos_catch octokit orgName err Horg).
      * intros [= ->]. by left.
      * done.
  - intros [[Horg Hne]|(msg & Horg & Huser)].
    + by apply listOrgRepos_catch.
    + unfold listOrgRepos. by rewrite Horg, Huser.
Qed.

End RepoDiscovery.

Lemma listOrgRepos_fallback_drops_forks_witness :
  exists repos,
    listOrgRepos sample_api (createOctokit "t") "solo" = Ok repos /\
    (forall r, r ∈ repos <->
       r ∈ [sample_repo "solo" "fork" true; sample_repo "solo" "own" false]
       /\ fork r = false) /\
    repos `sublist_of`
      [sample_repo "solo" "fork" true; sample_repo "solo" "own" false].
Proof.
  apply (listOrgRepos_fallback_drops_forks sample_api (createOctokit "t")
           "solo" "Not Found"); reflexivity.
Defined.

(** ** CommitCounter: [getRepoCommitCount] against any remote *)

(** The loop from any state and against any remote. *)
Lemma countLoop_any (fetch : nat -> Res (list Commit)) (count page : nat) :
  exists k,
    (countLoop fetch count page).1 = seq page k /\
    (forall j, S j < k ->
       exists data, fetch (page + j) = Ok data /\ PER_PAGE <= length data) /\
    (0 < k -> count + PER_PAGE * (k - 1) < MAX_COMMITS) /\
    match (countLoop fetch count page).2 with
    | Ok n =>
        n <= MAX_COMMITS /\ (k = 0 -> MAX_COMMITS <= count) /\
        (0 < k -> exists data, fetch (page + (k - 1)) = Ok data)
    | Throw e => 0 < k /\ fetch (page + (k - 1)) = Throw e
    end.
Proof.
  funelim (countLoop fetch count page).
  - exists 0. simpl. split_and!; [done | lia | lia | lia | lia | lia].
  - exists 1. simpl. replace (page + 0) with page by lia.
    split_and!; [done | lia | lia | lia | done].
  - exists 1. simpl. replace (page + 0) with page by lia.
    split_and!; [done | lia | lia | lia | lia | eauto].
  - exists 1. simpl. replace (page + 0) with page by lia.
    split_and!; [done | lia | lia | lia | lia | eauto].
  - destruct H as (k' & Hcalls & Hfull & Hbelow & Hres).
    exists (S k'). simpl. rewrite Hcalls. split_and!.
    + done.
    + intros [|j] Hj.
      * replace (page + 0) with page by lia. exists data. split; [done | lia].
      * replace (page + S j) with (S page + j) by lia. apply Hfull. lia.
    + intros _. rewrite Nat.sub_0_r. destruct k' as [|k'].
      * lia.
      * specialize (Hbelow ltac:(lia)). simpl in Hbelow.
        rewrite Nat.sub_0_r in Hbelow. unfold PER_PAGE in *. lia.
    + destruct (countLoop fetch (count + length data) (S page)).2 as [m|e].
      * destruct Hres as (Hm & Hz & Hlast). split_and!; [done | done |].
        intros _. rewrite Nat.sub_0_r. destruct k' as [|k'].
        -- replace (page + 0) with page by lia. eauto.
        -- replace (page + S k') with (S page + (S k' - 1)) by lia.
           apply Hlast. lia.
      * destruct Hres as [Hpos Hlast]. split; [lia|].
        rewrite Nat.sub_0_r. destruct k' as [|k']; [lia|].
        by replace (page + S k') with (S page + (S k' - 1)) by lia.
Qed.

Section CommitCounterAny.

Variable api : Octokit -> Remote.

(** X3: whatever the remote answers, [getRepoCommitCount] requests the
    pages 1 to [k] for some [k] between 1 and 5, each page before the
    last having been answered with at least 100 commits. If it returns a
    count, the count is at most 500; if it fails, it fails with the
    answer to its last request. *)
Theorem getRepoCommitCount_requests_bounded (octokit : Octokit)
  (owner repo since : string) :
  let fetch := listCommits (api octokit) Counting owner repo since in
  exists k,
    1 <= k <= 5 /\
    (getRepoCommitCount_calls api octokit owner repo since).1 = seq 1 k /\
    (forall p, 1 <= p < k ->
       exists data, fetch p = Ok data /\ PER_PAGE <= length data) /\
    match getRepoCommitCount api octokit owner repo since with
    | Ok n => n <= 500 /\ exists data, fetch k = Ok data
    | Throw e => fetch k = Throw e
    end.
Proof.
  intros fetch. unfold getRepoCommitCount, getRepoCommitCount_calls.
  fold fetch.
  destruct (countLoop_any fetch 0 1) as (k & Hcalls & Hfull & Hbelow & Hres).
  assert (Hk : 1 <= k).
  { destruct k; [|lia]. destruct (countLoop fetch 0 1).2.
    - destruct Hres as (_ & Hz & _). specialize (Hz eq_refl).
      unfold MAX_COMMITS in Hz. lia.
    - destruct Hres as [? _]. lia. }
  specialize (Hbelow ltac:(lia)).
  exists k. split_and!.
  - done.
  - unfold MAX_COMMITS, PER_PAGE in Hbelow. lia.
  - done.
  - intros p Hp. specialize (Hfull (p - 1)).
    replace (1 + (p - 1)) with p in Hfull by lia. apply Hfull. lia.
  - replace (1 + (k - 1)) with k in Hres by lia.
    destruct (countLoop fetch 0 1).2 as [n|e].
    + destruct Hres as (Hn & _ & Hlast). split; [exact Hn | apply Hlast; lia].
    + by destruct Hres.
Qed.

End CommitCounterAny.

(** X4: against a remote that serves a fixed list of commits page by
    page, [getRepoCommitCount] returns the length of the list capped at
    500, and requests exactly the pages 1 to [k], where [k] is one more
    than the number of full pages of the list, and at most 5. *)
Theorem getRepoCommitCount_pages_of_a_listing (api : Octokit -> Remote)
  (octokit : Octokit) (owner repo since : string) (commits : list Commit) :
  (forall p, listCommits (api octokit) Counting owner repo since p
             = Ok (paginate commits p)) ->
  getRepoCommitCount_calls api octokit owner repo since
  = (seq 1 (Nat.min 5 (length commits / 100 + 1)),
     Ok (Nat.min (length commits) 500)).
Proof.
  intros Hfetch. unfold getRepoCommitCount_calls.
  destruct (countLoop_spec _ _ 0 1 Hfetch)
    as (n & Hcalls & Hres & Hbelow & Hfull & Hzero & Hstop).
  destruct (countLoop _ 0 1) as [calls res]. simpl in Hcalls, Hres.
  subst calls res.
  assert (Hlen : forall j, length (paginate commits (1 + j))
                           = Nat.min 100 (length commits - 100 * j)).
  { intros j. unfold paginate, PER_PAGE.
    rewrite length_take, length_drop. f_equal. f_equal. lia. }
  rewrite pagesTotal_paginate in *. unfold MAX_COMMITS, PER_PAGE in *.
  destruct n as [|n]; [specialize (Hzero eq_refl); lia|].
  specialize (Hstop ltac:(lia)). specialize (Hbelow n ltac:(lia)).
  rewrite pagesTotal_paginate in Hbelow. unfold PER_PAGE in Hbelow.
  rewrite Hlen in Hstop. replace (S n - 1) with n in Hstop by lia.
  assert (Hprev : 100 * n <= length commits).
  { destruct n as [|m]; [lia|]. specialize (Hfull m ltac:(lia)).
    rewrite Hlen in Hfull. lia. }
  pose proof (Nat.div_mod_eq (length commits) 100) as Hdiv.
  pose proof (Nat.mod_upper_bound (length commits) 100 ltac:(lia)) as Hmod.
  f_equal; [f_equal|f_equal]; lia.
Qed.

Lemma getRepoCommitCount_pages_of_a_listing_witness :
  getRepoCommitCount_calls (paged_api many_commits) (createOctokit "t")
    "acme" "main" "s"
  = (seq 1 (Nat.min 5 (length many_commits / 100 + 1)),
     Ok (Nat.min (length many_commits) 500)).
Proof.
  apply (getRepoCommitCount_pages_of_a_listing (paged_api many_commits)
           (createOctokit "t") "acme" "main" "s" many_commits).
  intros p. reflexivity.
Defined.

(** ** ContributorResolver: the tally and the sample *)

Lemma Map_get_entry (m : AuthorCounts) (k : string) (v : nat) :
  NoDup m.*1 -> (k, v) ∈ m -> Map_get k m = Some v.
Proof.
  induction m as [|[k' v'] m IH]; simpl; [by intros _ ?%elem_of_nil|].
  intros [Hk' Hnd]%NoDup_cons [[= -> ->]|Hin]%elem_of_cons.
  - by rewrite String.eqb_refl.
  - destruct (String.eqb k k') eqn:Hk; [|by apply IH].
    apply String.eqb_eq in Hk as ->. exfalso. apply Hk'.
    apply list_elem_of_fmap. by exists (k', v).
Qed.

Lemma tallyKey_sum (m : AuthorCounts) (k : string) :
  sum_list (m.*2) + 1 = sum_list ((tallyKey m k).*2).
Proof.
  unfold tallyKey. destruct (decide (k ∈ m.*1)) as [Hin|Hnot].
  - destruct (Map_set_present k (default 0 (Map_get k m) + 1) m Hin)
      as (m1 & w & m2 & -> & _ & -> & ->).
    rewrite !fmap_app, !sum_list_with_app. simpl. lia.
  - destruct (Map_set_absent k (default 0 (Map_get k m) + 1) m Hnot)
      as [-> ->].
    rewrite fmap_app, sum_list_with_app. simpl. lia.
Qed.

Lemma tallyKey_fold_sum (ks : list string) (m : AuthorCounts) :
  sum_list ((fold_left tallyKey ks m).*2) = sum_list (m.*2) + length ks.
Proof.
  revert m. induction ks as [|k ks IH]; intros m; simpl; [lia|].
  rewrite IH, <- tallyKey_sum. lia.
Qed.

(** X5: after tallying a list of commits, every author key of the list
    has exactly one entry, an entry holds the number of commits with its
    key, a key without commit has no entry, and the counts add up to the
    number of commits. *)
Theorem tallyCommit_counts (commits : list Commit) :
  let authorCounts := fold_left tallyCommit commits [] in
  let keys := authorKey <$> commits in
  NoDup authorCounts.*1 /\
  (forall author,
     Map_get author authorCounts
     = if tallyOf author keys =? 0 then None
       else Some (tallyOf author keys)) /\
  sum_list authorCounts.*2 = length commits.
Proof.
  intros authorCounts keys. subst authorCounts keys.
  rewrite tallyCommit_keys.
  destruct (tally_inv_fold (authorKey <$> commits))
    as (Hnd & Hval & Hkeys & _).
  split_and!.
  - done.
  - intros author. destruct (tallyOf author _ =? 0) eqn:Hz.
    + apply Nat.eqb_eq in Hz.
      destruct (Map_set_absent author 0 (fold_left tallyKey (authorKey <$> commits) []))
        as [Hget _]; [|done].
      intros ([a v] & -> & Hin)%list_elem_of_fmap.
      destruct (Hval _ _ Hin) as [-> Hpos]. simpl in Hz. lia.
    + apply Nat.eqb_neq in Hz.
      assert (Hin : author ∈ authorKey <$> commits).
      { destruct (decide (author ∈ authorKey <$> commits)) as [|Hn]; [done|].
        by apply tallyOf_zero in Hn. }
      apply Hkeys, list_elem_of_fmap in Hin as ([a v] & -> & Hin).
      destruct (Hval _ _ Hin) as [Hv _]. simpl. rewrite <- Hv.
      by apply Map_get_entry.
  - rewrite tallyKey_fold_sum, length_fmap. simpl. lia.
Qed.

Lemma pagesConcat_paginate (commits : list Commit) (n : nat) :
  pagesConcat (paginate commits) 1 n = take (PER_PAGE * n) commits.
Proof.
  unfold pagesConcat. induction n as [|n IH].
  - by rewrite Nat.mul_0_r.
  - rewrite seq_S, fmap_app, concat_app, IH. cbn [fmap list_fmap concat].
    rewrite app_nil_r. unfold paginate.
    replace (1 + n - 1) with n by lia.
    rewrite take_take_drop. f_equal. lia.
Qed.

Lemma tallyCommit_fold_nil (commits : list Commit) :
  fold_left tallyCommit commits [] = [] -> commits = [].
Proof.
  destruct commits as [|c commits]; [done|]. intros Hnil. exfalso.
  destruct (tally_inv_fold (authorKey <$> c :: commits)) as (_ & _ & Hkeys & _).
  rewrite <- tallyCommit_keys, Hnil in Hkeys.
  specialize (Hkeys (authorKey c)). rewrite fmap_cons in Hkeys.
  eapply elem_of_nil, Hkeys. apply elem_of_cons. by left.
Qed.

Lemma authorKey_nonempty (commit : Commit) : authorKey commit <> "".
Proof.
  unfold authorKey.
  destruct (author_login commit) as [[|? ?]|]; simpl; try done;
    destruct (commit_author_name commit) as [[|? ?]|]; simpl; done.
Qed.

(** What a successful run of the tallying loop has tallied, against any
    remote. *)
Lemma tallyLoop_any (fetch : nat -> Res (list Commit)) (m m' : AuthorCounts)
  (page : nat) :
  tallyLoop fetch m page = Ok m' ->
  exists commits,
    m' = fold_left tallyCommit commits m /\
    forall c, c ∈ commits ->
      exists p data, page <= p <= MAX_PAGES /\ fetch p = Ok data /\ c ∈ data.
Proof.
  revert m'. funelim (tallyLoop fetch m page); intros m' Hres.
  - injection Hres as <-. exists []. split; [done|]. by intros c ?%elem_of_nil.
  - done.
  - injection Hres as <-. exists []. split; [done|]. by intros c ?%elem_of_nil.
  - injection Hres as <-. exists data. split; [done|].
    intros c Hc. exists page, data. split_and!; [lia | lia | done | done].
  - destruct (H _ Hres) as (commits & -> & Hfrom).
    exists (data ++ commits). split; [by rewrite fold_left_app|].
    intros c [Hc|Hc]%elem_of_app.
    + exists page, data. split_and!; [lia | lia | done | done].
    + destruct (Hfrom c Hc) as (p & d & Hp & Hd & Hin).
      exists p, d. split_and!; [lia | lia | done | done].
Qed.

Section ContributorAny.

Variable api : Octokit -> Remote.

(** X6: against a remote that serves a fixed list of commits page by
    page, [getTopContributor] tallies exactly the first 500 commits of
    the list: it returns ["N/A"] for the empty list and otherwise the
    pick of the tally of these commits. *)
Theorem getTopContributor_paginated (octokit : Octokit)
  (owner repo since : string) (commits : list Commit) :
  (forall p, listCommits (api octokit) Tallying owner repo since p
             = Ok (paginate commits p)) ->
  getTopContributor api octokit owner repo since
  = Ok match commits with
       | [] => "N/A"
       | _ :: _ =>
           (pickTop (fold_left tallyCommit
                       (take (MAX_PAGES * PER_PAGE) commits) [])).1
       end.
Proof.
  intros Hfetch. unfold getTopContributor.
  destruct (tallyLoop_spec _ _ [] 1 Hfetch) as (n & -> & _ & Hz & Hpos).
  assert (Hn : 1 <= n).
  { destruct n; [|lia]. specialize (Hz eq_refl). unfold MAX_PAGES in Hz. lia. }
  destruct (Hpos ltac:(lia)) as [Hle Hstop].
  rewrite pagesConcat_paginate.
  assert (Hsample : take (PER_PAGE * n) commits
                    = take (MAX_PAGES * PER_PAGE) commits).
  { destruct Hstop as [Hstop|Hstop].
    - f_equal. unfold MAX_PAGES in *. lia.
    - unfold paginate in Hstop. rewrite length_take, length_drop in Hstop.
      rewrite !take_ge; [done | |]; unfold MAX_PAGES, PER_PAGE in *; lia. }
  rewrite Hsample.
  destruct commits as [|c commits]; [by rewrite take_nil|].
  destruct (length _ =? 0) eqn:Hlen; [|done]. exfalso.
  apply Nat.eqb_eq, nil_length_inv, tallyCommit_fold_nil in Hlen.
  unfold MAX_PAGES, PER_PAGE in Hlen. done.
Qed.

(** A top contributor other than ["N/A"] is the author key of a commit
    of one of the pages 1 to 5. *)
Lemma getTopContributor_source (octokit : Octokit)
  (owner repo since top : string) :
  getTopContributor api octokit owner repo since = Ok top ->
  top = "N/A" \/
  exists p data commit,
    1 <= p <= 5 /\
    listCommits (api octokit) Tallying owner repo since p = Ok data /\
    commit ∈ data /\ authorKey commit = top.
Proof.
  unfold getTopContributor.
  destruct (tallyLoop _ [] 1) as [m|e] eqn:Hloop; [|done].
  destruct (length m =? 0) eqn:Hlen.
  { intros [= <-]. by left. }
  intros [= <-]. apply Nat.eqb_neq in Hlen.
  destruct (tallyLoop_any _ _ _ _ Hloop) as (commits & -> & Hfrom).
  rewrite tallyCommit_keys in *.
  destruct (tally_inv_fold (authorKey <$> commits)) as (_ & Hval & _ & _).
  destruct (pickTop_spec (fold_left tallyKey (authorKey <$> commits) []))
    as (m1 & m2 & Hsplit & _ & _).
  { intros Hnil. by rewrite Hnil in Hlen. }
  { intros [k v] Hin. by apply Hval in Hin as [_ ?]. }
  destruct (pickTop _) as [a v] eqn:Htop. simpl.
  assert (Hin : (a, v) ∈ fold_left tallyKey (authorKey <$> commits) []).
  { rewrite Hsplit. apply elem_of_app. right. apply elem_of_cons. by left. }
  destruct (Hval _ _ Hin) as [Hv Hpos].
  assert (Ha : a ∈ authorKey <$> commits).
  { destruct (decide (a ∈ authorKey <$> commits)) as [|Hn]; [done|].
    apply tallyOf_zero in Hn. lia. }
  apply list_elem_of_fmap in Ha as (c & -> & Hc). right.
  destruct (Hfrom c Hc) as (p & data & Hp & Hd & Hcd).
  exists p, data, c. unfold MAX_PAGES in Hp. split_and!; [lia | lia | done..].
Qed.

Lemma getTopContributor_nonempty (octokit : Octokit)
  (owner repo since top : string) :
  getTopContributor api octokit owner repo since = Ok top -> top <> "".
Proof.
  intros [->|(p & data & c & _ & _ & _ & <-)]%getTopContributor_source;
    [done | apply authorKey_nonempty].
Qed.

(** X7: whatever the remote answers, a top contributor returned by
    [getTopContributor] is never the empty string: it is ["N/A"] or the
    author key of a commit of one of the pages 1 to 5 as the remote
    answered them. *)
Theorem getTopContributor_is_sampled_author (octokit : Octokit)
  (owner repo since top : string) :
  getTopContributor api octokit owner repo since = Ok top ->
  top <> "" /\
  (top = "N/A" \/
   exists p data commit,
     1 <= p <= 5 /\
     listCommits (api octokit) Tallying owner repo since p = Ok data /\
     commit ∈ data /\ authorKey commit = top).
Proof.
  intros Htop. split.
  - by eapply getTopContributor_nonempty.
  - by apply getTopContributor_source.
Qed.

End ContributorAny.

Lemma getTopContributor_paginated_witness :
  getTopContributor (paged_api many_commits) (createOctokit "t")
    "acme" "main" "s"
  = Ok (pickTop (fold_left tallyCommit
                   (take (MAX_PAGES * PER_PAGE) many_commits) [])).1.
Proof.
  apply (getTopContributor_paginated (paged_api many_commits)
           (createOctokit "t") "acme" "main" "s" many_commits).
  intros p. reflexivity.
Defined.

Lemma getTopContributor_is_sampled_author_witness :
  "bob" <> "" /\
  ("bob" = "N/A" \/
   exists p data commit,
     1 <= p <= 5 /\
     listCommits (sample_api (createOctokit "t")) Tallying "acme" "y" "s" p
     = Ok data /\
     commit ∈ data /\ authorKey commit = "bob").
Proof.
  apply (getTopContributor_is_sampled_author sample_api (createOctokit "t")
           "acme" "y" "s" "bob").
  reflexivity.
Defined.

(** ** CompanyAnalysisPipeline: the shape of every result *)

Lemma countLoop_result_le (fetch : nat -> Res (list Commit))
  (count page n : nat) :
  (countLoop fetch count page).2 = Ok n -> n <= MAX_COMMITS.
Proof.
  revert n. funelim (countLoop fetch count page); simpl; intros m Hm;
    try done; try (injection Hm as <-; lia).
  by eapply H.
Qed.

Section PipelineResults.

Variable URL_parse : string -> option URL.
Variable api : Octokit -> Remote.

(** X8: a result of [analyzeCompany] names the company and its URL as
    given. If it carries an error, the error is ["Invalid GitHub URL"] or
    ["No repos found"] and every activity field is at its sentinel with a
    count of 0; and a result with a count of 0 has every activity field
    at its sentinel. *)
Theorem analyzeCompany_error_is_sentinel (octokit : Octokit)
  (company : CompanyInput) (since : string) (r : CompanyResult) :
  (analyzeCompany URL_parse api octokit company since).2 = Ok r ->
  r_company_name r = company_name company /\
  r_github_org_url r = github_org_url company /\
  (forall e, error r = Some e ->
     (e = "Invalid GitHub URL" \/ e = "No repos found") /\
     commit_count r = 0) /\
  (commit_count r = 0 ->
     most_active_repo r = "N/A" /\ most_active_repo_url r = "N/A" /\
     top_contributor r = "N/A").
Proof.
  unfold analyzeCompany.
  repeat case_match; simpl; intros [= <-]; simpl;
    (split_and!; [done | done | |]).
  all: try (intros e [= <-]; auto).
  all: try done.
  intros Hzero.
  match goal with H : (_ =? 0) = false |- _ => apply Nat.eqb_neq in H end.
  done.
Qed.

(** X9: a result of [analyzeCompany] has a count of at most 500 and a
    non-empty top contributor. A result with a positive count carries no
    error and describes one of the discovered repositories: its name, its
    URL, the count obtained for it and the top contributor resolved for
    it. *)
Theorem analyzeCompany_result_describes_a_repo (octokit : Octokit)
  (company : CompanyInput) (since : string) (r : CompanyResult) :
  (analyzeCompany URL_parse api octokit company since).2 = Ok r ->
  commit_count r <= 500 /\
  top_contributor r <> "" /\
  (0 < commit_count r ->
   error r = None /\
   exists orgName repos repo,
     extractOrgName URL_parse (github_org_url company) = Some orgName /\
     listOrgRepos api octokit orgName = Ok repos /\
     repo ∈ repos /\
     most_active_repo r = name repo /\
     most_active_repo_url r = html_url repo /\
     getRepoCommitCount api octokit orgName (name repo) since
     = Ok (commit_count r) /\
     getTopContributor api octokit orgName (name repo) since
     = Ok (top_contributor r)).
Proof.
  intros Hout.
  destruct (extractOrgName URL_parse (github_org_url company))
    as [orgName|] eqn:Horg.
  2:{ unfold analyzeCompany in Hout. rewrite Horg in Hout.
      injection Hout as <-. simpl. split_and!; [lia | done | lia]. }
  destruct (listOrgRepos api octokit orgName) as [repos|e] eqn:Hrepos.
  2:{ unfold analyzeCompany in Hout.
      by rewrite Horg, (extractOrgName_nonempty _ _ _ Horg), Hrepos in Hout. }
  destruct repos as [|repo0 repos'].
  { unfold analyzeCompany in Hout.
    rewrite Horg, (extractOrgName_nonempty _ _ _ Horg), Hrepos in Hout.
    injection Hout as <-. simpl. split_and!; [lia | done | lia]. }
  destruct (reduce_moreActive
              (countRepo api octokit orgName since <$> repo0 :: repos'))
    as (mostActive & l & l' & Hred & Hsplit & _); [done|].
  rewrite (analyzeCompany_selected _ _ _ _ _ _ _ _ Horg Hrepos Hred) in Hout.
  destruct (commitCount mostActive =? 0) eqn:Hz.
  { injection Hout as <-. simpl. split_and!; [lia | done | lia]. }
  destruct (getTopContributor api octokit orgName (repoName mostActive) since)
    as [top|e] eqn:Htop; [|done].
  injection Hout as <-. simpl.
  assert (Hin : mostActive ∈ countRepo api octokit orgName since
                             <$> repo0 :: repos').
  { rewrite Hsplit. apply elem_of_app. right. apply elem_of_cons. by left. }
  apply list_elem_of_fmap in Hin as (repo & Hm & Hrepo).
  destruct (countRepo_spec api octokit orgName since repo)
    as (Hname & Hurl & Hcount).
  rewrite <- Hm in Hname, Hurl, Hcount. apply Nat.eqb_neq in Hz.
  destruct (getRepoCommitCount api octokit orgName (name repo) since)
    as [n|e] eqn:Hn; [|done].
  split_and!.
  - rewrite Hcount. unfold getRepoCommitCount, getRepoCommitCount_calls in Hn.
    apply countLoop_result_le in Hn. unfold MAX_COMMITS in Hn. lia.
  - by eapply getTopContributor_nonempty.
  - intros _. split; [done|]. exists orgName, (repo0 :: repos'), repo.
    rewrite Hname in Htop. rewrite Hcount.
    split_and!; done.
Qed.

End PipelineResults.

Lemma analyzeCompany_error_is_sentinel_witness :
  let company := sample_company "E" "empty" in
  let r := notApplicable company (Some "No repos found") in
  r_company_name r = company_name company /\
  r_github_org_url r = github_org_url company /\
  (forall e, error r = Some e ->
     (e = "Invalid GitHub URL" \/ e = "No repos found") /\
     commit_count r = 0) /\
  (commit_count r = 0 ->
     most_active_repo r = "N/A" /\ most_active_repo_url r = "N/A" /\
     top_contributor r = "N/A").
Proof.
  intros company r.
  exact (analyzeCompany_error_is_sentinel sample_URL_parse sample_api
           (createOctokit "t") company "s" r eq_refl).
Defined.

Lemma analyzeCompany_result_describes_a_repo_witness :
  let r := {| r_company_name := "Acme";
              r_github_org_url := "https://github.com/acme";
              most_active_repo := "y";
              most_active_repo_url := "https://github.com/acme/y";
              commit_count := 10;
              top_contributor := "bob";
              error := None |} in
  commit_count r <= 500 /\ top_contributor r <> "" /\
  (0 < commit_count r ->
   error r = None /\
   exists orgName repos repo,
     extractOrgName sample_URL_parse "https://github.com/acme" = Some orgName /\
     listOrgRepos sample_api (createOctokit "t") orgName = Ok repos /\
     repo ∈ repos /\
     most_active_repo r = name repo /\
     most_active_repo_url r = html_url repo /\
     getRepoCommitCount sample_api (createOctokit "t") orgName (name repo) "s"
     = Ok (commit_count r) /\
     getTopContributor sample_api (createOctokit "t") orgName (name repo) "s"
     = Ok (top_contributor r)).
Proof.
  intros r.
  exact (analyzeCompany_result_describes_a_repo sample_URL_parse sample_api
           (createOctokit "t") (sample_company "Acme" "acme") "s" r eq_refl).
Defined.

Section RunnersUp.

Variable URL_parse : string -> option URL.

(** X10: the contributors are resolved for the winning repository only.
    Two remotes that agree on the repository listings and on the commit
    listings of the counting phase, and whose commit listings of the
    tallying phase agree for the winner, give the same analysis, whatever
    they answer in the tallying phase for any other repository. *)
Theorem analyzeCompany_ignores_runners_up (api1 api2 : Octokit -> Remote)
  (octokit : Octokit) (company : CompanyInput) (since : string) :
  (forall org, listForOrg (api1 octokit) org = listForOrg (api2 octokit) org) ->
  (forall username,
     listForUser (api1 octokit) username = listForUser (api2 octokit) username) ->
  (forall owner repo page,
     listCommits (api1 octokit) Counting owner repo since page
     = listCommits (api2 octokit) Counting owner repo since page) ->
  (forall orgName repos mostActive page,
     extractOrgName URL_parse (github_org_url company) = Some orgName ->
     listOrgRepos api1 octokit orgName = Ok repos ->
     JS.reduce moreActive (countRepo api1 octokit orgName since <$> repos)
     = Some mostActive ->
     listCommits (api1 octokit) Tallying orgName (repoName mostActive) since
       page
     = listCommits (api2 octokit) Tallying orgName (repoName mostActive) since
         page) ->
  analyzeCompany URL_parse api1 octokit company since
  = analyzeCompany URL_parse api2 octokit company since.
Proof.
  intros Horg Huser Hcount Hwinner.
  assert (Hrepos : forall orgName,
            listOrgRepos api1 octokit orgName
            = listOrgRepos api2 octokit orgName).
  { intros orgName. unfold listOrgRepos. by rewrite Horg, Huser. }
  assert (Hcounted : forall orgName repo,
            countRepo api1 octokit orgName since repo
            = countRepo api2 octokit orgName since repo).
  { intros orgName repo.
    unfold countRepo, getRepoCommitCount, getRepoCommitCount_calls.
    by rewrite (countLoop_ext _ _ 0 1 (Hcount orgName (name repo))). }
  unfold analyzeCompany.
  destruct (extractOrgName URL_parse (github_org_url company))
    as [orgName|] eqn:Hname; [|done].
  rewrite <- Hrepos.
  destruct (JS.is_empty orgName); [done|].
  destruct (listOrgRepos api1 octokit orgName) as [repos|e] eqn:Hlist; [|done].
  destruct (length repos =? 0); [done|]. simpl.
  rewrite <- (map_ext _ _ (Hcounted orgName)).
  destruct (JS.reduce moreActive _) as [mostActive|] eqn:Hred; [|done].
  unfold getTopContributor.
  rewrite (tallyLoop_ext _ _ [] 1
             (fun page => Hwinner orgName repos mostActive page eq_refl
                            Hlist Hred)).
  done.
Qed.

End RunnersUp.

Lemma analyzeCompany_ignores_runners_up_witness :
  analyzeCompany sample_URL_parse sample_api (createOctokit "t")
    (sample_company "Acme" "acme") "s"
  = analyzeCompany sample_URL_parse sample_api_alt (createOctokit "t")
      (sample_company "Acme" "acme") "s".
Proof.
  apply analyzeCompany_ignores_runners_up; try (intros; reflexivity).
  intros orgName repos mostActive page Horg Hrepos Hred.
  vm_compute in Horg. injection Horg as <-.
  vm_compute in Hrepos. injection Hrepos as <-.
  vm_compute in Hred. injection Hred as <-.
  reflexivity.
Defined.

(** * The event stream between the handler and the client *)

(** ** Splitting on a blank line *)

Lemma string_ind2 (P : string -> Prop) :
  P EmptyString ->
  (forall a, P (String a EmptyString)) ->
  (forall a b s, P s -> P (String b s) -> P (String a (String b s))) ->
  forall s, P s.
Proof.
  intros H0 H1 H2 s.
  enough (P s /\ forall a, P (String a s)) by tauto.
  induction s as [|b s [IHs IHbs]]; split; auto.
Qed.

Lemma split2_step (c1 c2 a b : ascii) (s : string) :
  split2 c1 c2 (String a (String b s))
  = if Ascii.eqb a c1 && Ascii.eqb b c2
    then EmptyString :: split2 c1 c2 s
    else consHead a (split2 c1 c2 (String b s)).
Proof. reflexivity. Qed.

Lemma split2_cons (c1 c2 : ascii) (s : string) :
  exists h t, split2 c1 c2 s = h :: t.
Proof.
  induction s as [|a|a b s _ (h & t & IH)] using string_ind2;
    [by eexists _, _ ..|].
  rewrite split2_step. destruct (_ && _); [by eexists _, _|].
  rewrite IH. by eexists _, _.
Qed.

Lemma split2_single (c1 c2 : ascii) (s h : string) :
  split2 c1 c2 s = [h] -> h = s.
Proof.
  revert h. induction s as [|a|a b s _ IH] using string_ind2; intros h.
  - by intros [= <-].
  - by intros [= <-].
  - rewrite split2_step. destruct (_ && _).
    + destruct (split2_cons c1 c2 s) as (h' & t' & ->). done.
    + destruct (split2_cons c1 c2 (String b s)) as (h' & t' & Hs).
      rewrite Hs in IH |- *. destruct t'; simpl; [|done].
      intros [= <-]. f_equal. by apply IH.
Qed.

(** Splitting a text that arrives in two pieces: the parts before the
    last part of the first piece are settled, and the last part is split
    again once the second piece has arrived. *)
Lemma split2_app (c1 c2 : ascii) (s t : string) :
  split2 c1 c2 (s +:+ t)
  = removelast (split2 c1 c2 s)
    ++ split2 c1 c2 (List.last (split2 c1 c2 s) EmptyString +:+ t).
Proof.
  induction s as [|a|a b s IHs IHbs] using string_ind2.
  - done.
  - done.
  - change (String a (String b s) +:+ t) with (String a (String b (s +:+ t))).
    rewrite !split2_step. destruct (Ascii.eqb a c1 && Ascii.eqb b c2) eqn:Hsep.
    + rewrite IHs. by destruct (split2_cons c1 c2 s) as (h & tl & ->).
    + change (String b (s +:+ t)) with (String b s +:+ t). rewrite IHbs.
      destruct (split2_cons c1 c2 (String b s)) as (h & tl & Hs).
      rewrite Hs. destruct tl as [|h2 tl].
      * apply split2_single in Hs as ->.
        cbn [removelast List.last consHead app].
        change (String a (String b s) +:+ t)
          with (String a (String b (s +:+ t))).
        rewrite split2_step, Hsep.
        by change (String b (s +:+ t)) with (String b s +:+ t).
      * done.
Qed.

Lemma split2_last (c1 c2 : ascii) (s : string) :
  split2 c1 c2 (List.last (split2 c1 c2 s) EmptyString)
  = [List.last (split2 c1 c2 s) EmptyString].
Proof.
  pose proof (split2_app c1 c2 s EmptyString) as Happ.
  rewrite !append_empty_r in Happ.
  destruct (split2_cons c1 c2 s) as (h & t & Hs).
  assert (Hne : split2 c1 c2 s <> []) by (by rewrite Hs).
  rewrite (app_removelast_last EmptyString Hne) in Happ at 1.
  by apply app_inv_head in Happ.
Qed.

Lemma last_app_cons {A} (l : list A) (x : A) (l' : list A) (d : A) :
  List.last (l ++ x :: l') d = List.last (x :: l') d.
Proof.
  induction l as [|y l IH]; [done|]. rewrite <- IH. simpl.
  by destruct (l ++ x :: l') eqn:E; [destruct l|].
Qed.

(** ** The read loop *)

Section ReadLoop.

Variable JSON_parse : string -> option ProgressEvent.
Variable timeString : nat -> string.

Lemma readLoop_from (chunks : list string) (buffer : string) (page : Page) :
  split2 LF LF buffer = [buffer] ->
  fold_left (readChunk JSON_parse timeString) chunks (buffer, page)
  = (List.last (split2 LF LF (buffer +:+ joined chunks)) EmptyString,
     fold_left (handleLine JSON_parse timeString)
       (removelast (split2 LF LF (buffer +:+ joined chunks))) page).
Proof.
  revert buffer page. induction chunks as [|c chunks IH];
    intros buffer page Hbuf.
  - simpl. by rewrite append_empty_r, Hbuf.
  - cbn [fold_left]. unfold readChunk at 2. cbn [fst snd].
    rewrite IH by apply split2_last.
    change (joined (c :: chunks)) with (c +:+ joined chunks).
    rewrite <- append_assoc, (split2_app LF LF (buffer +:+ c)).
    destruct (split2_cons LF LF
                (List.last (split2 LF LF (buffer +:+ c)) EmptyString
                 +:+ joined chunks)) as (h & t & ->).
    rewrite last_app_cons, removelast_app by done.
    by rewrite fold_left_app.
Qed.

(** X11: the reader's chunking does not matter. However the text of the
    stream is cut into chunks, the client handles the parts between
    blank lines of the whole text, in order and all but the last, which
    it keeps as its buffer. *)
Theorem readLoop_chunking (chunks : list string) (page : Page) :
  let lines := split2 LF LF (joined chunks) in
  readLoop JSON_parse timeString chunks page
  = (List.last lines EmptyString,
     fold_left (handleLine JSON_parse timeString) (removelast lines) page).
Proof. intros lines. unfold readLoop. by rewrite readLoop_from. Qed.

End ReadLoop.

(** ** Frames *)

Lemma split2_frame (x rest : string) :
  all_chars (fun c => negb (Ascii.eqb c LF)) x = true ->
  split2 LF LF (x +:+ blankLine +:+ rest) = x :: split2 LF LF rest.
Proof.
  induction x as [|a x IH]; intros Hx.
  - done.
  - simpl in Hx. apply andb_true_iff in Hx as [Ha Hx].
    apply negb_true_iff in Ha. specialize (IH Hx).
    destruct x as [|b x].
    + change (String a "" +:+ blankLine +:+ rest)
        with (String a (String LF (String LF rest))).
      rewrite split2_step, Ha. cbn [andb].
      change (String LF (String LF rest)) with ("" +:+ blankLine +:+ rest).
      by rewrite IH.
    + change (String a (String b x) +:+ blankLine +:+ rest)
        with (String a (String b (x +:+ blankLine +:+ rest))).
      rewrite split2_step, Ha. cbn [andb].
      change (String b (x +:+ blankLine +:+ rest))
        with (String b x +:+ blankLine +:+ rest).
      by rewrite IH.
Qed.

Lemma all_chars_app (p : ascii -> bool) (s t : string) :
  all_chars p (s +:+ t) = all_chars p s && all_chars p t.
Proof.
  induction s as [|a s IH]; simpl; [done|]. by rewrite IH, andb_assoc.
Qed.

Lemma last_char_app (s t : string) (c : ascii) :
  last_char t = Some c -> last_char (s +:+ t) = Some c.
Proof.
  intros Ht. induction s as [|a s IH]; simpl; [done|].
  destruct (s +:+ t) eqn:E; [|done].
  by destruct s, t.
Qed.

Lemma whiteSpace_bytes :
  forallb (fun w =>
             match first_char w, last_char w with
             | Some a, Some b => negb (printable a) && negb (printable b)
             | _, _ => false
             end) JS.whiteSpace
  = true.
Proof. vm_compute. reflexivity. Qed.

(** A string that starts, or ends, with a visible ASCII character does
    not start, or end, with white space. *)
Lemma printable_not_white (s : string) (c : ascii) :
  printable c = true ->
  (first_char s = Some c -> ~ startsWhite s) /\
  (last_char s = Some c -> ~ endsWhite s).
Proof.
  intros Hc. pose proof whiteSpace_bytes as H. rewrite forallb_forall in H.
  split.
  - intros Hf (w & rest & Hw & ->). apply list_elem_of_In in Hw.
    specialize (H w Hw). destruct w as [|a w]; [done|].
    simpl in Hf. injection Hf as ->. cbn [first_char] in H.
    destruct (last_char (String c w)); [|done]. by rewrite Hc in H.
  - intros Hl (w & front & Hw & ->). apply list_elem_of_In in Hw.
    specialize (H w Hw). destruct (first_char w) as [a|]; [|done].
    destruct (last_char w) as [b|] eqn:Hb; [|done].
    rewrite (last_char_app _ _ _ Hb) in Hl. injection Hl as ->.
    rewrite Hc in H. by destruct (printable a).
Qed.

Section RoundTrip.

Variable JSON_stringify : ProgressEvent -> string.
Variable JSON_parse : string -> option ProgressEvent.
Variable timeString : nat -> string.

Lemma lines_of_frames (events : list ProgressEvent) :
  Forall (wellEncoded JSON_stringify JSON_parse) events ->
  split2 LF LF (joined (frame JSON_stringify <$> events))
  = ((fun e => "data: " +:+ JSON_stringify e) <$> events) ++ [""].
Proof.
  induction 1 as [|e events (_ & Hlf & _) _ IH]; [done|].
  rewrite !fmap_cons. cbn [joined fold_right]. fold (joined (frame JSON_stringify <$> events)).
  unfold frame at 1. rewrite !append_assoc.
  rewrite <- (append_assoc "data: "), <- append_assoc.
  rewrite (append_assoc ("data: " +:+ JSON_stringify e)).
  rewrite split2_frame, IH; [done|].
  by rewrite all_chars_app, Hlf.
Qed.

Lemma handleLine_data (page : Page) (e : ProgressEvent) :
  wellEncoded JSON_stringify JSON_parse e ->
  handleLine JSON_parse timeString page ("data: " +:+ JSON_stringify e)
  = handleEvent timeString page e.
Proof.
  intros (Hparse & _ & Hlast). unfold handleLine.
  rewrite trim_id.
  - replace (JS.startsWith ("data: " +:+ JSON_stringify e) "data: ") with true
      by (symmetry; apply prefix_occurs; eauto).
    simpl. change (sliceFrom 6 ("data: " +:+ JSON_stringify e))
      with (JSON_stringify e).
    by rewrite Hparse.
  - by apply (printable_not_white _ "d").
  - apply (printable_not_white _ "}"); [done | by apply last_char_app].
Qed.

Lemma handleLine_frames (events : list ProgressEvent) (page : Page) :
  Forall (wellEncoded JSON_stringify JSON_parse) events ->
  fold_left (handleLine JSON_parse timeString)
    ((fun e => "data: " +:+ JSON_stringify e) <$> events) page
  = fold_left (handleEvent timeString) events page.
Proof.
  intros Henc. revert page.
  induction Henc as [|e events He _ IH]; intros page; [done|].
  rewrite fmap_cons. cbn [fold_left]. by rewrite handleLine_data, IH.
Qed.

(** X12: the framing of [sendEvent] and the read loop of the client are
    inverse to each other. When the client receives, in chunks cut
    anywhere, the frames of a stream of events whose JSON texts parse
    back, hold no line feed and end with a brace, it handles exactly
    these events, in order, and is left with an empty buffer. *)
Theorem readLoop_decodes_frames (events : list ProgressEvent)
  (chunks : list string) (page : Page) :
  Forall (wellEncoded JSON_stringify JSON_parse) events ->
  joined chunks = joined (frame JSON_stringify <$> events) ->
  readLoop JSON_parse timeString chunks page
  = (EmptyString, fold_left (handleEvent timeString) events page).
Proof.
  intros Henc Hchunks. unfold readLoop. rewrite readLoop_from by done.
  change ("" +:+ joined chunks) with (joined chunks).
  rewrite Hchunks, lines_of_frames by done.
  rewrite last_app_cons, removelast_app by done.
  cbn [removelast List.last]. by rewrite app_nil_r, handleLine_frames.
Qed.

End RoundTrip.

Lemma readLoop_decodes_frames_witness :
  readLoop sample_parse (fun _ => "12:00:00") (sample_chunks sample_events)
    {| logs := []; progress := (0, 2); results := []; isAnalyzing := true |}
  = (EmptyString,
     fold_left (handleEvent (fun _ => "12:00:00")) sample_events
       {| logs := []; progress := (0, 2); results := [];
          isAnalyzing := true |}).
Proof.
  apply (readLoop_decodes_frames sample_stringify).
  - repeat constructor; vm_compute; reflexivity.
  - vm_compute. reflexivity.
Defined.

(** ** The request handler *)

Section HandlerProperties.

Variable URL_parse : string -> option URL.
Variable net : nat -> Octokit -> Remote.
Variable sched : nat -> list nat.

(** X14: [POST] opens an event stream exactly for a body that holds a
    non-empty string as token and a non-empty array as companies, and
    answers every other body that is not [null] with a 400. The stream
    it opens holds one terminal event for each of the [N >= 1] companies
    and ends with the ["done"] event for [N]. *)
Theorem POST_streams_valid_requests (body : RequestBody) (since : string) :
  (forall events,
     POST URL_parse net sched body since = Ok (EventStream events) <->
     exists companies token,
       body = JsonBody (Given companies) (Given token) /\
       token <> EmptyString /\ companies <> [] /\
       events = processCompanies URL_parse net sched token since companies) /\
  (forall events,
     POST URL_parse net sched body since = Ok (EventStream events) ->
     exists N before,
       1 <= N /\ events = before ++ [doneEvent N] /\
       length (filter terminal events) = N) /\
  (body <> JsonNull ->
   (forall events,
      POST URL_parse net sched body since <> Ok (EventStream events)) ->
   exists error,
     POST URL_parse net sched body since = Ok (BadRequest error) /\
     (error = "Invalid JSON" \/ error = "GitHub token is required"
      \/ error = "Companies array is required")).
Proof.
  assert (Hiff : forall events,
     POST URL_parse net sched body since = Ok (EventStream events) <->
     exists companies token,
       body = JsonBody (Given companies) (Given token) /\
       token <> EmptyString /\ companies <> [] /\
       events = processCompanies URL_parse net sched token since companies).
  { intros events. split.
    - destruct body as [| |[companies|] [token|]]; simpl; try done.
      + destruct token as [|c token]; simpl; [done|].
        destruct companies as [|company companies]; simpl; [done|].
        intros [= <-]. by eexists _, _.
      + by destruct (JS.is_empty token).
    - intros (companies & token & -> & Htoken & Hcompanies & ->). simpl.
      destruct token; [done|]. by destruct companies. }
  split_and!; [exact Hiff | |].
  - intros events (companies & token & _ & _ & Hne & ->)%Hiff.
    destruct (processCompanies_shape URL_parse net sched token since companies)
      as (before & Hev & _ & _ & Hlen & _).
    exists (length companies), before. rewrite Hev.
    split_and!; [destruct companies; simpl; [done | lia] | done |].
    by rewrite filter_terminal_done.
  - intros Hnull Hno.
    destruct body as [| |[companies|] [token|]]; simpl in *; try done;
      try (eexists; split; [done | auto]).
    + destruct token as [|c token]; simpl in *;
        [eexists; split; [done | auto]|].
      destruct companies as [|company companies]; simpl in *;
        [eexists; split; [done | auto]|].
      by destruct (Hno _ eq_refl).
    + destruct (JS.is_empty token); eexists; split; try done; auto.
Qed.

End HandlerProperties.

(** ** The client on a whole run *)

Section PageUpdates.

Variable timeString : nat -> string.

Lemma addLog_fields (page : Page) (msg : string) :
  progress (addLog timeString page msg) = progress page /\
  results (addLog timeString page msg) = results page /\
  isAnalyzing (addLog timeString page msg) = isAnalyzing page.
Proof. done. Qed.

Lemma handleEvent_fields (page : Page) (ev : ProgressEvent) :
  results (handleEvent timeString page ev) = results page ++ collected [ev] /\
  isAnalyzing (handleEvent timeString page ev) = isAnalyzing page /\
  progress (handleEvent timeString page ev)
  = match completed ev, total ev with
    | Some c, Some t => (c, t)
    | _, _ => progress page
    end.
Proof.
  unfold handleEvent, collected.
  destruct ev as [ty co msg res c t]. simpl.
  destruct (JS.is_empty msg), c as [c|], t as [t|], ty, res as [r|];
    simpl; rewrite ?app_nil_r; done.
Qed.

Lemma handleEvent_fold (evs : list ProgressEvent) (page : Page) :
  results (fold_left (handleEvent timeString) evs page)
  = results page ++ collected evs /\
  isAnalyzing (fold_left (handleEvent timeString) evs page) = isAnalyzing page.
Proof.
  revert page. induction evs as [|ev evs IH]; intros page; simpl.
  - by rewrite app_nil_r.
  - destruct (IH (handleEvent timeString page ev)) as [-> ->].
    destruct (handleEvent_fields page ev) as (-> & -> & _).
    split; [|done]. rewrite <- app_assoc. f_equal.
    unfold collected. cbn [omap list_omap].
    by destruct (type ev), (result ev).
Qed.

End PageUpdates.

Lemma collected_terminal (evs : list ProgressEvent) :
  Forall (fun ev => exists r, result ev = Some r) (filter terminal evs) ->
  Forall2 (fun ev r => result ev = Some r) (filter terminal evs)
    (collected evs).
Proof.
  induction evs as [|ev evs IH]; [constructor|].
  destruct (decide (terminal ev)) as [Ht|Ht].
  - rewrite filter_cons_True by done. intros [[r Hr] Hall]%Forall_cons.
    unfold collected. simpl. rewrite Hr.
    destruct Ht as [-> | ->]; constructor; auto.
  - rewrite filter_cons_False by done. intros Hall.
    unfold collected. simpl.
    destruct (type ev) eqn:Hty; try (by apply IH);
      exfalso; apply Ht; unfold terminal; rewrite Hty; auto.
Qed.

Section EndToEnd.

Variable URL_parse : string -> option URL.
Variable net : nat -> Octokit -> Remote.
Variable sched : nat -> list nat.
Variable JSON_stringify : ProgressEvent -> string.
Variable JSON_parse : string -> option ProgressEvent.
Variable timeString : nat -> string.
Variable receive : list ProgressEvent -> list string.
Variable platformError : string.

(** X15: an analysis started with a token that is not blank and at least
    one company, against the handler, with events whose JSON texts the
    client can read and frames that arrive complete in chunks cut
    anywhere, ends without an alert, with the page no longer analysing,
    the progress at [N] of [N], and one result for each company, in the
    order of the companies. *)
Theorem startAnalysis_shows_every_company (token since : string)
  (companies : list CompanyInput) (page : Page) :
  let events :=
    processCompanies URL_parse net sched (JS.trim token) since companies in
  let run :=
    startAnalysis JSON_parse timeString
      (fun body => POST URL_parse net sched body since)
      receive platformError token companies page in
  JS.trim token <> EmptyString ->
  companies <> [] ->
  Forall (wellEncoded JSON_stringify JSON_parse) events ->
  joined (receive events) = joined (frame JSON_stringify <$> events) ->
  run.2 = None /\
  isAnalyzing run.1 = false /\
  progress run.1 = (length companies, length companies) /\
  Forall2 (fun c r => r_company_name r = company_name c /\
                      r_github_org_url r = github_org_url c)
    companies (results run.1).
Proof.
  intros events run Htoken Hne Henc Hrecv. subst run.
  assert (Hl : (length companies =? 0) = false) by by destruct companies.
  assert (Htok : JS.is_empty (JS.trim token) = false)
    by by destruct (JS.trim token).
  unfold startAnalysis. cbn [POST]. rewrite !Htok, !Hl. fold events.
  unfold readLoop. rewrite readLoop_from by done.
  change ("" +:+ joined (receive events)) with (joined (receive events)).
  rewrite Hrecv, (lines_of_frames JSON_stringify JSON_parse) by done.
  rewrite last_app_cons, removelast_app by done.
  cbn [removelast List.last]. rewrite app_nil_r.
  rewrite (handleLine_frames JSON_stringify JSON_parse timeString) by done.
  cbn [fst snd isAnalyzing progress results].
  set (page1 := addLog timeString _ _).
  destruct (handleEvent_fold timeString events page1) as [Hres _].
  rewrite Hres. cbn [results page1 addLog app].
  subst events.
  destruct (processCompanies_shape URL_parse net sched (JS.trim token) since
              companies) as (before & Hev & Hrange & _ & Hlen & Hterm).
  split_and!.
  - done.
  - done.
  - rewrite Hev, fold_left_app. cbn [fold_left].
    by destruct (handleEvent_fields timeString
                   (fold_left (handleEvent timeString) before page1)
                   (doneEvent (length companies))) as (_ & _ & ->).
  - assert (Hfor : Forall2 terminalFor companies
                     (filter terminal
                        (processCompanies URL_parse net sched (JS.trim token)
                           since companies))).
    { rewrite Hev, filter_terminal_done.
      apply Forall2_same_length_lookup_2; [by rewrite Hlen|].
      intros j c ev Hc Hj. destruct (Hterm _ _ Hj) as (c' & Hc' & Ht & _).
      by simplify_eq/=. }
    assert (Hcol : Forall2 (fun ev r => result ev = Some r)
                     (filter terminal
                        (processCompanies URL_parse net sched (JS.trim token)
                           since companies))
                     (collected
                        (processCompanies URL_parse net sched (JS.trim token)
                           since companies))).
    { apply collected_terminal. clear -Hfor.
      induction Hfor as [|c ev cs evs (_ & _ & r & Hr & _) _ IH];
        constructor; eauto. }
    revert Hfor Hcol. generalize (collected
                        (processCompanies URL_parse net sched (JS.trim token)
                           since companies)).
    generalize (filter terminal
                        (processCompanies URL_parse net sched (JS.trim token)
                           since companies)).
    clear. intros evs rs Hfor. revert rs.
    induction Hfor as [|c ev cs evs (_ & _ & r & Hr & Hn & Hu) _ IH];
      intros rs Hcol; inversion Hcol; subst; constructor.
    + split; congruence.
    + by apply IH.
Qed.

End EndToEnd.

Lemma startAnalysis_shows_every_company_witness :
  let run :=
    startAnalysis sample_parse (fun _ => "12:00:00")
      (fun body =>
         POST sample_URL_parse (fun _ => sample_api) (fun _ => [0; 1]) body
           "2024-01-01T00:00:00.000Z")
      sample_chunks "Failed to fetch" " ghp_token " sample_inputs
      {| logs := ["old"]; progress := (7, 9); results := [];
         isAnalyzing := false |} in
  run.2 = None /\
  isAnalyzing run.1 = false /\
  progress run.1 = (2, 2) /\
  Forall2 (fun c r => r_company_name r = company_name c /\
                      r_github_org_url r = github_org_url c)
    sample_inputs (results run.1).
Proof.
  apply (startAnalysis_shows_every_company sample_URL_parse
           (fun _ => sample_api) (fun _ => [0; 1]) sample_stringify
           sample_parse (fun _ => "12:00:00") sample_chunks "Failed to fetch"
           " ghp_token " "2024-01-01T00:00:00.000Z" sample_inputs).
  - vm_compute. discriminate.
  - vm_compute. discriminate.
  - repeat constructor; vm_compute; reflexivity.
  - vm_compute. reflexivity.
Defined.

(** ** The client against the handler *)

Section ClientServer.

Variable URL_parse : string -> option URL.
Variable net : nat -> Octokit -> Remote.
Variable sched : nat -> list nat.
Variable JSON_parse : string -> option ProgressEvent.
Variable timeString : nat -> string.
Variable receive : list ProgressEvent -> list string.
Variable platformError : string.

(** X16: the handler never rejects a request that [startAnalysis] sends:
    against [POST], an analysis either stops at one of the two guards of
    the client, with their alert and the page untouched, or sends a
    request that the handler answers with the event stream for the
    trimmed token, runs without an alert and leaves the page no longer
    analysing. *)
Theorem startAnalysis_request_is_accepted (token since : string)
  (companies : list CompanyInput) (page : Page) :
  let run :=
    startAnalysis JSON_parse timeString
      (fun body => POST URL_parse net sched body since)
      receive platformError token companies page in
  (JS.trim token = EmptyString /\ run = (page, Some "Please enter your GitHub token.")) \/
  (JS.trim token <> EmptyString /\ companies = [] /\
   run = (page, Some "Please upload a CSV file first.")) \/
  (JS.trim token <> EmptyString /\ companies <> [] /\
   POST URL_parse net sched
     (JsonBody (Given companies) (Given (JS.trim token))) since
   = Ok (EventStream
           (processCompanies URL_parse net sched (JS.trim token) since
              companies)) /\
   run.2 = None /\ isAnalyzing run.1 = false).
Proof.
  intros run. subst run. unfold startAnalysis.
  destruct (JS.trim token) as [|c tok] eqn:Htok; [by left|].
  right. destruct companies as [|company0 rest]; [by left|].
  right. by cbn.
Qed.

End ClientServer.

(** A token that is a no-break space only is blank. *)
Example startAnalysis_no_break_space_token :
  let page :=
    {| logs := []; progress := (0, 0); results := []; isAnalyzing := false |} in
  startAnalysis sample_parse (fun _ => "12:00:00")
    (fun body =>
       POST sample_URL_parse (fun _ => sample_api) (fun _ => [0; 1]) body
         "2024-01-01T00:00:00.000Z")
    sample_chunks "Failed to fetch" (JS.utf8 160) sample_inputs page
  = (page, Some "Please enter your GitHub token.").
Proof. vm_compute. reflexivity. Qed.

(** ** The upload form *)

Section UploadProperties.

Variable toLowerCase : string -> string.

Lemma trimmedOrEmpty_trimmed (v : option string) :
  JS.trim (trimmedOrEmpty v) = trimmedOrEmpty v.
Proof. destruct v; [apply trim_trim | done]. Qed.

Lemma parsedCompanies_complete (data : list Row) :
  Forall (fun c =>
            company_name c <> EmptyString /\
            github_org_url c <> EmptyString /\
            JS.trim (company_name c) = company_name c /\
            JS.trim (github_org_url c) = github_org_url c)
    (parsedCompanies toLowerCase data).
Proof.
  unfold parsedCompanies. induction data as [|row data IH]; [constructor|].
  cbn [fmap list_fmap List.filter].
  destruct (negb _ && negb _) eqn:Hkeep; [|exact IH].
  constructor; [|exact IH].
  apply andb_prop in Hkeep as [Hn Hu]. cbn [toCompany company_name github_org_url] in *.
  split_and!.
  - intros He. by rewrite He in Hn.
  - intros He. by rewrite He in Hu.
  - apply trimmedOrEmpty_trimmed.
  - apply trimmedOrEmpty_trimmed.
Qed.

(** X17: when the parser completes on an uploaded file, the companies
    that [handleFileUpload] leaves in the form are rows of the file, in
    order, with a name and a URL that are not empty and carry no
    surrounding white space. Either at least one company is loaded,
    without an alert, under the name of the file, and both columns are
    among the headers; or an alert is shown, nothing is logged and the
    form is cleared. *)
Theorem handleFileUpload_keeps_complete_rows (name : string)
  (fields : option (list string)) (data : list Row) (form : Form) :
  let out :=
    handleFileUpload toLowerCase (Some (name, Complete fields data)) form in
  Forall (fun c =>
            company_name c <> EmptyString /\
            github_org_url c <> EmptyString /\
            JS.trim (company_name c) = company_name c /\
            JS.trim (github_org_url c) = github_org_url c)
    (f_companies out.1.1) /\
  sublist (f_companies out.1.1) (toCompany toLowerCase <$> data) /\
  ((out.1.2 = None /\ f_companies out.1.1 <> [] /\
    f_fileName out.1.1 = name /\
    hasColumn toLowerCase (default [] fields) "company_name" = true /\
    hasColumn toLowerCase (default [] fields) "github_org_url" = true) \/
   (out.1.2 <> None /\ out.2 = None /\
    out.1.1 = {| f_companies := []; f_fileName := EmptyString |})).
Proof.
  intros out. subst out. unfold handleFileUpload.
  destruct (hasColumn toLowerCase (default [] fields) "company_name");
    [|split_and!; [constructor | apply sublist_nil_l | by right]].
  destruct (hasColumn toLowerCase (default [] fields) "github_org_url");
    [|split_and!; [constructor | apply sublist_nil_l | by right]].
  cbn [negb orb].
  destruct (length (parsedCompanies toLowerCase data) =? 0) eqn:Hlen;
    [split_and!; [constructor | apply sublist_nil_l | by right]|].
  cbn [fst snd f_companies f_fileName]. split_and!.
  - apply parsedCompanies_complete.
  - unfold parsedCompanies. generalize (toCompany toLowerCase <$> data).
    intros l. induction l as [|c l IH]; [constructor|].
    cbn [List.filter]. destruct (negb _ && negb _); by constructor.
  - left. split_and!; try done.
    intros He. by rewrite He in Hlen.
Qed.

End UploadProperties.

(** A header followed by a no-break space is recognised, and a row whose
    name is a no-break space only is dropped. *)
Example handleFileUpload_no_break_space :
  handleFileUpload (fun s => s)
    (Some ("orgs.csv",
           Complete
             (Some ["company_name" +:+ JS.utf8 160; "github_org_url"])
             [[("company_name" +:+ JS.utf8 160, "Acme");
               ("github_org_url", " github.com/acme ")];
              [("company_name" +:+ JS.utf8 160, JS.utf8 160);
               ("github_org_url", "github.com/b")]]))
    {| f_companies := []; f_fileName := EmptyString |}
  = ({| f_companies :=
          [{| company_name := "Acme"; github_org_url := "github.com/acme" |}];
        f_fileName := "orgs.csv" |},
     None, Some "Loaded 1 companies from orgs.csv").
Proof. vm_compute. reflexivity. Qed.
